(** * Verification of the Obsidian vault client (obsidian-client.ts)

    The development embeds the [ObsidianClient] class: the path guard
    ([validatePath]), the markdown link and tag extraction, the note cache
    with its forward-link and backlink graphs, the CRUD operations, the
    file-watcher callback, search post-processing and the statistics;
    and, of the server built on it, the concept extraction and the
    connection suggestions.

    Conventions of the embedding.
    - JavaScript strings are Rocq strings; the string primitives are exact
      on ASCII text (other bytes are left alone by [toLowerCase] and are
      never white space).
    - [Map] and [Set] iterate in insertion order, and the link resolver
      depends on that order, so both are association lists / duplicate-free
      lists with the insertion discipline of the language written out.
    - Node's [path] module is the POSIX one ([path.sep = "/"]).
    - The file system (fs-extra), the front-matter library (gray-matter),
      the search engine (Fuse) and the process environment are external
      collaborators: they are the fields of the [Platform] class.
    - An [async] method becomes a function from the world before the call
      to the world after it, paired with the value returned or the error
      thrown.
    - A quotient of two lengths is kept as numerator and denominator, and
      compared by cross-multiplication. *)

From Stdlib Require Import String Ascii List ZArith Lia Bool Arith.
From Stdlib Require Import DecimalString Permutation Sorted.
Import ListNotations.
Local Open Scope list_scope.
Local Open Scope string_scope.

(* ================================================================== *)
(** ** JavaScript string primitives *)
(* ================================================================== *)

Module JsString.

Definition startsWith (s p : string) : bool := String.prefix p s.

Definition endsWith (s p : string) : bool :=
  let n := String.length s in
  let m := String.length p in
  (m <=? n)%nat && String.eqb (substring (n - m) m s) p.

(** [s.slice(k)] for a non-negative [k]. *)
Definition sliceFrom (k : nat) (s : string) : string :=
  substring k (String.length s - k) s.

Definition lower_char (c : ascii) : ascii :=
  let n := nat_of_ascii c in
  if ((65 <=? n) && (n <=? 90))%nat then ascii_of_nat (n + 32) else c.

Fixpoint toLowerCase (s : string) : string :=
  match s with
  | EmptyString => EmptyString
  | String c s' => String (lower_char c) (toLowerCase s')
  end.

(** [s.split(sep)] for a one-character separator. *)
Fixpoint split (sep : ascii) (s : string) : list string :=
  match s with
  | EmptyString => [EmptyString]
  | String c s' =>
      if Ascii.eqb c sep then EmptyString :: split sep s'
      else match split sep s' with
           | [] => [String c EmptyString]
           | h :: t => String c h :: t
           end
  end.

(** [l.join(sep)]. *)
Fixpoint join (sep : string) (l : list string) : string :=
  match l with
  | [] => EmptyString
  | [x] => x
  | x :: rest => x ++ sep ++ join sep rest
  end.

(** [s.includes(sub)]. *)
Fixpoint includes (s sub : string) : bool :=
  String.prefix sub s ||
  match s with
  | EmptyString => false
  | String _ s' => includes s' sub
  end.

Fixpoint string_rev_acc (s acc : string) : string :=
  match s with
  | EmptyString => acc
  | String c s' => string_rev_acc s' (String c acc)
  end.

Definition string_rev (s : string) : string := string_rev_acc s EmptyString.

End JsString.

Import JsString.

(* ================================================================== *)
(** ** Node's POSIX [path] module *)
(* ================================================================== *)

Module PosixPath.

Definition sep : ascii := "/"%char.

Definition isAbsolute (p : string) : bool := startsWith p "/".

(** One step of [normalizeString]: the segments kept so far are a stack,
    most recent first.  Empty and ["."] segments are dropped, [".."] pops
    the last real segment, and above the root it is kept only when
    [allowAboveRoot]. *)
Definition push_segment (allowAboveRoot : bool)
  (stack : list string) (seg : string) : list string :=
  if (seg =? "") || (seg =? ".") then stack
  else if seg =? ".." then
    match stack with
    | top :: rest =>
        if top =? ".." then (if allowAboveRoot then ".." :: stack else stack)
        else rest
    | [] => if allowAboveRoot then [".."] else []
    end
  else seg :: stack.

Definition normalize_segments (allowAboveRoot : bool) (p : string)
  : list string :=
  rev (fold_left (push_segment allowAboveRoot) (split sep p) []).

Definition normalizeString (allowAboveRoot : bool) (p : string) : string :=
  join "/" (normalize_segments allowAboveRoot p).

Definition normalize (p : string) : string :=
  if p =? "" then "."
  else
    let abs := isAbsolute p in
    let trailing := endsWith p "/" in
    let body := normalizeString (negb abs) p in
    if body =? "" then
      (if abs then "/" else if trailing then "./" else ".")
    else
      let body' := if trailing then body ++ "/" else body in
      if abs then "/" ++ body' else body'.

(** [path.resolve(...args)]: the arguments are consumed from the right
    until an absolute one is met; the working directory comes last. *)
Fixpoint resolve_acc (cwd : string) (rev_args : list string) (acc : string)
  : string * bool :=
  match rev_args with
  | [] => (cwd ++ "/" ++ acc, isAbsolute cwd)
  | p :: rest =>
      if p =? "" then resolve_acc cwd rest acc
      else if isAbsolute p then (p ++ "/" ++ acc, true)
      else resolve_acc cwd rest (p ++ "/" ++ acc)
  end.

Definition resolve (cwd : string) (args : list string) : string :=
  let '(p, abs) := resolve_acc cwd (rev args) "" in
  let body := normalizeString (negb abs) p in
  if abs then "/" ++ body
  else if body =? "" then "." else body.

(** [path.join(...args)]. *)
Definition join_paths (args : list string) : string :=
  match filter (fun a => negb (a =? "")) args with
  | [] => "."
  | parts => normalize (join "/" parts)
  end.

(** Segments of a resolved path (["/"] has none). *)
Definition segments_of (resolved : string) : list string :=
  if resolved =? "/" then [] else split sep (sliceFrom 1 resolved).

Fixpoint strip_common (a b : list string) : list string * list string :=
  match a, b with
  | x :: a', y :: b' => if x =? y then strip_common a' b' else (a, b)
  | _, _ => (a, b)
  end.

(** [path.relative(from, to)], segment by segment: one [".."] for every
    segment of [from] below the common ancestor, then the rest of [to]. *)
Definition relative (cwd from to : string) : string :=
  if from =? to then ""
  else
    let from' := resolve cwd [from] in
    let to' := resolve cwd [to] in
    if from' =? to' then ""
    else
      let '(up, down) := strip_common (segments_of from') (segments_of to') in
      join "/" (map (fun _ => "..") up ++ down)%list.

Fixpoint drop_trailing_sep (r : string) : string :=
  match r with
  | String c r' => if Ascii.eqb c sep then drop_trailing_sep r' else r
  | EmptyString => EmptyString
  end.

Fixpoint take_until_sep (r : string) : string :=
  match r with
  | String c r' => if Ascii.eqb c sep then EmptyString
                   else String c (take_until_sep r')
  | EmptyString => EmptyString
  end.

(** Last segment of [p], trailing separators ignored. *)
Definition last_segment (p : string) : string :=
  string_rev (take_until_sep (drop_trailing_sep (string_rev p))).

(** [path.basename(p, suffix)] for a non-empty [suffix]. *)
Definition basename (p suffix : string) : string :=
  if p =? suffix then ""
  else
    let b := last_segment p in
    if endsWith b suffix && negb (b =? suffix)
    then substring 0 (String.length b - String.length suffix) b
    else b.

Fixpoint drop_until_sep (r : string) : string :=
  match r with
  | String c r' => if Ascii.eqb c sep then r else drop_until_sep r'
  | EmptyString => EmptyString
  end.

(** [path.dirname(p)]. *)
Definition dirname (p : string) : string :=
  match p with
  | EmptyString => "."
  | String c0 rest =>
      let hasRoot := Ascii.eqb c0 sep in
      (* scan [rest] (indices >= 1) from the right *)
      let r := drop_until_sep (drop_trailing_sep (string_rev rest)) in
      match r with
      | EmptyString => if hasRoot then "/" else "."
      | String _ r' =>
          (* [r] starts at the separator found at index [end] *)
          let head := String c0 (string_rev r') in
          if hasRoot && (r' =? "") then "//" else head
      end
  end.

End PosixPath.

(* ================================================================== *)
(** ** Insertion-ordered [Map<string, V>] and [Set<string>] *)
(* ================================================================== *)

Module JsMap.
Section WithValues.
Context {V : Type}.

Definition t := list (string * V).

Fixpoint get (m : t) (k : string) : option V :=
  match m with
  | [] => None
  | (k', v) :: m' => if k' =? k then Some v else get m' k
  end.

Definition has (m : t) (k : string) : bool :=
  match get m k with Some _ => true | None => false end.

(** [m.set(k, v)]: an existing key keeps its position. *)
Fixpoint set (m : t) (k : string) (v : V) : t :=
  match m with
  | [] => [(k, v)]
  | (k', v') :: m' =>
      if k' =? k then (k, v) :: m' else (k', v') :: set m' k v
  end.

Fixpoint delete (m : t) (k : string) : t :=
  match m with
  | [] => []
  | (k', v') :: m' =>
      if k' =? k then delete m' k else (k', v') :: delete m' k
  end.

Definition keys (m : t) : list string := map fst m.
Definition values (m : t) : list V := map snd m.

(** In-place update of the value stored under [k], when there is one. *)
Fixpoint update (m : t) (k : string) (f : V -> V) : t :=
  match m with
  | [] => []
  | (k', v') :: m' =>
      if k' =? k then (k', f v') :: m' else (k', v') :: update m' k f
  end.

(** The same mutation applied to every value. *)
Definition update_all (m : t) (f : V -> V) : t :=
  map (fun kv => (fst kv, f (snd kv))) m.
End WithValues.
Arguments t : clear implicits.
End JsMap.

Module JsSet.
Definition t := list string.

Definition has (s : t) (x : string) : bool := existsb (String.eqb x) s.

Definition add (s : t) (x : string) : t :=
  if has s x then s else (s ++ [x])%list.

Definition delete (s : t) (x : string) : t :=
  filter (fun y => negb (y =? x)) s.

(** [new Set(array)]. *)
Definition of_list (l : list string) : t := fold_left add l [].
End JsSet.

(* ================================================================== *)
(** ** Data model *)
(* ================================================================== *)

(** Front-matter values: the shapes the client inspects ([tags] is a
    string or an array of strings, [title] a string). *)
Inductive FmValue :=
| FmString (s : string)
| FmArray (items : list string).

Definition Frontmatter := list (string * FmValue).

Record VaultNote := {
  path : string;
  name : string;
  content : string;
  frontmatter : Frontmatter;
  links : list string;
  backlinks : list string;
  tags : list string;
  lastModified : Z;
  created : Z;
  wordCount : Z
}.

Definition with_backlinks (n : VaultNote) (b : list string) : VaultNote :=
  {| path := path n; name := name n; content := content n;
     frontmatter := frontmatter n; links := links n; backlinks := b;
     tags := tags n; lastModified := lastModified n; created := created n;
     wordCount := wordCount n |}.

Record LinkAnalysis := {
  totalLinks : Z;
  brokenLinks : list string;
  orphanedNotes : list string;
  centralNotes : list (string * Z);
  clusters : list (list string)
}.

(** [Math.round] of a quotient; [None] stands for [NaN]. *)
Record VaultStatistics := {
  totalNotes : Z;
  totalWords : Z;
  averageWordsPerNote : option Z;
  totalTags : Z;
  mostUsedTags : list (string * Z);
  recentNotes : list (string * Z)
}.

(** [fs.Stats] and [fs.Dirent], as far as the client reads them. *)
Record Stats := {
  isDirectory : bool;
  mtime : Z;
  birthtime : option Z
}.

Record Dirent := {
  d_name : string;
  d_isDirectory : bool;
  d_isFile : bool
}.

(** The errors the client throws, with the text of their messages. *)
Inductive Error :=
| AccessDeniedHidden
| AccessDeniedOutside (absolute : string) (allowed : list string)
| VaultNotADirectory (vault : string)
| VaultNotAccessible (vault : string)
| NoteNotFound (relativePath : string)
| FailedToCreate
| FsError
| MatterError.

Definition message (e : Error) : string :=
  match e with
  | AccessDeniedHidden =>
      "Access denied - hidden files/directories not allowed"
  | AccessDeniedOutside absolute allowed =>
      "Access denied - path outside vault: " ++ absolute ++ " not in "
        ++ join ", " allowed
  | VaultNotADirectory v => "Vault path is not a directory: " ++ v
  | VaultNotAccessible v => "Cannot access vault directory: " ++ v
  | NoteNotFound r => "Note not found: " ++ r
  | FailedToCreate => "Failed to create note"
  | FsError => "file system error"
  | MatterError => "front-matter error"
  end.

Definition is_access_denied (e : Error) : bool :=
  startsWith (message e) "Access denied".

Inductive Result (A : Type) :=
| Ok (a : A)
| Err (e : Error).
Arguments Ok {A} a.
Arguments Err {A} e.

Inductive LogLevel := LogInfo | LogWarn | LogError.

(* ================================================================== *)
(** ** Markdown scanning ([parseMarkdown], [extractTags], word count) *)
(* ================================================================== *)

Module Scan.

(** Longest run of characters satisfying [p], and the rest. *)
Fixpoint span (p : ascii -> bool) (s : string) : string * string :=
  match s with
  | EmptyString => (EmptyString, EmptyString)
  | String c s' =>
      if p c then let '(run, rest) := span p s' in (String c run, rest)
      else (EmptyString, s)
  end.

Definition is_not (c : ascii) (d : ascii) : bool := negb (Ascii.eqb d c).

(** A matcher tries the pattern at the head of its argument and returns
    the captured groups and the text after the match. *)
Definition matcher (A : Type) := string -> option (A * string).

(** The exec loop of a global regular expression: the leftmost match is taken and the scan resumes after
    it.  [skip] counts the characters of the current match still to be
    passed over. *)
Fixpoint exec_all {A : Type} (m : matcher A) (skip : nat) (s : string)
  : list A :=
  match s with
  | EmptyString => []
  | String _ s' =>
      match skip with
      | S k => exec_all m k s'
      | O =>
          match m s with
          | Some (cap, rest) =>
              cap :: exec_all m (String.length s - String.length rest - 1) s'
          | None => exec_all m 0 s'
          end
      end
  end.

(** Wiki links: two opening brackets, a non-empty target without closing
    bracket or bar, an optional bar and alias without closing bracket, two
    closing brackets.  The capture is the target. *)
Definition wikiLinkRegex : matcher string := fun s =>
  if startsWith s "[[" then
    let '(target, r1) :=
      span (fun c => is_not "]" c && is_not "|" c) (sliceFrom 2 s) in
    if target =? "" then None
    else
      let r2 := if startsWith r1 "|"
                then snd (span (is_not "]") (sliceFrom 1 r1)) else r1 in
      if startsWith r2 "]]" then Some (target, sliceFrom 2 r2) else None
  else None.

(** Markdown links: a non-empty bracketed text without closing bracket,
    then a non-empty parenthesised target without closing parenthesis.
    The captures are the text and the target. *)
Definition mdLinkRegex : matcher (string * string) := fun s =>
  if startsWith s "[" then
    let '(text, r1) := span (is_not "]") (sliceFrom 1 s) in
    if text =? "" then None
    else if startsWith r1 "](" then
      let '(target, r2) := span (is_not ")") (sliceFrom 2 r1) in
      if target =? "" then None
      else if startsWith r2 ")" then Some ((text, target), sliceFrom 1 r2)
      else None
    else None
  else None.

(** Embeds: an exclamation mark, two opening brackets, a non-empty target
    without closing bracket, two closing brackets. *)
Definition embedRegex : matcher string := fun s =>
  if startsWith s "![[" then
    let '(target, r1) := span (is_not "]") (sliceFrom 3 s) in
    if target =? "" then None
    else if startsWith r1 "]]" then Some (target, sliceFrom 2 r1)
    else None
  else None.

Definition is_tag_char (c : ascii) : bool :=
  let n := nat_of_ascii c in
  ((97 <=? n) && (n <=? 122) || (65 <=? n) && (n <=? 90)
   || (48 <=? n) && (n <=? 57) || (n =? 95) || (n =? 47) || (n =? 45))%nat.

(** Inline tags: a hash sign and a non-empty run of letters, digits,
    underscore, slash and hyphen; the capture is the run. *)
Definition inlineTagRegex : matcher string := fun s =>
  if startsWith s "#" then
    let '(tag, r1) := span is_tag_char (sliceFrom 1 s) in
    if tag =? "" then None else Some (tag, r1)
  else None.

(** ASCII members of the white-space class. *)
Definition is_space (c : ascii) : bool :=
  let n := nat_of_ascii c in
  ((9 <=? n) && (n <=? 13) || (n =? 32))%nat.

(** Length of the split on white-space runs: one more than the number of maximal runs of
    white space. *)
Fixpoint count_space_runs (in_run : bool) (s : string) : Z :=
  match s with
  | EmptyString => 0
  | String c s' =>
      if is_space c
      then (if in_run then 0 else 1) + count_space_runs true s'
      else count_space_runs false s'
  end.

Definition split_spaces_length (s : string) : Z := 1 + count_space_runs false s.

End Scan.

(* ================================================================== *)
(** ** External collaborators *)
(* ================================================================== *)

(** What the client needs from its surroundings.  An [option] result is
    [None] when the call rejects (throws). *)
Class Platform := {
  FS : Type;
  os_homedir : string;
  process_cwd : string;
  fs_stat : FS -> string -> option Stats;
  fs_readFile : FS -> string -> option string;
  fs_readdir : FS -> string -> option (list Dirent);
  fs_writeFile : FS -> string -> string -> option FS;
  fs_ensureDir : FS -> string -> option FS;
  fs_remove : FS -> string -> option FS;
  fs_pathExists : FS -> string -> bool;
  (** gray-matter: [matter(text)] gives the data and the body. *)
  matter : string -> option (Frontmatter * string);
  matter_stringify : string -> Frontmatter -> string;
  (** Fuse: ranked search over the indexed notes. *)
  FuseMatch : Type;
  FuseScore : Type;
  score_zero : FuseScore;
  score_is_zero : FuseScore -> bool;
  fuse_search : list VaultNote -> string
                -> list (VaultNote * option FuseScore * option (list FuseMatch))
}.

Section Client.
Context {P : Platform}.

Record SearchResult := {
  note : VaultNote;
  score : FuseScore;
  matches : list FuseMatch
}.

(** The fields of [ObsidianClient] (the watcher handle is external). *)
Record Client := {
  vaultPath : string;
  allowedDirectories : list string;
  noteCache : JsMap.t VaultNote;
  linkGraph : JsMap.t JsSet.t;
  backlinksGraph : JsMap.t JsSet.t;
  searchIndex : option (list VaultNote)
}.

Definition with_cache (c : Client) (m : JsMap.t VaultNote) : Client :=
  {| vaultPath := vaultPath c; allowedDirectories := allowedDirectories c;
     noteCache := m; linkGraph := linkGraph c;
     backlinksGraph := backlinksGraph c; searchIndex := searchIndex c |}.

Definition with_graphs (c : Client) (m : JsMap.t VaultNote)
  (lg bg : JsMap.t JsSet.t) : Client :=
  {| vaultPath := vaultPath c; allowedDirectories := allowedDirectories c;
     noteCache := m; linkGraph := lg; backlinksGraph := bg;
     searchIndex := searchIndex c |}.

Definition with_index (c : Client) (ix : option (list VaultNote)) : Client :=
  {| vaultPath := vaultPath c; allowedDirectories := allowedDirectories c;
     noteCache := noteCache c; linkGraph := linkGraph c;
     backlinksGraph := backlinksGraph c; searchIndex := ix |}.

(** The world an operation runs in: the disk, the client object and the
    lines written to the logger. *)
Record World := {
  disk : FS;
  client : Client;
  logged : list (LogLevel * string)
}.

(* ------------------------------------------------------------------ *)
(** *** Security utilities *)

Definition normalizePath (p : string) : string :=
  toLowerCase (PosixPath.normalize p).

Definition expandHome (filepath : string) : string :=
  if startsWith filepath "~/" || (filepath =? "~")
  then PosixPath.join_paths [os_homedir; sliceFrom 1 filepath]
  else filepath.

Definition new_client (vault : string) : Client :=
  let v := expandHome vault in
  {| vaultPath := v;
     allowedDirectories := [normalizePath (PosixPath.resolve process_cwd [v])];
     noteCache := []; linkGraph := []; backlinksGraph := [];
     searchIndex := None |}.

Definition validatePath (c : Client) (requestedPath : string)
  : Result string :=
  let pathParts := split PosixPath.sep requestedPath in
  if existsb (fun part => startsWith part ".") pathParts
  then Err AccessDeniedHidden
  else
    let expandedPath := expandHome requestedPath in
    let absolute :=
      if PosixPath.isAbsolute expandedPath
      then PosixPath.resolve process_cwd [expandedPath]
      else PosixPath.resolve process_cwd [vaultPath c; expandedPath] in
    let normalizedRequested := normalizePath absolute in
    let isAllowed :=
      existsb (fun dir => startsWith normalizedRequested dir)
              (allowedDirectories c) in
    if negb isAllowed
    then Err (AccessDeniedOutside absolute (allowedDirectories c))
    else Ok absolute.

(* ------------------------------------------------------------------ *)
(** *** Markdown parsing and link extraction *)

Definition parseMarkdown (text : string) : list string :=
  let wiki := Scan.exec_all Scan.wikiLinkRegex 0 text in
  let md :=
    map snd (filter (fun m => negb (startsWith (snd m) "http"))
                    (Scan.exec_all Scan.mdLinkRegex 0 text)) in
  let embeds := Scan.exec_all Scan.embedRegex 0 text in
  JsSet.of_list (wiki ++ md ++ embeds)%list.

Fixpoint fm_get (fm : Frontmatter) (k : string) : option FmValue :=
  match fm with
  | [] => None
  | (k', v) :: fm' => if k' =? k then Some v else fm_get fm' k
  end.

Definition extractTags (text : string) (fm : Frontmatter) : list string :=
  let fmTags :=
    match fm_get fm "tags" with
    | Some (FmArray items) => items
    | Some (FmString s) => if s =? "" then [] else [s]
    | None => []
    end in
  JsSet.of_list (fmTags ++ Scan.exec_all Scan.inlineTagRegex 0 text)%list.

(* ------------------------------------------------------------------ *)
(** *** Cache and graphs *)

Definition log (lvl : LogLevel) (msg : string) (w : World) : World :=
  {| disk := disk w; client := client w;
     logged := (logged w ++ [(lvl, msg)])%list |}.

Definition set_client (w : World) (c : Client) : World :=
  {| disk := disk w; client := c; logged := logged w |}.

Definition set_disk (w : World) (d : FS) : World :=
  {| disk := d; client := client w; logged := logged w |}.

(** The body of the [try] block of [updateCacheEntry]. *)
Definition load_note (d : FS) (vault relativePath : string)
  : option VaultNote :=
  let fullPath := PosixPath.join_paths [vault; relativePath] in
  match fs_stat d fullPath with
  | None => None
  | Some stats =>
      match fs_readFile d fullPath with
      | None => None
      | Some text =>
          match matter text with
          | None => None
          | Some (fm, bodyContent) =>
              Some {| path := relativePath;
                      name := PosixPath.basename relativePath ".md";
                      content := bodyContent;
                      frontmatter := fm;
                      links := parseMarkdown bodyContent;
                      backlinks := [];
                      tags := extractTags bodyContent fm;
                      lastModified := mtime stats;
                      created := match birthtime stats with
                                 | Some b => b
                                 | None => mtime stats
                                 end;
                      wordCount := Scan.split_spaces_length bodyContent |}
          end
      end
  end.

Definition updateCacheEntry (relativePath : string) (w : World) : World :=
  let c := client w in
  match load_note (disk w) (vaultPath c) relativePath with
  | Some note =>
      set_client w (with_cache c (JsMap.set (noteCache c) relativePath note))
  | None =>
      log LogError ("Failed to update cache for " ++ relativePath ++ ":") w
  end.

Definition removeFromCache (relativePath : string) (c : Client) : Client :=
  let cache := JsMap.delete (noteCache c) relativePath in
  let lg := JsMap.delete (linkGraph c) relativePath in
  let bg := JsMap.delete (backlinksGraph c) relativePath in
  with_graphs c cache
    (JsMap.update_all lg (fun s => JsSet.delete s relativePath))
    (JsMap.update_all bg (fun s => JsSet.delete s relativePath)).

Definition strip_md (link : string) : string :=
  if endsWith link ".md"
  then substring 0 (String.length link - 3) link
  else link.

Definition resolveLink (cache : JsMap.t VaultNote) (link : string)
  : option VaultNote :=
  let cleanLink := strip_md link in
  match find (fun note => (name note =? cleanLink) || (path note =? cleanLink))
             (JsMap.values cache) with
  | Some note => Some note
  | None =>
      find (fun note =>
              includes (toLowerCase (name note)) (toLowerCase cleanLink))
           (JsMap.values cache)
  end.

(** One iteration of the inner loop of [buildLinkGraphs].  The set of the
    source exists (the first loop created one for every cached note), so
    the non-null assertion on [linkGraph.get(note.path)] holds; the
    backlink side is guarded by an [if] in the source. *)
Definition add_link (cache : JsMap.t VaultNote) (source : string)
  (g : JsMap.t JsSet.t * JsMap.t JsSet.t) (link : string)
  : JsMap.t JsSet.t * JsMap.t JsSet.t :=
  match resolveLink cache link with
  | Some targetNote =>
      (JsMap.update (fst g) source (fun s => JsSet.add s (path targetNote)),
       JsMap.update (snd g) (path targetNote) (fun s => JsSet.add s source))
  | None => g
  end.

Definition buildLinkGraphs (c : Client) : Client :=
  let cache := noteCache c in
  let notes := JsMap.values cache in
  let empty :=
    fold_left (fun g note => JsMap.set g (path note) ([] : JsSet.t)) notes [] in
  let '(lg, bg) :=
    fold_left (fun g note => fold_left (add_link cache (path note)) (links note) g)
              notes (empty, empty) in
  let cache' :=
    JsMap.update_all cache
      (fun note => match JsMap.get bg (path note) with
                   | Some s => with_backlinks note s
                   | None => note
                   end) in
  with_graphs c cache' lg bg.

Definition rebuildSearchIndex (c : Client) : Client :=
  with_index c (Some (JsMap.values (noteCache c))).

(* ------------------------------------------------------------------ *)
(** *** Operations as world transformers *)

(** An operation either returns a value or throws, and in both cases
    leaves a world behind. *)
Definition Op (A : Type) := World -> World * Result A.

Definition ret {A : Type} (a : A) : Op A := fun w => (w, Ok a).

Definition throw {A : Type} (e : Error) : Op A := fun w => (w, Err e).

Definition bind {A B : Type} (m : Op A) (k : A -> Op B) : Op B :=
  fun w => match m w with
           | (w', Ok a) => k a w'
           | (w', Err e) => (w', Err e)
           end.

Notation "x <- m ;; k" := (bind m (fun x => k))
  (at level 61, m at next level, right associativity).
Notation "m ;;; k" := (bind m (fun _ => k))
  (at level 61, right associativity).

(** [try { m } catch (error) { h error }]. *)
Definition try_catch {A : Type} (m : Op A) (h : Error -> Op A) : Op A :=
  fun w => match m w with
           | (w', Ok a) => (w', Ok a)
           | (w', Err e) => h e w'
           end.

Definition of_result {A : Type} (r : Result A) : Op A := fun w => (w, r).

Definition this : Op Client := fun w => (w, Ok (client w)).

Definition run (f : World -> World) : Op unit := fun w => (f w, Ok tt).

Definition mutate (f : Client -> Client) : Op unit :=
  run (fun w => set_client w (f (client w))).

Definition logger (lvl : LogLevel) (msg : string) : Op unit :=
  run (log lvl msg).

(** A call that reads the disk. *)
Definition fs_read {A : Type} (f : FS -> option A) : Op A :=
  fun w => match f (disk w) with
           | Some a => (w, Ok a)
           | None => (w, Err FsError)
           end.

(** A call that changes the disk. *)
Definition fs_write (f : FS -> option FS) : Op unit :=
  fun w => match f (disk w) with
           | Some d => (set_disk w d, Ok tt)
           | None => (w, Err FsError)
           end.

Definition relative_to_vault (c : Client) (p : string) : string :=
  PosixPath.relative process_cwd (vaultPath c) p.

Definition decimal (n : nat) : string :=
  NilZero.string_of_uint (Nat.to_uint n).

(* ------------------------------------------------------------------ *)
(** *** File watching *)

Inductive WatchEvent := EvAdd | EvChange | EvDelete.

Definition handleFileChange (filePath : string) (event : WatchEvent)
  : Op unit :=
  if negb (endsWith filePath ".md") then ret tt
  else
    try_catch
      (c <- this ;;
       let relativePath := relative_to_vault c filePath in
       match event with
       | EvDelete => mutate (removeFromCache relativePath)
       | EvAdd | EvChange => run (updateCacheEntry relativePath)
       end ;;;
       mutate rebuildSearchIndex)
      (fun _ =>
         logger LogWarn ("Failed to handle file change: " ++ filePath)).

(* ------------------------------------------------------------------ *)
(** *** Core vault operations *)

(** The directory walk; the fuel bounds the nesting depth ([None] when it
    runs out). *)
Fixpoint findMarkdownFiles (fuel : nat) (d : FS) (dir : string)
  : option (Result (list string)) :=
  match fuel with
  | O => None
  | S fuel' =>
      match fs_readdir d dir with
      | None => Some (Err FsError)
      | Some entries =>
          fold_left
            (fun acc entry =>
               match acc with
               | Some (Ok files) =>
                   let fullPath := PosixPath.join_paths [dir; d_name entry] in
                   if startsWith (d_name entry) "." then acc
                   else if d_isDirectory entry then
                     match findMarkdownFiles fuel' d fullPath with
                     | Some (Ok subFiles) => Some (Ok (files ++ subFiles)%list)
                     | other => other
                     end
                   else if d_isFile entry && endsWith (d_name entry) ".md"
                   then Some (Ok (files ++ [fullPath])%list)
                   else acc
               | _ => acc
               end)
            entries (Some (Ok []))
      end
  end.

Definition scanVault (markdownFiles : list string) : Op unit :=
  run (fun w =>
         fold_left
           (fun w filePath =>
              updateCacheEntry (relative_to_vault (client w) filePath) w)
           markdownFiles w).

Definition initializeVault (fuel : nat) (w : World)
  : option (World * Result unit) :=
  let c := client w in
  let w1 := log LogInfo ("Initializing vault at: " ++ vaultPath c) w in
  let check : Op unit :=
    try_catch
      (stats <- fs_read (fun d => fs_stat d (vaultPath c)) ;;
       if negb (isDirectory stats)
       then throw (VaultNotADirectory (vaultPath c))
       else ret tt)
      (fun _ => throw (VaultNotAccessible (vaultPath c))) in
  match check w1 with
  | (w2, Err e) => Some (w2, Err e)
  | (w2, Ok _) =>
      match findMarkdownFiles fuel (disk w2) (vaultPath c) with
      | None => None
      | Some (Err e) => Some (w2, Err e)
      | Some (Ok markdownFiles) =>
          Some ((scanVault markdownFiles ;;;
                 mutate buildLinkGraphs ;;;
                 mutate rebuildSearchIndex ;;;
                 c' <- this ;;
                 logger LogInfo
                   ("Vault initialized with "
                    ++ decimal (List.length (noteCache c')) ++ " notes")) w2)
      end
  end.

(* ------------------------------------------------------------------ *)
(** *** Public API *)

Definition createNote (notePath content : string)
  (fm : option Frontmatter) : Op VaultNote :=
  c <- this ;;
  validPath <- of_result (validatePath c notePath) ;;
  (* Ensure .md extension: the parameter is reassigned and not read again *)
  let notePath := if negb (endsWith validPath ".md")
                  then notePath ++ ".md" else notePath in
  let fileContent :=
    match fm with
    | Some (kv :: rest) => matter_stringify content (kv :: rest)
    | _ => content
    end in
  fs_write (fun d => fs_ensureDir d (PosixPath.dirname validPath)) ;;;
  fs_write (fun d => fs_writeFile d validPath fileContent) ;;;
  let relativePath := relative_to_vault c validPath in
  run (updateCacheEntry relativePath) ;;;
  mutate buildLinkGraphs ;;;
  mutate rebuildSearchIndex ;;;
  c' <- this ;;
  match JsMap.get (noteCache c') relativePath with
  | None => throw FailedToCreate
  | Some note =>
      logger LogInfo ("Created note: " ++ relativePath) ;;;
      ret note
  end.

(** The result is the cache entry after the update ([undefined] is
    [None]). *)
Definition updateNote (notePath : string) (newText : option string)
  (fm : option Frontmatter) : Op (option VaultNote) :=
  c <- this ;;
  validPath <- of_result (validatePath c notePath) ;;
  let relativePath := relative_to_vault c validPath in
  match JsMap.get (noteCache c) relativePath with
  | None => throw (NoteNotFound relativePath)
  | Some existingNote =>
      let newContent :=
        match newText with Some t => t | None => content existingNote end in
      let newFrontmatter :=
        match fm with Some f => f | None => frontmatter existingNote end in
      let fileContent := matter_stringify newContent newFrontmatter in
      fs_write (fun d => fs_writeFile d validPath fileContent) ;;;
      run (updateCacheEntry relativePath) ;;;
      mutate buildLinkGraphs ;;;
      mutate rebuildSearchIndex ;;;
      c' <- this ;;
      logger LogInfo ("Updated note: " ++ relativePath) ;;;
      ret (JsMap.get (noteCache c') relativePath)
  end.

Definition deleteNote (notePath : string) : Op unit :=
  c <- this ;;
  validPath <- of_result (validatePath c notePath) ;;
  let relativePath := relative_to_vault c validPath in
  if negb (JsMap.has (noteCache c) relativePath)
  then throw (NoteNotFound relativePath)
  else
    fs_write (fun d => fs_remove d validPath) ;;;
    mutate (removeFromCache relativePath) ;;;
    mutate rebuildSearchIndex ;;;
    logger LogInfo ("Deleted note: " ++ relativePath).

Definition readNote (notePath : string) : Op VaultNote :=
  c <- this ;;
  validPath <- of_result (validatePath c notePath) ;;
  let relativePath := relative_to_vault c validPath in
  note <-
    match JsMap.get (noteCache c) relativePath with
    | Some note => ret (Some note)
    | None =>
        exists_ <- (fun w => (w, Ok (fs_pathExists (disk w) validPath))) ;;
        if (exists_ : bool) then
          run (updateCacheEntry relativePath) ;;;
          c' <- this ;;
          ret (JsMap.get (noteCache c') relativePath)
        else ret None
    end ;;
  match note with
  | Some n => ret n
  | None => throw (NoteNotFound relativePath)
  end.

Record SearchOptions := {
  includeContent : option bool;
  opt_tags : option (list string);
  limit : option Z
}.

(** [array.slice(0, n)] for an integer [n]. *)
Definition slice0 {A : Type} (l : list A) (n : Z) : list A :=
  if (n <? 0)%Z
  then firstn (Z.to_nat (Z.max (Z.of_nat (List.length l) + n) 0)) l
  else firstn (Z.to_nat n) l.

Definition searchNotes (query : string) (options : option SearchOptions)
  : Op (list SearchResult) :=
  c0 <- this ;;
  match searchIndex c0 with
  | None => mutate rebuildSearchIndex
  | Some _ => ret tt
  end ;;;
  c <- this ;;
  let index := match searchIndex c with Some ix => ix | None => [] end in
  let searchResults := fuse_search index query in
  let results :=
    map (fun r =>
           let '(item, sc, ms) := r in
           {| note := item;
              score := match sc with
                          | Some x => if score_is_zero x then score_zero else x
                          | None => score_zero
                          end;
              matches := match ms with Some m => m | None => [] end |})
        searchResults in
  (* Filter by tags if specified *)
  let results :=
    match options with
    | Some {| opt_tags := Some (t :: ts) |} =>
        filter (fun result =>
                  existsb (fun tag => existsb (String.eqb tag)
                                              (tags (note result)))
                          (t :: ts))
               results
    | _ => results
    end in
  (* Limit results *)
  let results :=
    match options with
    | Some {| limit := Some n |} =>
        if (n =? 0)%Z then results else slice0 results n
    | _ => results
    end in
  ret results.

Definition getBacklinks (c : Client) (notePath : string) : list string :=
  match JsMap.get (noteCache c) notePath with
  | Some note => backlinks note
  | None => []
  end.

Definition getForwardLinks (c : Client) (notePath : string) : list string :=
  match JsMap.get (linkGraph c) notePath with
  | Some linkSet => linkSet
  | None => []
  end.

(** Stable sort, as [Array.prototype.sort] with a comparator. *)
Fixpoint insert_sorted {A : Type} (cmp : A -> A -> Z) (x : A) (l : list A)
  : list A :=
  match l with
  | [] => [x]
  | y :: l' =>
      if (cmp y x <=? 0)%Z then y :: insert_sorted cmp x l'
      else x :: y :: l'
  end.

Definition sort {A : Type} (cmp : A -> A -> Z) (l : list A) : list A :=
  fold_left (fun acc x => insert_sorted cmp x acc) l [].

Definition set_size (g : JsMap.t JsSet.t) (k : string) : Z :=
  match JsMap.get g k with
  | Some s => Z.of_nat (List.length s)
  | None => 0
  end.

Definition analyzeLinkNetwork (c : Client) : LinkAnalysis :=
  let notes := JsMap.values (noteCache c) in
  {| totalLinks :=
       fold_left (fun sum ls => (sum + Z.of_nat (List.length ls))%Z)
                 (JsMap.values (linkGraph c)) 0%Z;
     brokenLinks :=
       flat_map
         (fun note =>
            map (fun link => path note ++ ": " ++ link)
                (filter (fun link =>
                           match resolveLink (noteCache c) link with
                           | Some _ => false
                           | None => true
                           end)
                        (links note)))
         notes;
     orphanedNotes :=
       map path
         (filter (fun note =>
                    (set_size (backlinksGraph c) (path note) =? 0)%Z
                    && (set_size (linkGraph c) (path note) =? 0)%Z)
                 notes);
     centralNotes :=
       firstn 10
         (sort (fun a b => (snd b - snd a)%Z)
               (map (fun notePath =>
                       (notePath,
                        (set_size (backlinksGraph c) notePath
                         + set_size (linkGraph c) notePath)%Z))
                    (JsMap.keys (noteCache c))));
     clusters := [] |}.

Definition getMostUsedTags (c : Client) (n : nat) : list (string * Z) :=
  let tagCounts :=
    fold_left
      (fun counts note =>
         fold_left
           (fun counts tag =>
              JsMap.set counts tag
                (match JsMap.get counts tag with
                 | Some k => if (k =? 0)%Z then 0 else k
                 | None => 0
                 end + 1)%Z)
           (tags note) counts)
      (JsMap.values (noteCache c)) ([] : JsMap.t Z) in
  firstn n (sort (fun a b => (snd b - snd a)%Z) tagCounts).

(** [Math.round(a / b)] on integers; [0 / 0] is [NaN]. *)
Definition round_div (a b : Z) : option Z :=
  if (b =? 0)%Z then None else Some ((2 * a + b) / (2 * b))%Z.

Definition getVaultStatistics (c : Client) : VaultStatistics :=
  let notes := JsMap.values (noteCache c) in
  let total := fold_left (fun sum note => (sum + wordCount note)%Z) notes 0%Z in
  let allTags :=
    fold_left (fun s note => fold_left JsSet.add (tags note) s)
              notes ([] : JsSet.t) in
  {| totalNotes := Z.of_nat (List.length notes);
     totalWords := total;
     averageWordsPerNote := round_div total (Z.of_nat (List.length notes));
     totalTags := Z.of_nat (List.length allTags);
     mostUsedTags := getMostUsedTags c 5;
     recentNotes :=
       map (fun note => (path note, lastModified note))
           (firstn 10
              (sort (fun a b => (lastModified b - lastModified a)%Z) notes)) |}.

End Client.

(* ================================================================== *)
(** ** Sequences of calls *)
(* ================================================================== *)

Section Calls.
Context {P : Platform}.

(** What can happen to a client between two observations: a call of the
    public API, the vault initialisation, a graph rebuild, or a change of
    the disk made by somebody else (no watcher event is delivered). *)
Inductive Call :=
| CallInit (fuel : nat)
| CallCreate (notePath text : string) (fm : option Frontmatter)
| CallUpdate (notePath : string) (text : option string)
             (fm : option Frontmatter)
| CallDelete (notePath : string)
| CallRebuild
| DiskChange (d : FS).

Definition perform (w : World) (call : Call) : World :=
  match call with
  | CallInit fuel =>
      match initializeVault fuel w with
      | Some (w', _) => w'
      | None => w
      end
  | CallCreate p t fm => fst (createNote p t fm w)
  | CallUpdate p t fm => fst (updateNote p t fm w)
  | CallDelete p => fst (deleteNote p w)
  | CallRebuild => set_client w (buildLinkGraphs (client w))
  | DiskChange d => set_disk w d
  end.

Definition perform_all (calls : list Call) (w : World) : World :=
  fold_left perform calls w.

(** The world right after [new ObsidianClient(vault)]. *)
Definition new_world (vault : string) (d : FS) : World :=
  {| disk := d; client := new_client vault; logged := [] |}.

End Calls.

(* ================================================================== *)
(** ** A small platform for running the client *)
(* ================================================================== *)

(** An in-memory disk: absolute paths mapped to files and directories.
    Front matter and ranking are kept simple: a text without an opening
    fence has no front matter and is its own body (as with gray-matter),
    the fenced block is a small subset of YAML, and the search is a plain
    substring search. *)
Module Mem.

Inductive Node :=
| File (text : string) (modified : Z)
| Dir.

Definition Disk := JsMap.t Node.

Definition stat (d : Disk) (p : string) : option Stats :=
  match JsMap.get d p with
  | Some (File _ t) =>
      Some {| isDirectory := false; mtime := t; birthtime := Some t |}
  | Some Dir => Some {| isDirectory := true; mtime := 0; birthtime := None |}
  | None => None
  end.

Definition readFile (d : Disk) (p : string) : option string :=
  match JsMap.get d p with
  | Some (File text _) => Some text
  | _ => None
  end.

Definition readdir (d : Disk) (dir : string) : option (list Dirent) :=
  match JsMap.get d dir with
  | Some Dir =>
      Some (map (fun kv =>
                   {| d_name := PosixPath.last_segment (fst kv);
                      d_isDirectory := match snd kv with Dir => true
                                                     | File _ _ => false end;
                      d_isFile := match snd kv with Dir => false
                                                | File _ _ => true end |})
                (filter (fun kv => (PosixPath.dirname (fst kv) =? dir)
                                   && negb (fst kv =? dir)) d))
  | _ => None
  end.

Definition writeFile (d : Disk) (p text : string) : option Disk :=
  match JsMap.get d p, JsMap.get d (PosixPath.dirname p) with
  | Some Dir, _ => None
  | _, Some Dir => Some (JsMap.set d p (File text (Z.of_nat (List.length d))))
  | _, _ => None
  end.

Definition ensureDir (d : Disk) (p : string) : option Disk :=
  match JsMap.get d p with
  | Some (File _ _) => None
  | Some Dir => Some d
  | None => Some (JsMap.set d p Dir)
  end.

Definition remove (d : Disk) (p : string) : option Disk :=
  Some (filter (fun kv => negb ((fst kv =? p) || startsWith (fst kv) (p ++ "/")))
               d).

Definition pathExists (d : Disk) (p : string) : bool := JsMap.has d p.

Definition nl : string := String (ascii_of_nat 10) EmptyString.

Definition ensure_newline (text : string) : string :=
  if endsWith text nl then text else text ++ nl.

(** The front-matter block is a list of lines [key: value], or [key:]
    followed by one line [  - item] for every item of an array. *)
Definition yaml_entry (kv : string * FmValue) : string :=
  match snd kv with
  | FmString v => fst kv ++ ": " ++ v ++ nl
  | FmArray items =>
      fst kv ++ ":" ++ nl
      ++ String.concat "" (map (fun i => "  - " ++ i ++ nl) items)
  end.

Definition stringify (text : string) (fm : Frontmatter) : string :=
  match fm with
  | [] => ensure_newline text
  | _ => "---" ++ nl ++ String.concat "" (map yaml_entry fm)
         ++ "---" ++ nl ++ ensure_newline text
  end.

Definition add_item (acc : Frontmatter) (item : string) : option Frontmatter :=
  match acc with
  | (k, FmArray items) :: rest => Some ((k, FmArray (items ++ [item])%list) :: rest)
  | _ => None
  end.

(** Lines of the block up to the closing fence; [acc] is in reverse. *)
Fixpoint parse_block (lines : list string) (acc : Frontmatter)
  : option (Frontmatter * list string) :=
  match lines with
  | [] => None
  | l :: rest =>
      if l =? "---" then Some (rev acc, rest)
      else if startsWith l "  - " then
        match add_item acc (sliceFrom 4 l) with
        | Some acc' => parse_block rest acc'
        | None => None
        end
      else
        match String.index 0 ": " l with
        | Some i =>
            parse_block rest
              ((substring 0 i l, FmString (sliceFrom (i + 2) l)) :: acc)
        | None =>
            if endsWith l ":"
            then parse_block rest
                   ((substring 0 (String.length l - 1) l, FmArray []) :: acc)
            else None
        end
  end.

Definition parse (text : string) : option (Frontmatter * string) :=
  match split (ascii_of_nat 10) text with
  | first :: rest =>
      if first =? "---" then
        match parse_block rest [] with
        | Some (fm, body) => Some (fm, join nl body)
        | None => None
        end
      else Some ([], text)
  | [] => Some ([], text)
  end.

Definition search (index : list VaultNote) (query : string)
  : list (VaultNote * option Z * option (list unit)) :=
  map (fun n => (n, None, None))
      (filter (fun n => includes (toLowerCase (content n)) (toLowerCase query)
                        || includes (toLowerCase (name n)) (toLowerCase query))
              index).

#[export] Instance platform : Platform := {|
  FS := Disk;
  os_homedir := "/home/user";
  process_cwd := "/srv";
  fs_stat := stat;
  fs_readFile := readFile;
  fs_readdir := readdir;
  fs_writeFile := writeFile;
  fs_ensureDir := ensureDir;
  fs_remove := remove;
  fs_pathExists := pathExists;
  matter := parse;
  matter_stringify := stringify;
  FuseMatch := unit;
  FuseScore := Z;
  score_zero := 0%Z;
  score_is_zero := Z.eqb 0;
  fuse_search := search
|}.

(** An empty vault at [/vault]. *)
Definition empty_vault : Disk := [("/vault", Dir)].

Definition start : World := new_world "/vault" empty_vault.

(** Two notes that reference each other. *)
Definition two_linked : World :=
  perform_all [CallCreate "a.md" "see [[b]]" None;
               CallCreate "b.md" "see [[a]]" None] start.

(** Two notes without references, then [a.md] is edited on disk to
    reference [b]. *)
Definition edited_on_disk : World :=
  perform_all [CallCreate "a.md" "alpha" None;
               CallCreate "b.md" "beta" None;
               DiskChange [("/vault", Dir);
                           ("/vault/a.md", File "see [[b]]" 7);
                           ("/vault/b.md", File "beta" 2)]] start.

(** A note created with front matter. *)
Definition tagged : World * Result VaultNote :=
  createNote "t.md" "Hello #proj/alpha and #beta"
             (Some [("title", FmString "T"); ("tags", FmArray ["gamma"])])
             start.

(** A disk where the vault path is a regular file, and one where it does
    not exist. *)
Definition root_is_file : World :=
  new_world "/vault" [("/vault", File "not a directory" 1)].

Definition root_missing : World := new_world "/vault" [].

Definition three_notes : Client :=
  let note p words :=
    {| path := p; name := PosixPath.basename p ".md"; content := "";
       frontmatter := []; links := []; backlinks := []; tags := [];
       lastModified := 0; created := 0; wordCount := words |} in
  with_cache (new_client "/vault")
    [("a.md", note "a.md" 8%Z); ("b.md", note "b.md" 6%Z);
     ("c.md", note "c.md" 8%Z)].

End Mem.

(* ================================================================== *)
(** ** Predicates used in the statements and proofs *)
(* ================================================================== *)

(** No separator inside a segment. *)
Fixpoint sep_free (s : string) : Prop :=
  match s with
  | EmptyString => True
  | String c s' => c <> PosixPath.sep /\ sep_free s'
  end.

(** A segment that [normalizeString] keeps as it is. *)
Definition plain_segment (s : string) : Prop :=
  sep_free s /\ s <> "" /\ s <> "." /\ s <> "..".

(** Every cache entry is stored under its own path. *)
Definition keyed_by_path (cache : JsMap.t VaultNote) : Prop :=
  Forall (fun kv => path (snd kv) = fst kv) cache.

(** Value of a graph at a key, the empty set when the key is absent. *)
Definition set_at (g : JsMap.t JsSet.t) (k : string) : JsSet.t :=
  match JsMap.get g k with
  | Some s => s
  | None => []
  end.

(** The two graphs built over the key set [K]: both have exactly the keys
    of [K], and an edge is in one exactly when its mirror is in the other. *)
Definition mirrored (K : list string) (g : JsMap.t JsSet.t * JsMap.t JsSet.t)
  : Prop :=
  (forall k, JsMap.has (fst g) k = true <-> In k K)
  /\ (forall k, JsMap.has (snd g) k = true <-> In k K)
  /\ (forall A B, In B (set_at (fst g) A) <-> In A (set_at (snd g) B)).

Section Invariants.
Context {P : Platform}.

(** Forward links and backlinks agree, for every pair of paths. *)
Definition fully_symmetric (c : Client) : Prop :=
  forall A B, In B (getForwardLinks c A) <-> In A (getBacklinks c B).

(** Forward links and backlinks agree on the notes of the cache. *)
Definition symmetric_on_cache (c : Client) : Prop :=
  forall A B,
    JsMap.has (noteCache c) A = true -> JsMap.has (noteCache c) B = true ->
    (In B (getForwardLinks c A) <-> In A (getBacklinks c B)).

Definition keyed (c : Client) : Prop := keyed_by_path (noteCache c).

Definition consistent (c : Client) : Prop :=
  keyed c /\ symmetric_on_cache c.

(** [triple pre m post exc]: from a client satisfying [pre], the operation
    [m] leaves a client satisfying [post] when it returns and [exc] when
    it throws. *)
Definition triple {A : Type} (pre : Client -> Prop) (m : Op A)
  (post exc : Client -> Prop) : Prop :=
  forall w, pre (client w) ->
            match m w with
            | (w', Ok _) => post (client w')
            | (w', Err _) => exc (client w')
            end.

End Invariants.

(* ================================================================== *)
(** ** The server's concept extraction *)
(* ================================================================== *)

Module Text.

(** [s.split(/\s+/)]: the pieces between the maximal runs of white space
    (a run at either end leaves an empty piece there). *)
Fixpoint split_spaces_from (in_run : bool) (s : string) : list string :=
  match s with
  | EmptyString => [EmptyString]
  | String c s' =>
      if Scan.is_space c then
        (if in_run then split_spaces_from true s'
         else EmptyString :: split_spaces_from true s')
      else
        match split_spaces_from false s' with
        | h :: t => String c h :: t
        | [] => [String c EmptyString]
        end
  end.

Definition split_spaces (s : string) : list string :=
  split_spaces_from false s.

(** Members of the word class: letters, digits and the underscore. *)
Definition is_word_char (c : ascii) : bool :=
  let n := nat_of_ascii c in
  ((97 <=? n) && (n <=? 122) || (65 <=? n) && (n <=? 90)
   || (48 <=? n) && (n <=? 57) || (n =? 95))%nat.

(** Every character that is neither a word character nor white space is
    replaced by a space. *)
Fixpoint blank_non_word (s : string) : string :=
  match s with
  | EmptyString => EmptyString
  | String c s' =>
      String (if is_word_char c || Scan.is_space c then c else " "%char)
             (blank_non_word s')
  end.

End Text.

(** [EnhancedObsidianMCPServer.extractBasicConcepts]: the words of more
    than three characters with the number of their occurrences, most
    frequent first. *)
Definition extractBasicConcepts (text : string) (maxConcepts : Z)
  : list (string * Z) :=
  let words :=
    filter (fun word => (3 <? String.length word)%nat)
           (Text.split_spaces (Text.blank_non_word (toLowerCase text))) in
  let frequency :=
    fold_left
      (fun frequency word =>
         JsMap.set frequency word
           (match JsMap.get frequency word with
            | Some k => if (k =? 0)%Z then 0 else k
            | None => 0
            end + 1)%Z)
      words ([] : JsMap.t Z) in
  slice0 (sort (fun a b => (snd b - snd a)%Z) frequency) maxConcepts.

(* ================================================================== *)
(** ** The server's connection suggestions *)
(* ================================================================== *)

Section Suggestions.
Context {P : Platform}.

(** A suggestion; the score is the quotient of two lengths and is kept
    as numerator and denominator. *)
Record Suggestion := {
  s_note : string;
  s_reason : string;
  s_score : Z * Z
}.

(** The sign of [b.score - a.score], for positive denominators. *)
Definition by_score (a b : Suggestion) : Z :=
  (fst (s_score b) * snd (s_score a) - fst (s_score a) * snd (s_score b))%Z.

(** [EnhancedObsidianMCPServer.suggestBasicConnections]: the other notes
    that share a tag with the note, best score first. *)
Definition suggestBasicConnections (notePath : string) (maxSuggestions : Z)
  : Op (list Suggestion) :=
  bind (readNote notePath) (fun note =>
  bind this (fun c =>
    let allNotes := JsMap.values (noteCache c) in
    let suggestions :=
      flat_map
        (fun otherNote =>
           if path otherNote =? path note then []
           else
             let commonTags :=
               filter (fun tag => existsb (String.eqb tag) (tags otherNote))
                      (tags note) in
             if (0 <? List.length commonTags)%nat
             then [{| s_note := path otherNote;
                      s_reason := "Shares tags: " ++ join ", " commonTags;
                      s_score :=
                        (Z.of_nat (List.length commonTags),
                         Z.of_nat (Nat.max (List.length (tags note))
                                           (List.length (tags otherNote)))) |}]
             else [])
        allNotes in
    ret (slice0 (sort by_score suggestions) maxSuggestions))).

(** [a] scores at least as high as [b]. *)
Definition outscores (a b : Suggestion) : Prop :=
  (0 < snd (s_score a))%Z /\ (0 < snd (s_score b))%Z
  /\ (fst (s_score b) * snd (s_score a)
      <= fst (s_score a) * snd (s_score b))%Z.

End Suggestions.

(* ================================================================== *)
(** ** Everything that can happen to a client *)
(* ================================================================== *)

Section Actions.
Context {P : Platform}.

(** The calls of [Call], and besides them reads, searches and the events
    delivered by the file watcher. *)
Inductive Action :=
| ActCall (call : Call)
| ActRead (notePath : string)
| ActSearch (query : string) (options : option SearchOptions)
| ActWatch (filePath : string) (event : WatchEvent).

Definition act (w : World) (a : Action) : World :=
  match a with
  | ActCall call => perform w call
  | ActRead p => fst (readNote p w)
  | ActSearch q o => fst (searchNotes q o w)
  | ActWatch f e => fst (handleFileChange f e w)
  end.

Definition act_all (actions : list Action) (w : World) : World :=
  fold_left act actions w.

(** A cache entry whose derived fields are those of its path, body and
    front matter. *)
Definition derived (k : string) (n : VaultNote) : Prop :=
  path n = k
  /\ name n = PosixPath.basename k ".md"
  /\ links n = parseMarkdown (content n)
  /\ tags n = extractTags (content n) (frontmatter n)
  /\ wordCount n = Scan.split_spaces_length (content n).

Definition all_derived (c : Client) : Prop :=
  Forall (fun kv => derived (fst kv) (snd kv)) (noteCache c).

Definition distinct_keys (c : Client) : Prop :=
  NoDup (JsMap.keys (noteCache c)).

(** The graphs have the keys of the cache and mention cached notes
    only. *)
Definition graphs_closed (c : Client) : Prop :=
  keyed c
  /\ (forall k, JsMap.has (linkGraph c) k = JsMap.has (noteCache c) k)
  /\ (forall k, JsMap.has (backlinksGraph c) k = JsMap.has (noteCache c) k)
  /\ (forall A B, In B (set_at (linkGraph c) A) ->
                  JsMap.has (noteCache c) B = true)
  /\ (forall A B, In A (set_at (backlinksGraph c) B) ->
                  JsMap.has (noteCache c) A = true).

(** The configuration of [c] is that of [c0]. *)
Definition same_config (c0 c : Client) : Prop :=
  vaultPath c = vaultPath c0 /\ allowedDirectories c = allowedDirectories c0.

End Actions.


(* ================================================================== *)
(** ** More worlds on the in-memory platform *)
(* ================================================================== *)

Module Cases.

(** The entry of [b.md] among the two linked notes. *)
Definition b_note : VaultNote :=
  {| path := "b.md"; name := "b"; content := "see [[a]]"; frontmatter := [];
     links := ["a"]; backlinks := ["a.md"]; tags := [];
     lastModified := 2; created := 2; wordCount := 2 |}.

Definition two_linked_actions : list (Action (P := Mem.platform)) :=
  [ActCall (CallCreate "a.md" "see [[b]]" None);
   ActCall (CallCreate "b.md" "see [[a]]" None)].

(** A note in a sub-folder and a note that references it by its
    vault-relative path. *)
Definition nested : World (P := Mem.platform) :=
  perform_all (P := Mem.platform)
    [CallCreate "sub/a.md" "alpha" None;
     CallCreate "b.md" "see [[sub/a]]" None] Mem.start.

(** The two linked notes after [a.md] was deleted, and after it was
    updated. *)
Definition after_delete : World (P := Mem.platform) :=
  fst (deleteNote (P := Mem.platform) "a.md" Mem.two_linked).

Definition after_update : World (P := Mem.platform) * Result (option VaultNote) :=
  updateNote (P := Mem.platform) "a.md" (Some "new") None Mem.two_linked.

(** A vault with a hidden folder, a sub-folder and a file that is not a
    markdown file. *)
Definition mixed_disk : Mem.Disk :=
  [("/vault", Mem.Dir);
   ("/vault/a.md", Mem.File "alpha" 1);
   ("/vault/.obsidian", Mem.Dir);
   ("/vault/.obsidian/x.md", Mem.File "hidden" 1);
   ("/vault/sub", Mem.Dir);
   ("/vault/sub/b.md", Mem.File "see [[a]]" 2);
   ("/vault/sub/c.txt", Mem.File "text" 3)].


(** Three notes, two of which share a tag, and the suggestions for the
    first of them. *)
Definition shared_tags : World (P := Mem.platform) :=
  perform_all (P := Mem.platform)
    [CallCreate "x.md" "on #alpha and #beta" None;
     CallCreate "y.md" "on #beta" None;
     CallCreate "z.md" "on nothing" None] Mem.start.

Definition suggested
  : World (P := Mem.platform) * Result (list (Suggestion)) :=
  suggestBasicConnections (P := Mem.platform) "x.md" 5 shared_tags.

End Cases.


(* ================================================================== *)
(** ** The rebuild, in parts *)
(* ================================================================== *)

(** The three loops of [buildLinkGraphs] one by one, for the statements
    about its result. *)
Definition empty_graph (notes : list VaultNote) : JsMap.t JsSet.t :=
  fold_left (fun g note => JsMap.set g (path note) ([] : JsSet.t)) notes [].

Definition graphs_of (cache : JsMap.t VaultNote)
  : JsMap.t JsSet.t * JsMap.t JsSet.t :=
  let notes := JsMap.values cache in
  fold_left (fun g note => fold_left (add_link cache (path note)) (links note) g)
            notes (empty_graph notes, empty_graph notes).

Definition refresh (bg : JsMap.t JsSet.t) (note : VaultNote) : VaultNote :=
  match JsMap.get bg (path note) with
  | Some s => with_backlinks note s
  | None => note
  end.

(** One of [notes] has the path [A] and a reference that resolves to the
    note of path [B]. *)
Definition references (cache : JsMap.t VaultNote) (notes : list VaultNote)
  (A B : string) : Prop :=
  exists note link target,
    In note notes /\ path note = A /\ In link (links note)
    /\ resolveLink cache link = Some target /\ path target = B.

(** [A] has the reference [link], which resolves to the note of path
    [B]. *)
Definition reference_of (cache : JsMap.t VaultNote) (links_of_A : list string)
  (B : string) : Prop :=
  exists link target,
    In link links_of_A /\ resolveLink cache link = Some target
    /\ path target = B.


(* ================================================================== *)
(** ** Rankings and counts *)
(* ================================================================== *)

(** Ranked by [f], largest first. *)
Definition ranked {A : Type} (f : A -> Z) (l : list A) : Prop :=
  StronglySorted (fun a b => (f b <= f a)%Z) l.

(** Number of occurrences of [x] in [l]. *)
Definition occurrences (x : string) (l : list string) : Z :=
  Z.of_nat (count_occ string_dec l x).


(* ================================================================== *)
(** ** Shapes of extracted links and tags *)
(* ================================================================== *)

(** Every character of [s] satisfies [p]. *)
Fixpoint all_chars (p : ascii -> bool) (s : string) : Prop :=
  match s with
  | EmptyString => True
  | String c s' => p c = true /\ all_chars p s'
  end.

(** No opening bracket in [s]. *)
Fixpoint bracket_free (s : string) : Prop :=
  match s with
  | EmptyString => True
  | String c s' => c <> "["%char /\ bracket_free s'
  end.

(** An inline tag: a non-empty run of tag characters. *)
Definition tag_token (t : string) : Prop :=
  t <> "" /\ all_chars Scan.is_tag_char t.


(* ================================================================== *)
(** ** The directory walk *)
(* ================================================================== *)

Section Walk.
Context {P : Platform}.

(** The files a walk from [dir] comes across: the regular files named
    [*.md], reached through directories, with no name on the way that
    begins with a dot. *)
Inductive found_below (d : FS) : string -> string -> Prop :=
| found_here (dir : string) (entries : list Dirent) (entry : Dirent) :
    fs_readdir d dir = Some entries -> In entry entries ->
    startsWith (d_name entry) "." = false ->
    d_isDirectory entry = false -> d_isFile entry = true ->
    endsWith (d_name entry) ".md" = true ->
    found_below d dir (PosixPath.join_paths [dir; d_name entry])
| found_deeper (dir : string) (entries : list Dirent) (entry : Dirent)
    (f : string) :
    fs_readdir d dir = Some entries -> In entry entries ->
    startsWith (d_name entry) "." = false ->
    d_isDirectory entry = true ->
    found_below d (PosixPath.join_paths [dir; d_name entry]) f ->
    found_below d dir f.

(** One turn of the loop of [findMarkdownFiles], the walk of the
    subdirectories being [walk]. *)
Definition walk_step (walk : string -> option (Result (list string)))
  (dir : string) (acc : option (Result (list string))) (entry : Dirent)
  : option (Result (list string)) :=
  match acc with
  | Some (Ok files) =>
      let fullPath := PosixPath.join_paths [dir; d_name entry] in
      if startsWith (d_name entry) "." then acc
      else if d_isDirectory entry then
        match walk fullPath with
        | Some (Ok subFiles) => Some (Ok (files ++ subFiles)%list)
        | other => other
        end
      else if d_isFile entry && endsWith (d_name entry) ".md"
      then Some (Ok (files ++ [fullPath])%list)
      else acc
  | _ => acc
  end.

End Walk.


(* ================================================================== *)
(** ** The embedding on concrete inputs *)
(* ================================================================== *)

Example resolve_relative :
  PosixPath.resolve "/home/u" ["vault"; "notes/../a.md"] = "/home/u/vault/a.md".
Proof. reflexivity. Qed.

Example resolve_stops_at_absolute :
  PosixPath.resolve "/home/u" ["/vault"; "/etc//passwd/"] = "/etc/passwd".
Proof. reflexivity. Qed.

Example resolve_above_root :
  PosixPath.resolve "/" ["/vault"; "../../../etc"] = "/etc".
Proof. reflexivity. Qed.

Example normalize_keeps_trailing_separator :
  PosixPath.normalize "a/../../b/./c/" = "../b/c/".
Proof. reflexivity. Qed.

Example relative_below : PosixPath.relative "/" "/vault" "/vault/a/b.md" = "a/b.md".
Proof. reflexivity. Qed.

Example relative_sibling :
  PosixPath.relative "/" "/vault" "/vault-evil/x.md" = "../vault-evil/x.md".
Proof. reflexivity. Qed.

Example basename_strips_suffix :
  PosixPath.basename "notes/sub/a.md" ".md" = "a"
  /\ PosixPath.basename "note" ".md" = "note"
  /\ PosixPath.basename "notes/.md" ".md" = ".md".
Proof. repeat split. Qed.

Example dirname_examples :
  PosixPath.dirname "/vault/sub/a.md" = "/vault/sub"
  /\ PosixPath.dirname "/a" = "/" /\ PosixPath.dirname "a" = ".".
Proof. repeat split. Qed.

Example split_examples :
  split "/" "../../etc/passwd" = [".."; ".."; "etc"; "passwd"]
  /\ split "/" "" = [""] /\ split "/" "/a/" = [""; "a"; ""].
Proof. repeat split. Qed.

Example wiki_links :
  Scan.exec_all Scan.wikiLinkRegex 0
    "see [[A]], [[b|alias]], ![[img.png]], [[c|d] and [[|x]]"
  = ["A"; "b"; "img.png"].
Proof. reflexivity. Qed.

Example markdown_links :
  Scan.exec_all Scan.mdLinkRegex 0 "[t](a.md) [u](http://x) [v]() [w](z"
  = [("t", "a.md"); ("u", "http://x")].
Proof. reflexivity. Qed.

Example inline_tags :
  Scan.exec_all Scan.inlineTagRegex 0 "Hello #proj/alpha and #beta"
  = ["proj/alpha"; "beta"].
Proof. reflexivity. Qed.

Example word_counts :
  Scan.split_spaces_length "" = 1%Z
  /\ Scan.split_spaces_length " a  b " = 4%Z
  /\ Scan.split_spaces_length "one two three" = 3%Z.
Proof. repeat split. Qed.

Example set_of_list : JsSet.of_list ["a"; "b"; "a"; "c"; "b"] = ["a"; "b"; "c"].
Proof. reflexivity. Qed.

Example slice_examples :
  slice0 [1; 2; 3]%Z 2 = [1; 2]%Z /\ slice0 [1; 2; 3]%Z (-1) = [1; 2]%Z
  /\ slice0 [1; 2; 3]%Z 0 = [] /\ slice0 [1; 2; 3]%Z 7 = [1; 2; 3]%Z.
Proof. repeat split. Qed.

Example front_matter_round_trip :
  option_map (fun n => (content n, frontmatter n, tags n)) 
             (match snd Mem.tagged with Ok n => Some n | Err _ => None end)
  = Some ("Hello #proj/alpha and #beta" ++ Mem.nl,
          [("title", FmString "T"); ("tags", FmArray ["gamma"])],
          ["gamma"; "proj/alpha"; "beta"]).
Proof. reflexivity. Qed.

Example round_div_examples :
  round_div 22 3 = Some 7%Z /\ round_div 5 2 = Some 3%Z
  /\ round_div 0 0 = None.
Proof. repeat split. Qed.

(* ================================================================== *)
(** ** Strings and paths *)
(* ================================================================== *)

Section StringFacts.

Lemma append_empty_r (s : string) : s ++ "" = s.
Proof. induction s as [|c s IH]; simpl; [reflexivity | now rewrite IH]. Qed.

Lemma append_assoc (a b c : string) : (a ++ b) ++ c = a ++ (b ++ c).
Proof. induction a as [|x a IH]; simpl; [reflexivity | now rewrite IH]. Qed.

Lemma prefix_append (a b : string) : String.prefix a (a ++ b) = true.
Proof.
  induction a as [|x a IH]; simpl.
  - now destruct b.
  - destruct (ascii_dec x x) as [_|ne]; [exact IH | now elim ne].
Qed.

Lemma startsWith_append (a b : string) : startsWith (a ++ b) a = true.
Proof. apply prefix_append. Qed.

Lemma toLowerCase_append (a b : string) :
  toLowerCase (a ++ b) = toLowerCase a ++ toLowerCase b.
Proof. induction a as [|x a IH]; simpl; [reflexivity | now rewrite IH]. Qed.

Lemma split_not_nil (sep : ascii) (s : string) : split sep s <> [].
Proof.
  induction s as [|c s IH]; simpl; [discriminate |].
  destruct (Ascii.eqb c sep); [discriminate |].
  destruct (split sep s); [contradiction | discriminate].
Qed.

Lemma split_append_sep (sep : ascii) (a b : string) :
  split sep (a ++ String sep b) = (split sep a ++ split sep b)%list.
Proof.
  induction a as [|c a IH]; simpl.
  - now rewrite Ascii.eqb_refl.
  - destruct (Ascii.eqb c sep); [now rewrite IH |].
    rewrite IH. pose proof (split_not_nil sep a) as Hne.
    destruct (split sep a); [contradiction | reflexivity].
Qed.

Lemma split_leading_sep (sep : ascii) (s : string) :
  split sep (String sep s) = "" :: split sep s.
Proof. simpl. now rewrite Ascii.eqb_refl. Qed.

Lemma split_sep_free (s : string) : sep_free s -> split PosixPath.sep s = [s].
Proof.
  induction s as [|c s IH]; simpl; [reflexivity |].
  intros [Hc Hs]. apply Ascii.eqb_neq in Hc. rewrite Hc, (IH Hs). reflexivity.
Qed.

Lemma split_segments_sep_free (s : string) :
  Forall sep_free (split PosixPath.sep s).
Proof.
  induction s as [|c s IH]; simpl.
  - repeat constructor.
  - destruct (Ascii.eqb c PosixPath.sep) eqn:E.
    + constructor; [exact I | exact IH].
    + apply Ascii.eqb_neq in E.
      destruct (split PosixPath.sep s) as [|h t].
      * repeat constructor. exact E.
      * inversion IH; subst. constructor; [| assumption].
        simpl. split; assumption.
Qed.

Lemma join_cons (x : string) (l : list string) :
  l <> [] -> join "/" (x :: l) = x ++ "/" ++ join "/" l.
Proof. destruct l; [contradiction | reflexivity]. Qed.

Lemma join_app (l t : list string) :
  l <> [] -> t <> [] ->
  join "/" (l ++ t) = join "/" l ++ "/" ++ join "/" t.
Proof.
  induction l as [|x l IH]; [contradiction |].
  intros _ Ht. destruct l as [|y l].
  - simpl app. now rewrite join_cons.
  - change ((x :: y :: l) ++ t)%list with (x :: ((y :: l) ++ t))%list.
    rewrite join_cons by discriminate.
    rewrite IH by (discriminate || assumption).
    rewrite (join_cons x (y :: l)) by discriminate.
    now rewrite !append_assoc.
Qed.

Lemma split_join (l : list string) :
  Forall sep_free l -> l <> [] -> split PosixPath.sep (join "/" l) = l.
Proof.
  induction l as [|x l IH]; [contradiction |].
  intros Hall _. inversion Hall as [|? ? Hx Hl]; subst.
  destruct l as [|y l].
  - simpl. now apply split_sep_free.
  - rewrite join_cons by discriminate.
    change ("/" ++ join "/" (y :: l)) with (String PosixPath.sep (join "/" (y :: l))).
    rewrite split_append_sep, IH by (assumption || discriminate).
    now rewrite split_sep_free.
Qed.

Lemma join_plain_not_empty (l : list string) :
  Forall plain_segment l -> l <> [] -> join "/" l <> "".
Proof.
  destruct l as [|x l]; [contradiction |].
  intros Hall _. inversion Hall as [|? ? [_ [Hx _]] _]; subst.
  destruct l; simpl; [assumption |].
  destruct x; [contradiction | discriminate].
Qed.

End StringFacts.

Section PathFacts.

Import PosixPath.

Lemma push_plain (allow : bool) (stack : list string) (seg : string) :
  plain_segment seg -> push_segment allow stack seg = seg :: stack.
Proof.
  intros (_ & H1 & H2 & H3). unfold push_segment.
  apply String.eqb_neq in H1, H2, H3. now rewrite H1, H2, H3.
Qed.

Lemma push_keeps_plain (stack : list string) (seg : string) :
  sep_free seg -> Forall plain_segment stack ->
  Forall plain_segment (push_segment false stack seg).
Proof.
  intros Hseg Hst. unfold push_segment.
  destruct (String.eqb_spec seg ""); [assumption |].
  destruct (String.eqb_spec seg "."); [assumption |]. cbn [orb].
  destruct (String.eqb_spec seg "..").
  - destruct stack as [|top rest]; [constructor |].
    inversion Hst; subst. now destruct (top =? "..").
  - constructor; [| assumption]. repeat split; assumption.
Qed.

Lemma fold_push_keeps_plain (segs stack : list string) :
  Forall sep_free segs -> Forall plain_segment stack ->
  Forall plain_segment (fold_left (push_segment false) segs stack).
Proof.
  revert stack. induction segs as [|seg segs IH]; intros stack Hs Hst.
  - exact Hst.
  - inversion Hs; subst. simpl. apply IH; [assumption |].
    now apply push_keeps_plain.
Qed.

Lemma fold_push_plain (allow : bool) (segs stack : list string) :
  Forall plain_segment segs ->
  fold_left (push_segment allow) segs stack = (rev segs ++ stack)%list.
Proof.
  revert stack. induction segs as [|seg segs IH]; intros stack Hs.
  - reflexivity.
  - inversion Hs; subst. simpl. rewrite push_plain by assumption.
    rewrite IH by assumption. now rewrite <- app_assoc.
Qed.

(** Normalising an absolute path built from plain segments gives the
    segments back. *)
Lemma normalize_segments_plain (l : list string) :
  Forall plain_segment l ->
  normalize_segments false ("/" ++ join "/" l) = l.
Proof.
  intros Hl. unfold normalize_segments.
  change ("/" ++ join "/" l) with (String sep (join "/" l)).
  destruct l as [|x l'] eqn:El; [reflexivity |].
  rewrite <- El in *. assert (l <> []) as Hne by (subst; discriminate).
  rewrite split_leading_sep, split_join; [| | assumption].
  - cbn [fold_left]. change (push_segment false [] "") with (@nil string).
    rewrite fold_push_plain by assumption.
    now rewrite app_nil_r, rev_involutive.
  - eapply Forall_impl; [| exact Hl]. now intros a [Ha _].
Qed.

(** What [path.resolve] accumulates before normalising: a base followed
    by a separator and whatever was collected on the right. *)
Lemma resolve_acc_shape (cwd : string) (l : list string) :
  isAbsolute cwd = true ->
  exists base, forall acc, resolve_acc cwd l acc = (base ++ "/" ++ acc, true).
Proof.
  intros Hcwd. induction l as [|p rest [base IH]].
  - exists cwd. intros acc. simpl. now rewrite Hcwd.
  - simpl. destruct (p =? "").
    + exists base. exact IH.
    + destruct (isAbsolute p).
      * exists p. reflexivity.
      * exists (base ++ "/" ++ p). intros acc. rewrite IH.
        now rewrite !append_assoc.
Qed.

Lemma isAbsolute_rooted (x : string) : isAbsolute ("/" ++ x) = true.
Proof. now destruct x. Qed.

Lemma resolve_acc_relative (cwd p acc : string) (rest : list string) :
  (p =? "") = false -> isAbsolute p = false ->
  resolve_acc cwd (p :: rest) acc = resolve_acc cwd rest (p ++ "/" ++ acc).
Proof. intros H1 H2. simpl. now rewrite H1, H2. Qed.

End PathFacts.

Section ResolveFacts.

Import PosixPath.

Lemma plain_join_relative (T : list string) :
  Forall plain_segment T -> T <> [] ->
  (join "/" T =? "") = false /\ isAbsolute (join "/" T) = false.
Proof.
  intros HT Hne. destruct T as [|x T]; [contradiction |].
  inversion HT as [|? ? (Hfree & Hx & _) _]; subst.
  destruct x as [|c x]; [contradiction |]. destruct Hfree as [Hc _].
  assert (exists rest, join "/" (String c x :: T) = String c rest) as [rest ->].
  { destruct T; simpl; eauto. }
  split; [reflexivity |].
  unfold isAbsolute, startsWith. cbn [String.prefix].
  destruct (ascii_dec "/" c) as [e|_]; [| reflexivity].
  now elim Hc.
Qed.

(** The vault root resolves to a list of plain segments, and a relative
    path made of plain segments resolves to the same list extended. *)
Lemma resolve_under (cwd v : string) (T : list string) :
  isAbsolute cwd = true -> Forall plain_segment T -> T <> [] ->
  exists L, Forall plain_segment L
            /\ resolve cwd [v] = "/" ++ join "/" L
            /\ resolve cwd [v; join "/" T] = "/" ++ join "/" (L ++ T).
Proof.
  intros Hcwd HT Hne.
  destruct (resolve_acc_shape cwd [v] Hcwd) as [base Hbase].
  destruct (plain_join_relative T HT Hne) as [Hempty Hrel].
  set (S0 := fold_left (push_segment false) (split sep base) []).
  assert (Forall plain_segment S0) as HS0.
  { apply fold_push_keeps_plain; [apply split_segments_sep_free | constructor]. }
  exists (rev S0). split; [now apply Forall_rev |]. split.
  - unfold resolve. change (rev [v]) with [v]. rewrite Hbase.
    unfold normalizeString, normalize_segments. cbn [negb].
    change ("/" ++ "") with (String sep "").
    rewrite split_append_sep, fold_left_app. fold S0. reflexivity.
  - unfold resolve. change (rev [v; join "/" T]) with [join "/" T; v].
    rewrite resolve_acc_relative, Hbase by assumption.
    unfold normalizeString, normalize_segments. cbn [negb].
    change ("/" ++ join "/" T ++ "/" ++ "")
      with (String sep (join "/" T ++ String sep "")).
    rewrite !split_append_sep, !fold_left_app. fold S0.
    assert (Forall sep_free T) as HTfree.
    { eapply Forall_impl; [| exact HT]. now intros a [Ha _]. }
    rewrite (split_join T HTfree Hne), (fold_push_plain false T S0 HT).
    cbn [split fold_left]. change (push_segment false ?s "") with s.
    now rewrite rev_app_distr, rev_involutive.
Qed.

Lemma normalize_absolute_plain (L : list string) :
  Forall plain_segment L ->
  exists t, (t = "" \/ t = "/")
            /\ normalize ("/" ++ join "/" L)
               = if join "/" L =? "" then "/" else "/" ++ join "/" L ++ t.
Proof.
  intros HL. unfold normalize. cbv zeta.
  change ("/" ++ join "/" L =? "") with false.
  rewrite isAbsolute_rooted. cbn [negb].
  unfold normalizeString. rewrite (normalize_segments_plain L HL).
  destruct (join "/" L =? ""); [exists ""; auto |].
  destruct (endsWith ("/" ++ join "/" L) "/").
  - exists "/". auto.
  - exists "". split; [auto |]. now rewrite append_empty_r.
Qed.

(** The containment test passes for every path below the root. *)
Lemma containment_below_root (L T : list string) :
  Forall plain_segment L -> Forall plain_segment T -> T <> [] ->
  startsWith (toLowerCase (normalize ("/" ++ join "/" (L ++ T))))
             (toLowerCase (normalize ("/" ++ join "/" L))) = true.
Proof.
  intros HL HT Hne.
  assert (Forall plain_segment (L ++ T)) as HLT by (apply Forall_app; now split).
  destruct (normalize_absolute_plain L HL) as (tL & HtL & ->).
  destruct (normalize_absolute_plain (L ++ T) HLT) as (tA & _ & ->).
  assert ((join "/" (L ++ T) =? "") = false) as ->.
  { apply String.eqb_neq, join_plain_not_empty; [assumption |].
    destruct L; [assumption | discriminate]. }
  destruct L as [|x L'].
  - change (join "/" [] =? "") with true. cbv iota.
    change (toLowerCase ("/" ++ join "/" ([] ++ T) ++ tA))
      with ("/" ++ toLowerCase (join "/" ([] ++ T) ++ tA)).
    apply (startsWith_append "/").
  - assert ((join "/" (x :: L') =? "") = false) as ->.
    { apply String.eqb_neq, join_plain_not_empty; [assumption | discriminate]. }
    rewrite join_app by (assumption || discriminate).
    set (J := join "/" (x :: L')).
    assert (exists rest, "/" ++ (J ++ "/" ++ join "/" T) ++ tA
                         = ("/" ++ J ++ tL) ++ rest) as [rest ->].
    { destruct HtL as [-> | ->].
      - exists ("/" ++ join "/" T ++ tA).
        now rewrite append_empty_r, !append_assoc.
      - exists (join "/" T ++ tA). now rewrite !append_assoc. }
    rewrite toLowerCase_append. apply startsWith_append.
Qed.

End ResolveFacts.

(* ================================================================== *)
(** ** The path guard *)
(* ================================================================== *)

Section PathGuard.
Context {P : Platform}.

Import PosixPath.

Lemma hidden_segment_rejected (c : Client) (requestedPath : string) :
  existsb (fun part => startsWith part ".") (split sep requestedPath) = true ->
  validatePath c requestedPath = Err AccessDeniedHidden.
Proof. intros H. unfold validatePath. now rewrite H. Qed.

(** A relative path made of plain segments, none of them hidden and not
    home-relative, is accepted and resolves below the vault root. *)
Lemma plain_relative_accepted (vault : string) (T : list string) :
  isAbsolute process_cwd = true ->
  Forall plain_segment T -> T <> [] ->
  existsb (fun part => startsWith part ".") T = false ->
  expandHome (join "/" T) = join "/" T ->
  let c := new_client vault in
  let root := resolve process_cwd [vaultPath c] in
  validatePath c (join "/" T)
  = Ok ((if root =? "/" then "" else root) ++ "/" ++ join "/" T).
Proof.
  intros Hcwd HT Hne Hvisible Hhome c root.
  assert (Forall sep_free T) as HTfree.
  { eapply Forall_impl; [| exact HT]. now intros a [Ha _]. }
  destruct (plain_join_relative T HT Hne) as [_ Hrel].
  set (v := expandHome vault) in *.
  destruct (resolve_under process_cwd v T Hcwd HT Hne)
    as (L & HL & Hroot & Hreq).
  unfold validatePath.
  change (vaultPath c) with v in *.
  change (allowedDirectories c)
    with [normalizePath (resolve process_cwd [v])].
  rewrite (split_join T HTfree Hne), Hvisible, Hhome, Hrel, Hreq.
  cbn [existsb]. rewrite Hroot. unfold normalizePath.
  rewrite (containment_below_root L T HL HT Hne). cbn [orb negb].
  f_equal. unfold root. rewrite Hroot.
  destruct L as [|x L'].
  - reflexivity.
  - assert (("/" ++ join "/" (x :: L') =? "/") = false) as ->.
    { pose proof (join_plain_not_empty (x :: L') HL) as Hj.
      destruct (join "/" (x :: L')); [now elim Hj | reflexivity]. }
    rewrite join_app by (assumption || discriminate).
    now rewrite !append_assoc.
Qed.

(** What an accepted path is guaranteed to satisfy: its normalised form
    has one of the allowed directories as a string prefix. *)
Lemma validatePath_accepts_prefixed (c : Client) (requestedPath absolute : string) :
  validatePath c requestedPath = Ok absolute ->
  existsb (fun dir => startsWith (normalizePath absolute) dir)
          (allowedDirectories c) = true.
Proof.
  unfold validatePath.
  destruct (existsb _ (split sep requestedPath)); [discriminate |].
  match goal with
  | |- context [negb ?b] => destruct b eqn:E
  end; [| discriminate].
  now intros [= <-].
Qed.

(** C9: a requested path with a [".."] segment is rejected by the
    hidden-segment check with its access-denied error, for every client:
    the answer does not depend on the vault root, the home directory or
    the working directory, so it is given before any resolution. *)
Theorem dotdot_segment_rejected (c : Client) (requestedPath : string) :
  In ".." (split sep requestedPath) ->
  validatePath c requestedPath = Err AccessDeniedHidden
  /\ is_access_denied AccessDeniedHidden = true.
Proof.
  intros Hin. split; [| reflexivity].
  apply hidden_segment_rejected, existsb_exists.
  exists "..". split; [exact Hin | reflexivity].
Qed.

(** C7: ["../../etc/passwd"] and [".hidden.md"] are rejected with an
    access-denied error, and ["notes/sub/a.md"] is accepted and resolves
    to that path below the resolved vault root, for every vault. *)
Theorem path_guard_examples (vault : string) :
  isAbsolute process_cwd = true ->
  let c := new_client vault in
  let root := resolve process_cwd [vaultPath c] in
  validatePath c "../../etc/passwd" = Err AccessDeniedHidden
  /\ validatePath c ".hidden.md" = Err AccessDeniedHidden
  /\ is_access_denied AccessDeniedHidden = true
  /\ validatePath c "notes/sub/a.md"
     = Ok ((if root =? "/" then "" else root) ++ "/notes/sub/a.md").
Proof.
  intros Hcwd c root. repeat split.
  apply (plain_relative_accepted vault ["notes"; "sub"; "a.md"] Hcwd);
    try reflexivity; try discriminate.
  repeat constructor; unfold sep; discriminate.
Qed.

(** C1 (the code departs from the claim): with the vault at [/vault], the
    absolute path [/vault-evil/secret.md] of a sibling directory passes
    validation, because containment is a bare string prefix test. *)
Theorem sibling_directory_accepted :
  validatePath (new_client "/vault") "/vault-evil/secret.md"
  = Ok "/vault-evil/secret.md".
Proof. reflexivity. Qed.

End PathGuard.

(** Witness for C9: ["a/../b.md"] would resolve to [/vault/b.md]. *)
Lemma dotdot_segment_rejected_witness :
  PosixPath.resolve "/srv" ["/vault"; "a/../b.md"] = "/vault/b.md"
  /\ validatePath (P := Mem.platform) (client Mem.start) "a/../b.md"
     = Err AccessDeniedHidden.
Proof.
  split; [reflexivity |].
  apply (dotdot_segment_rejected (P := Mem.platform)
           (client Mem.start) "a/../b.md").
  simpl. tauto.
Defined.

(** Witness for C7 on the in-memory platform. *)
Lemma path_guard_examples_witness :
  validatePath (P := Mem.platform) (client Mem.start) "notes/sub/a.md"
  = Ok "/vault/notes/sub/a.md".
Proof.
  apply (path_guard_examples (P := Mem.platform) "/vault"). reflexivity.
Defined.

(* ================================================================== *)
(** ** Maps and sets *)
(* ================================================================== *)

Section MapFacts.
Context {V : Type}.
Implicit Types (m : JsMap.t V) (k : string).

Lemma get_set m k k' (v : V) :
  JsMap.get (JsMap.set m k v) k' = if k =? k' then Some v else JsMap.get m k'.
Proof.
  induction m as [|[k0 v0] m IH]; simpl.
  - destruct (k =? k'); reflexivity.
  - destruct (String.eqb_spec k0 k) as [-> | Hne]; simpl.
    + destruct (k =? k'); reflexivity.
    + rewrite IH. destruct (String.eqb_spec k0 k') as [-> | Hne'].
      * apply String.eqb_neq in Hne. rewrite String.eqb_sym in Hne.
        now rewrite Hne.
      * reflexivity.
Qed.

Lemma get_delete m k k' :
  JsMap.get (JsMap.delete m k) k' = if k =? k' then None else JsMap.get m k'.
Proof.
  induction m as [|[k0 v0] m IH]; simpl.
  - destruct (k =? k'); reflexivity.
  - destruct (String.eqb_spec k0 k) as [-> | Hne]; simpl.
    + rewrite IH. destruct (k =? k'); reflexivity.
    + rewrite IH. destruct (String.eqb_spec k0 k') as [-> | Hne'].
      * apply String.eqb_neq in Hne. rewrite String.eqb_sym in Hne.
        now rewrite Hne.
      * reflexivity.
Qed.

Lemma get_update m k k' (f : V -> V) :
  JsMap.get (JsMap.update m k f) k'
  = if k =? k' then option_map f (JsMap.get m k') else JsMap.get m k'.
Proof.
  induction m as [|[k0 v0] m IH]; simpl.
  - destruct (k =? k'); reflexivity.
  - destruct (String.eqb_spec k0 k) as [-> | Hne]; simpl.
    + destruct (k =? k'); reflexivity.
    + rewrite IH. destruct (String.eqb_spec k0 k') as [-> | Hne'].
      * apply String.eqb_neq in Hne. rewrite String.eqb_sym in Hne.
        now rewrite Hne.
      * reflexivity.
Qed.

Lemma get_update_all m k (f : V -> V) :
  JsMap.get (JsMap.update_all m f) k = option_map f (JsMap.get m k).
Proof.
  induction m as [|[k0 v0] m IH]; simpl; [reflexivity |].
  destruct (k0 =? k); [reflexivity | exact IH].
Qed.

Lemma get_Some_In m k (v : V) : JsMap.get m k = Some v -> In (k, v) m.
Proof.
  induction m as [|[k0 v0] m IH]; simpl; [discriminate |].
  destruct (String.eqb_spec k0 k) as [-> | Hne].
  - intros [= ->]. now left.
  - intros H. right. now apply IH.
Qed.

Lemma In_has m k (v : V) : In (k, v) m -> JsMap.has m k = true.
Proof.
  unfold JsMap.has. induction m as [|[k0 v0] m IH]; simpl; [contradiction |].
  intros [[= -> ->] | Hin].
  - now rewrite String.eqb_refl.
  - destruct (k0 =? k); [reflexivity | now apply IH].
Qed.

Lemma has_update m k k' (f : V -> V) :
  JsMap.has (JsMap.update m k f) k' = JsMap.has m k'.
Proof.
  unfold JsMap.has. rewrite get_update.
  destruct (k =? k'); [| reflexivity]. now destruct (JsMap.get m k').
Qed.

End MapFacts.

Section SetFacts.

Lemma set_has_In (s : JsSet.t) (x : string) : JsSet.has s x = true <-> In x s.
Proof.
  unfold JsSet.has. rewrite existsb_exists. split.
  - intros (y & Hy & E). apply String.eqb_eq in E. now subst.
  - intros H. exists x. split; [assumption | apply String.eqb_refl].
Qed.

Lemma In_add (s : JsSet.t) (x y : string) :
  In x (JsSet.add s y) <-> In x s \/ x = y.
Proof.
  unfold JsSet.add. destruct (JsSet.has s y) eqn:E.
  - apply set_has_In in E. split; [auto | intros [H | ->]; assumption].
  - rewrite in_app_iff. simpl. intuition congruence.
Qed.

Lemma In_delete (s : JsSet.t) (x y : string) :
  In x (JsSet.delete s y) <-> In x s /\ x <> y.
Proof.
  unfold JsSet.delete. rewrite filter_In, negb_true_iff, String.eqb_neq.
  reflexivity.
Qed.

Lemma set_at_update (g : JsMap.t JsSet.t) (k k' : string)
  (f : JsSet.t -> JsSet.t) :
  JsMap.has g k = true ->
  set_at (JsMap.update g k f) k'
  = if k =? k' then f (set_at g k') else set_at g k'.
Proof.
  unfold JsMap.has, set_at. rewrite get_update.
  destruct (String.eqb_spec k k') as [<- | _]; [| reflexivity].
  now destruct (JsMap.get g k).
Qed.

End SetFacts.

(* ================================================================== *)
(** ** The link graphs *)
(* ================================================================== *)

Section GraphFacts.
Context {P : Platform}.

Lemma resolveLink_In (cache : JsMap.t VaultNote) (link : string)
  (target : VaultNote) :
  resolveLink cache link = Some target -> In target (JsMap.values cache).
Proof.
  unfold resolveLink.
  destruct (find _ (JsMap.values cache)) as [n|] eqn:E.
  - intros [= <-]. now apply find_some in E.
  - intros H. now apply find_some in H.
Qed.

Lemma empty_graph_get (notes : list VaultNote) (g0 : JsMap.t JsSet.t)
  (k : string) :
  JsMap.get (fold_left (fun g note => JsMap.set g (path note) ([] : JsSet.t))
                       notes g0) k
  = if existsb (fun n => path n =? k) notes then Some [] else JsMap.get g0 k.
Proof.
  revert g0. induction notes as [|n notes IH]; intros g0; simpl.
  - reflexivity.
  - rewrite IH, get_set.
    destruct (existsb (fun n0 => path n0 =? k) notes); [now rewrite orb_true_r |].
    now rewrite orb_false_r.
Qed.

Lemma existsb_path (notes : list VaultNote) (k : string) :
  existsb (fun n => path n =? k) notes = true <-> In k (map path notes).
Proof.
  rewrite existsb_exists, in_map_iff. split.
  - intros (n & Hn & E). apply String.eqb_eq in E. eauto.
  - intros (n & E & Hn). exists n. split; [assumption |].
    now apply String.eqb_eq.
Qed.

Lemma mirrored_empty (notes : list VaultNote) :
  let empty := fold_left (fun g note => JsMap.set g (path note) ([] : JsSet.t))
                         notes [] in
  mirrored (map path notes) (empty, empty).
Proof.
  intros empty.
  assert (forall k, JsMap.has empty k = true <-> In k (map path notes)) as Hkeys.
  { intros k. unfold JsMap.has, empty. rewrite empty_graph_get.
    rewrite <- existsb_path.
    destruct (existsb _ notes); simpl; intuition discriminate. }
  assert (forall k, set_at empty k = []) as Hsets.
  { intros k. unfold set_at, empty. rewrite empty_graph_get.
    now destruct (existsb _ notes). }
  repeat split; try apply Hkeys; cbn [fst snd]; rewrite !Hsets; tauto.
Qed.

Lemma add_link_mirrored (cache : JsMap.t VaultNote) (K : list string)
  (source link : string) (g : JsMap.t JsSet.t * JsMap.t JsSet.t) :
  (forall n, In n (JsMap.values cache) -> In (path n) K) ->
  In source K -> mirrored K g -> mirrored K (add_link cache source g link).
Proof.
  intros Hcache Hsource Hg. unfold add_link.
  destruct (resolveLink cache link) as [target|] eqn:E; [| exact Hg].
  destruct Hg as (Hf & Hb & Hsym).
  apply resolveLink_In, Hcache in E.
  split; [| split]; cbn [fst snd].
  - intros k. rewrite has_update. apply Hf.
  - intros k. rewrite has_update. apply Hb.
  - intros A B. pose proof (Hsym A B) as HAB.
    rewrite !set_at_update by (apply Hf || apply Hb; assumption).
    destruct (String.eqb_spec source A) as [-> | HA];
      destruct (String.eqb_spec (path target) B) as [<- | HB];
      rewrite ?In_add; intuition congruence.
Qed.

Lemma fold_links_mirrored (cache : JsMap.t VaultNote) (K : list string)
  (source : string) (ls : list string)
  (g : JsMap.t JsSet.t * JsMap.t JsSet.t) :
  (forall n, In n (JsMap.values cache) -> In (path n) K) ->
  In source K -> mirrored K g ->
  mirrored K (fold_left (add_link cache source) ls g).
Proof.
  intros Hcache Hsource. revert g.
  induction ls as [|l ls IH]; intros g Hg; simpl; [assumption |].
  apply IH. now apply add_link_mirrored.
Qed.

Lemma fold_notes_mirrored (cache : JsMap.t VaultNote) (K : list string)
  (notes : list VaultNote) (g : JsMap.t JsSet.t * JsMap.t JsSet.t) :
  (forall n, In n (JsMap.values cache) -> In (path n) K) ->
  (forall n, In n notes -> In (path n) K) ->
  mirrored K g ->
  mirrored K (fold_left
                (fun g note =>
                   fold_left (add_link cache (path note)) (links note) g)
                notes g).
Proof.
  intros Hcache. revert g.
  induction notes as [|n notes IH]; intros g Hnotes Hg; simpl; [assumption |].
  apply IH.
  - intros n' Hn'. apply Hnotes. now right.
  - apply fold_links_mirrored; [assumption | | assumption].
    apply Hnotes. now left.
Qed.

Lemma keyed_update_all (cache : JsMap.t VaultNote)
  (f : VaultNote -> VaultNote) :
  (forall n, path (f n) = path n) ->
  keyed_by_path cache -> keyed_by_path (JsMap.update_all cache f).
Proof.
  intros Hf H. unfold keyed_by_path, JsMap.update_all in *.
  apply Forall_map. eapply Forall_impl; [| exact H].
  intros [k n] E. cbn [fst snd] in *. now rewrite Hf.
Qed.

Lemma keyed_set (cache : JsMap.t VaultNote) (k : string) (n : VaultNote) :
  path n = k -> keyed_by_path cache -> keyed_by_path (JsMap.set cache k n).
Proof.
  intros Hn H. unfold keyed_by_path in *.
  induction cache as [|[k0 n0] cache IH]; simpl.
  - now repeat constructor.
  - apply Forall_cons_iff in H. destruct H as [Hhd Htl].
    destruct (k0 =? k); constructor; auto.
Qed.

Lemma keyed_delete (cache : JsMap.t VaultNote) (k : string) :
  keyed_by_path cache -> keyed_by_path (JsMap.delete cache k).
Proof.
  intros H. unfold keyed_by_path in *.
  induction cache as [|[k0 n0] cache IH]; simpl; [constructor |].
  apply Forall_cons_iff in H. destruct H as [Hhd Htl].
  destruct (k0 =? k); [auto | constructor; auto].
Qed.

Lemma keyed_values (cache : JsMap.t VaultNote) (n : VaultNote) :
  keyed_by_path cache -> In n (JsMap.values cache) ->
  JsMap.has cache (path n) = true.
Proof.
  intros H Hin. unfold JsMap.values in Hin. apply in_map_iff in Hin.
  destruct Hin as ([k n'] & E & Hin). cbn [snd] in E. subst n'.
  unfold keyed_by_path in H. rewrite Forall_forall in H.
  pose proof (H _ Hin) as Hk. cbn [fst snd] in Hk. rewrite Hk.
  now apply In_has with (v := n).
Qed.

Lemma keyed_get (cache : JsMap.t VaultNote) (k : string) (n : VaultNote) :
  keyed_by_path cache -> JsMap.get cache k = Some n -> path n = k.
Proof.
  intros H E. apply get_Some_In in E.
  unfold keyed_by_path in H. rewrite Forall_forall in H. exact (H _ E).
Qed.

(** A rebuild leaves the two graphs in full agreement. *)
Lemma buildLinkGraphs_symmetric (c : Client) :
  keyed c -> keyed (buildLinkGraphs c) /\ fully_symmetric (buildLinkGraphs c).
Proof.
  intros Hkeyed. unfold keyed in *. unfold buildLinkGraphs.
  set (cache := noteCache c) in *.
  set (notes := JsMap.values cache).
  set (empty := fold_left (fun g note => JsMap.set g (path note) ([] : JsSet.t))
                         notes []).
  pose proof (fold_notes_mirrored cache (map path notes) notes (empty, empty))
    as Hm.
  destruct (fold_left _ notes (empty, empty)) as [lg bg].
  destruct Hm as (Hf & Hb & Hsym).
  { intros n Hn. now apply in_map. }
  { intros n Hn. now apply in_map. }
  { apply mirrored_empty. }
  cbn [fst snd] in *. split.
  - cbn [noteCache with_graphs]. apply keyed_update_all; [| assumption].
    intros n. now destruct (JsMap.get bg (path n)).
  - intros A B. unfold getBacklinks.
    change (getForwardLinks _ A) with (set_at lg A).
    cbn [noteCache with_graphs]. rewrite Hsym, get_update_all.
    destruct (JsMap.get cache B) as [n|] eqn:E; cbn [option_map].
    + rewrite (keyed_get cache B n Hkeyed E). unfold set_at.
      assert (JsMap.has bg B = true) as Hhas.
      { apply Hb. rewrite <- (keyed_get cache B n Hkeyed E).
        apply in_map. apply get_Some_In in E.
        unfold notes, JsMap.values. now apply (in_map snd) in E. }
      unfold JsMap.has in Hhas.
      destruct (JsMap.get bg B); [reflexivity | discriminate].
    + unfold set_at. destruct (JsMap.get bg B) as [s|] eqn:Eb; [| reflexivity].
      exfalso.
      assert (In B (map path notes)) as HB.
      { apply Hb. unfold JsMap.has. now rewrite Eb. }
      apply in_map_iff in HB. destruct HB as (n & <- & Hn).
      pose proof (keyed_values cache n Hkeyed Hn) as Hhas.
      unfold JsMap.has in Hhas. now rewrite E in Hhas.
Qed.

End GraphFacts.

(* ================================================================== *)
(** ** Reasoning about operations *)
(* ================================================================== *)

Section Triples.
Context {P : Platform}.

Lemma triple_ret {A : Type} (Q E : Client -> Prop) (a : A) :
  triple Q (ret a) Q E.
Proof. intros w H. exact H. Qed.

Lemma triple_throw {A : Type} (Q E : Client -> Prop) (e : Error) :
  triple E (throw (A := A) e) Q E.
Proof. intros w H. exact H. Qed.

Lemma triple_bind {A B : Type} (pre mid post exc : Client -> Prop)
  (m : Op A) (k : A -> Op B) :
  triple pre m mid exc -> (forall a, triple mid (k a) post exc) ->
  triple pre (bind m k) post exc.
Proof.
  intros Hm Hk w Hpre. unfold bind. specialize (Hm w Hpre).
  destruct (m w) as [w' [a | e]]; [now apply Hk | exact Hm].
Qed.

Lemma triple_try_catch {A : Type} (pre post mid exc : Client -> Prop)
  (m : Op A) (h : Error -> Op A) :
  triple pre m post mid -> (forall e, triple mid (h e) post exc) ->
  triple pre (try_catch m h) post exc.
Proof.
  intros Hm Hh w Hpre. unfold try_catch. specialize (Hm w Hpre).
  destruct (m w) as [w' [a | e]]; [exact Hm | now apply Hh].
Qed.

Lemma triple_this (Q E : Client -> Prop) : triple Q this Q E.
Proof. intros w H. exact H. Qed.

Lemma triple_of_result {A : Type} (Q : Client -> Prop) (r : Result A) :
  triple Q (of_result r) Q Q.
Proof. intros w H. unfold of_result. now destruct r. Qed.

Lemma triple_run (pre post exc : Client -> Prop) (f : World -> World) :
  (forall w, pre (client w) -> post (client (f w))) ->
  triple pre (run f) post exc.
Proof. intros Hf w H. now apply Hf. Qed.

Lemma triple_mutate (pre post exc : Client -> Prop) (f : Client -> Client) :
  (forall c, pre c -> post (f c)) -> triple pre (mutate f) post exc.
Proof. intros Hf w H. now apply Hf. Qed.

Lemma triple_logger (Q E : Client -> Prop) (lvl : LogLevel) (msg : string) :
  triple Q (logger lvl msg) Q E.
Proof. intros w H. exact H. Qed.

Lemma triple_fs_read {A : Type} (Q : Client -> Prop) (f : FS -> option A) :
  triple Q (fs_read f) Q Q.
Proof. intros w H. unfold fs_read. now destruct (f (disk w)). Qed.

Lemma triple_fs_write (Q : Client -> Prop) (f : FS -> option FS) :
  triple Q (fs_write f) Q Q.
Proof. intros w H. unfold fs_write. now destruct (f (disk w)). Qed.

(* ---------------------------------------------------------------- *)
(** *** What each mutation does to the invariants *)

Lemma updateCacheEntry_keyed (relativePath : string) (w : World) :
  keyed (client w) -> keyed (client (updateCacheEntry relativePath w)).
Proof.
  intros H. unfold updateCacheEntry.
  destruct (load_note _ _ relativePath) as [note|] eqn:E; [| exact H].
  unfold keyed. cbn [client set_client noteCache with_cache].
  apply keyed_set; [| exact H].
  unfold load_note in E.
  destruct (fs_stat _ _); [| discriminate].
  destruct (fs_readFile _ _); [| discriminate].
  destruct (matter _) as [[fm body]|]; [| discriminate].
  now injection E as <-.
Qed.

Lemma buildLinkGraphs_consistent (c : Client) :
  keyed c -> consistent (buildLinkGraphs c).
Proof.
  intros H. destruct (buildLinkGraphs_symmetric c H) as [Hk Hs].
  split; [exact Hk |]. intros A B _ _. apply Hs.
Qed.

Lemma rebuildSearchIndex_consistent (c : Client) :
  consistent c -> consistent (rebuildSearchIndex c).
Proof. intros H. exact H. Qed.

Lemma removeFromCache_consistent (relativePath : string) (c : Client) :
  consistent c -> consistent (removeFromCache relativePath c).
Proof.
  intros [Hk Hs]. split.
  - unfold keyed, removeFromCache. cbn [noteCache with_graphs].
    now apply keyed_delete.
  - intros A B HA HB. unfold removeFromCache in *.
    unfold JsMap.has in HA, HB. cbn [noteCache with_graphs] in HA, HB.
    rewrite get_delete in HA, HB.
    destruct (String.eqb_spec relativePath A) as [-> | HneA]; [discriminate |].
    destruct (String.eqb_spec relativePath B) as [-> | HneB]; [discriminate |].
    specialize (Hs A B HA HB).
    unfold getForwardLinks, getBacklinks in *.
    cbn [noteCache linkGraph with_graphs].
    rewrite get_update_all, !get_delete.
    apply String.eqb_neq in HneA, HneB. rewrite HneA, HneB.
    rewrite <- Hs. destruct (JsMap.get (linkGraph c) A) as [s|]; cbn [option_map].
    + rewrite In_delete. apply String.eqb_neq in HneB. intuition congruence.
    + reflexivity.
Qed.

(* ---------------------------------------------------------------- *)
(** *** The API keeps the cache consistent *)

Lemma createNote_consistent (notePath text : string)
  (fm : option Frontmatter) :
  triple consistent (createNote notePath text fm) consistent consistent.
Proof.
  unfold createNote.
  apply triple_bind with (mid := consistent); [apply triple_this | intros c].
  apply triple_bind with (mid := consistent);
    [apply triple_of_result | intros validPath]. cbv zeta.
  apply triple_bind with (mid := consistent);
    [apply triple_fs_write | intros _].
  apply triple_bind with (mid := consistent);
    [apply triple_fs_write | intros _].
  apply triple_bind with (mid := keyed).
  { apply triple_run. intros w [Hk _]. now apply updateCacheEntry_keyed. }
  intros _. apply triple_bind with (mid := consistent).
  { apply triple_mutate. apply buildLinkGraphs_consistent. }
  intros _. apply triple_bind with (mid := consistent).
  { apply triple_mutate. apply rebuildSearchIndex_consistent. }
  intros _. apply triple_bind with (mid := consistent);
    [apply triple_this | intros c'].
  destruct (JsMap.get (noteCache c') _); [| apply triple_throw].
  apply triple_bind with (mid := consistent);
    [apply triple_logger | intros _; apply triple_ret].
Qed.

Lemma updateNote_consistent (notePath : string) (text : option string)
  (fm : option Frontmatter) :
  triple consistent (updateNote notePath text fm) consistent consistent.
Proof.
  unfold updateNote.
  apply triple_bind with (mid := consistent); [apply triple_this | intros c].
  apply triple_bind with (mid := consistent);
    [apply triple_of_result | intros validPath]. cbv zeta.
  destruct (JsMap.get (noteCache c) _); [| apply triple_throw].
  apply triple_bind with (mid := consistent);
    [apply triple_fs_write | intros _].
  apply triple_bind with (mid := keyed).
  { apply triple_run. intros w [Hk _]. now apply updateCacheEntry_keyed. }
  intros _. apply triple_bind with (mid := consistent).
  { apply triple_mutate. apply buildLinkGraphs_consistent. }
  intros _. apply triple_bind with (mid := consistent).
  { apply triple_mutate. apply rebuildSearchIndex_consistent. }
  intros _. apply triple_bind with (mid := consistent);
    [apply triple_this | intros c'].
  apply triple_bind with (mid := consistent);
    [apply triple_logger | intros _; apply triple_ret].
Qed.

Lemma deleteNote_consistent (notePath : string) :
  triple consistent (deleteNote notePath) consistent consistent.
Proof.
  unfold deleteNote.
  apply triple_bind with (mid := consistent); [apply triple_this | intros c].
  apply triple_bind with (mid := consistent);
    [apply triple_of_result | intros validPath]. cbv zeta.
  destruct (negb _); [apply triple_throw |].
  apply triple_bind with (mid := consistent);
    [apply triple_fs_write | intros _].
  apply triple_bind with (mid := consistent).
  { apply triple_mutate. apply removeFromCache_consistent. }
  intros _. apply triple_bind with (mid := consistent).
  { apply triple_mutate. apply rebuildSearchIndex_consistent. }
  intros _. apply triple_logger.
Qed.

Lemma scanVault_keyed (files : list string) (w : World) :
  keyed (client w) ->
  keyed (client (fold_left
                   (fun w filePath =>
                      updateCacheEntry (relative_to_vault (client w) filePath) w)
                   files w)).
Proof.
  revert w. induction files as [|f files IH]; intros w H; simpl; [exact H |].
  apply IH. now apply updateCacheEntry_keyed.
Qed.

Lemma initializeVault_consistent (fuel : nat) (w w' : World)
  (r : Result unit) :
  consistent (client w) -> initializeVault fuel w = Some (w', r) ->
  consistent (client w').
Proof.
  intros H. unfold initializeVault.
  set (w1 := log LogInfo _ w).
  set (check := try_catch _ _).
  assert (triple consistent check consistent consistent) as Hcheck.
  { apply triple_try_catch with (mid := consistent).
    - apply triple_bind with (mid := consistent);
        [apply triple_fs_read | intros stats].
      destruct (negb _); [apply triple_throw | apply triple_ret].
    - intros e. apply triple_throw. }
  specialize (Hcheck w1 H).
  destruct (check w1) as [w2 [[] | e]].
  - destruct (findMarkdownFiles fuel (disk w2) _) as [[files | e] |];
      [| now intros [= <- _] | discriminate].
    set (rest := bind _ _).
    assert (triple consistent rest consistent consistent) as Hrest.
    { apply triple_bind with (mid := keyed).
      { apply triple_run. intros w0 [Hk _]. now apply scanVault_keyed. }
      intros _. apply triple_bind with (mid := consistent).
      { apply triple_mutate. apply buildLinkGraphs_consistent. }
      intros _. apply triple_bind with (mid := consistent).
      { apply triple_mutate. apply rebuildSearchIndex_consistent. }
      intros _. apply triple_bind with (mid := consistent);
        [apply triple_this | intros c'; apply triple_logger]. }
    specialize (Hrest w2 Hcheck). destruct (rest w2) as [w3 r3].
    intros [= <- <-]. now destruct r3.
  - now intros [= <- _].
Qed.

Lemma perform_consistent (w : World) (call : Call) :
  consistent (client w) -> consistent (client (perform w call)).
Proof.
  intros H. destruct call as [fuel | p t fm | p t fm | p | | d]; simpl.
  - destruct (initializeVault fuel w) as [[w' r]|] eqn:E; [| exact H].
    now apply (initializeVault_consistent fuel w w' r).
  - pose proof (createNote_consistent p t fm w H) as Hc.
    now destruct (createNote p t fm w) as [w' [n | e]].
  - pose proof (updateNote_consistent p t fm w H) as Hc.
    now destruct (updateNote p t fm w) as [w' [n | e]].
  - pose proof (deleteNote_consistent p w H) as Hc.
    now destruct (deleteNote p w) as [w' [n | e]].
  - apply buildLinkGraphs_consistent, H.
  - exact H.
Qed.

Lemma perform_all_consistent (calls : list Call) (w : World) :
  consistent (client w) -> consistent (client (perform_all calls w)).
Proof.
  revert w. induction calls as [|call calls IH]; intros w H; simpl.
  - exact H.
  - apply IH. now apply perform_consistent.
Qed.

Lemma new_world_consistent (vault : string) (d : FS) :
  consistent (client (new_world vault d)).
Proof.
  split.
  - constructor.
  - intros A B HA. discriminate.
Qed.

(** C2: after any sequence of [createNote], [updateNote] and [deleteNote]
    calls, vault initialisations, graph rebuilds and changes of the disk,
    for all notes [A] and [B] of the vault, [B] is a forward link of [A]
    exactly when [A] is a backlink of [B]; and a graph rebuild at that
    point leaves the two in agreement for every pair of paths. *)
Theorem graph_symmetry (vault : string) (d : FS) (calls : list Call) :
  let c := client (perform_all calls (new_world vault d)) in
  (forall A B,
      JsMap.has (noteCache c) A = true ->
      JsMap.has (noteCache c) B = true ->
      (In B (getForwardLinks c A) <-> In A (getBacklinks c B)))
  /\ (forall A B,
        In B (getForwardLinks (buildLinkGraphs c) A)
        <-> In A (getBacklinks (buildLinkGraphs c) B)).
Proof.
  intros c.
  destruct (perform_all_consistent calls (new_world vault d)
              (new_world_consistent vault d)) as [Hk Hs].
  split; [exact Hs |].
  now apply buildLinkGraphs_symmetric.
Qed.

End Triples.

(** Witness for C2: two notes referencing each other. *)
Lemma graph_symmetry_witness :
  In "b.md" (getForwardLinks (client Mem.two_linked) "a.md")
  <-> In "a.md" (getBacklinks (client Mem.two_linked) "b.md").
Proof.
  destruct (graph_symmetry (P := Mem.platform) "/vault" Mem.empty_vault
              [CallCreate "a.md" "see [[b]]" None;
               CallCreate "b.md" "see [[a]]" None]) as [Hs _].
  apply (Hs "a.md" "b.md"); reflexivity.
Defined.

(* ================================================================== *)
(** ** Search, statistics, initialisation *)
(* ================================================================== *)

Section Queries.
Context {P : Platform}.


Lemma fold_sum_words (notes : list VaultNote) (a : Z) :
  fold_left (fun sum note => (sum + wordCount note)%Z) notes a
  = (a + fold_right Z.add 0 (map wordCount notes))%Z.
Proof.
  revert a. induction notes as [|n notes IH]; intros a; simpl; [lia |].
  rewrite IH. lia.
Qed.

Lemma sum_permutation (l l' : list Z) :
  Permutation l l' -> fold_right Z.add 0%Z l = fold_right Z.add 0%Z l'.
Proof. induction 1; simpl; lia. Qed.

(** [round_div] rounds to the nearest integer, halves upwards. *)
Lemma round_div_nearest (a b q : Z) :
  (0 < b)%Z -> round_div a b = Some q ->
  (2 * a - b < 2 * q * b <= 2 * a + b)%Z.
Proof.
  intros Hb. unfold round_div.
  destruct (Z.eqb_spec b 0) as [-> | _]; [lia |]. intros E.
  assert (q = ((2 * a + b) / (2 * b))%Z) as Hq by congruence. clear E.
  pose proof (Z.div_mod (2 * a + b) (2 * b) ltac:(lia)) as Hdm.
  pose proof (Z.mod_pos_bound (2 * a + b) (2 * b) ltac:(lia)) as Hbound.
  rewrite <- Hq in Hdm. nia.
Qed.

(** C8: over a cache of exactly three notes whose word counts are 8, 8
    and 6 (in any order) the statistics report 22 words in total and an
    average of 7; in general the average is the quotient of the total by
    the number of notes, rounded to the nearest integer. *)
Theorem statistics_three_notes (c : Client) :
  Permutation (map wordCount (JsMap.values (noteCache c))) [8; 8; 6]%Z ->
  totalNotes (getVaultStatistics c) = 3%Z
  /\ totalWords (getVaultStatistics c) = 22%Z
  /\ averageWordsPerNote (getVaultStatistics c) = Some 7%Z
  /\ (forall c' q,
        averageWordsPerNote (getVaultStatistics c') = Some q ->
        let n := totalNotes (getVaultStatistics c') in
        let t := totalWords (getVaultStatistics c') in
        (2 * t - n < 2 * q * n <= 2 * t + n)%Z).
Proof.
  intros Hperm.
  assert (List.length (JsMap.values (noteCache c)) = 3%nat) as Hlen.
  { apply Permutation_length in Hperm. now rewrite length_map in Hperm. }
  assert (totalWords (getVaultStatistics c) = 22%Z) as Htotal.
  { cbn [getVaultStatistics totalWords].
    now rewrite fold_sum_words, (sum_permutation _ _ Hperm). }
  repeat split.
  - cbn [getVaultStatistics totalNotes]. now rewrite Hlen.
  - exact Htotal.
  - cbn [getVaultStatistics averageWordsPerNote totalWords] in *.
    now rewrite Htotal, Hlen.
  - cbn [getVaultStatistics averageWordsPerNote totalWords totalNotes] in *.
    apply round_div_nearest; [| assumption].
    destruct (JsMap.values (noteCache c')); [discriminate H | simpl; lia].
  - cbn [getVaultStatistics averageWordsPerNote totalWords totalNotes] in *.
    apply round_div_nearest; [| assumption].
    destruct (JsMap.values (noteCache c')); [discriminate H | simpl; lia].
Qed.

(** C5 (the code departs from the claim): when the vault path is not a
    directory, be it missing or a regular file, [initializeVault] throws
    one and the same error, "Cannot access vault directory"; the
    "not a directory" error thrown inside the [try] block is caught and
    replaced. *)
Theorem initializeVault_single_error (fuel : nat) (w : World) :
  (forall stats, fs_stat (disk w) (vaultPath (client w)) = Some stats ->
                 isDirectory stats = false) ->
  option_map snd (initializeVault fuel w)
  = Some (Err (VaultNotAccessible (vaultPath (client w)))).
Proof.
  intros Hroot. unfold initializeVault, try_catch, bind, fs_read, throw, ret.
  cbn [disk log client].
  destruct (fs_stat (disk w) (vaultPath (client w))) as [stats|] eqn:E.
  - now rewrite (Hroot stats eq_refl).
  - reflexivity.
Qed.

End Queries.

(** Witness for C8 on a cache holding the counts in the order 8, 6, 8. *)
Lemma statistics_three_notes_witness :
  totalWords (getVaultStatistics Mem.three_notes) = 22%Z
  /\ averageWordsPerNote (getVaultStatistics Mem.three_notes) = Some 7%Z.
Proof.
  destruct (statistics_three_notes Mem.three_notes) as (_ & Ht & Ha & _).
  - cbn. apply perm_skip, perm_swap.
  - split; assumption.
Defined.

(** Witness for C5: a vault path that is a regular file and one that does
    not exist give the same error. *)
Lemma initializeVault_single_error_witness :
  option_map snd (initializeVault (P := Mem.platform) 1 Mem.root_is_file)
  = Some (Err (VaultNotAccessible "/vault"))
  /\ option_map snd (initializeVault (P := Mem.platform) 1 Mem.root_missing)
     = Some (Err (VaultNotAccessible "/vault")).
Proof.
  split.
  - apply (initializeVault_single_error (P := Mem.platform) 1 Mem.root_is_file).
    intros stats [= <-]. reflexivity.
  - apply (initializeVault_single_error (P := Mem.platform) 1 Mem.root_missing).
    intros stats [=].
Defined.

(* ================================================================== *)
(** ** Extension handling, deletion and watcher events *)
(* ================================================================== *)

Section Watcher.
Context {P : Platform}.

(** An add or change event never touches the two graphs: the cache entry
    is replaced and the search index rebuilt, nothing else. *)
Lemma handleFileChange_keeps_graphs (filePath : string) (event : WatchEvent)
  (w : World) :
  event <> EvDelete ->
  let c' := client (fst (handleFileChange filePath event w)) in
  linkGraph c' = linkGraph (client w)
  /\ backlinksGraph c' = backlinksGraph (client w).
Proof.
  intros Hev. unfold handleFileChange.
  destruct (negb (endsWith filePath ".md")); [now split |].
  unfold try_catch, bind, this, run, mutate, updateCacheEntry.
  destruct event; [| | contradiction];
    cbn [fst client set_client];
    destruct (load_note _ _ _); now split.
Qed.

(** The callback never throws. *)
Lemma handleFileChange_returns (filePath : string) (event : WatchEvent)
  (w : World) :
  snd (handleFileChange filePath event w) = Ok tt.
Proof.
  unfold handleFileChange.
  destruct (negb (endsWith filePath ".md")); [reflexivity |].
  unfold try_catch, bind, this, run, mutate.
  now destruct event.
Qed.

End Watcher.

(** C3 (the code departs from the claim): [createNote("note", ...)] writes
    the file [/vault/note], without extension: the [.md] suffix is added
    to the parameter after the path was validated and the parameter is
    not read again.  The cache entry is keyed ["note"], and reading
    ["note.md"] fails with "Note not found". *)
Theorem createNote_extension_not_persisted :
  let '(w, created) :=
    createNote (P := Mem.platform) "note" "Content" None Mem.start in
  disk w = [("/vault", Mem.Dir); ("/vault/note", Mem.File "Content" 1)]
  /\ JsMap.keys (noteCache (client w)) = ["note"]
  /\ (exists n, created = Ok n /\ path n = "note"
                /\ snd (readNote "note" w) = Ok n)
  /\ snd (readNote "note.md" w) = Err (NoteNotFound "note.md").
Proof.
  vm_compute. repeat split. eexists. repeat split.
Qed.

(** C4 (the code departs from the claim): [a.md] and [b.md] reference each
    other and [a.md] is deleted.  The note leaves the cache and the
    forward links of [b.md], and the broken-link report lists ["b.md: a"];
    but [getBacklinks("b.md")] still answers [a.md], read from the
    [backlinks] array of the cached note, which the purge does not
    refresh. *)
Theorem deleteNote_leaves_stale_backlink :
  let '(w, deleted) := deleteNote (P := Mem.platform) "a.md" Mem.two_linked in
  let c := client w in
  deleted = Ok tt
  /\ getForwardLinks (client Mem.two_linked) "b.md" = ["a.md"]
  /\ JsMap.keys (noteCache c) = ["b.md"]
  /\ getForwardLinks c "b.md" = []
  /\ set_at (backlinksGraph c) "b.md" = []
  /\ brokenLinks (analyzeLinkNetwork c) = ["b.md: a"]
  /\ getBacklinks c "b.md" = ["a.md"].
Proof. vm_compute. repeat split. Qed.

(** C6 (the code departs from the claim): [a.md] is edited on disk to
    reference [b] and the watcher reports the change.  The callback
    returns normally and the cache entry holds the new reference, but the
    link graph is not rebuilt: the forward links of [a.md] are still
    empty, where a rebuild would give [b.md]. *)
Theorem handleFileChange_skips_graph_rebuild :
  let '(w, r) :=
    handleFileChange (P := Mem.platform) "/vault/a.md" EvChange
                     Mem.edited_on_disk in
  let c := client w in
  r = Ok tt
  /\ option_map links (JsMap.get (noteCache c) "a.md") = Some ["b"]
  /\ searchIndex c = Some (JsMap.values (noteCache c))
  /\ getForwardLinks c "a.md" = []
  /\ getBacklinks c "b.md" = []
  /\ getForwardLinks (buildLinkGraphs c) "a.md" = ["b.md"]
  /\ getBacklinks (buildLinkGraphs c) "b.md" = ["a.md"].
Proof. vm_compute. repeat split. Qed.

Section Purge.
Context {P : Platform}.

(** What the purge does reach: the cache entry and every set of the two
    graphs. *)
Lemma removeFromCache_purges (relativePath : string) (c : Client) :
  let c' := removeFromCache relativePath c in
  JsMap.get (noteCache c') relativePath = None
  /\ (forall k, ~ In relativePath (getForwardLinks c' k))
  /\ (forall k, ~ In relativePath (set_at (backlinksGraph c') k)).
Proof.
  cbn zeta. unfold removeFromCache, getForwardLinks, set_at.
  cbn [noteCache linkGraph backlinksGraph with_graphs].
  split; [| split].
  - rewrite get_delete. now rewrite String.eqb_refl.
  - intros k. rewrite get_update_all.
    destruct (JsMap.get (JsMap.delete (linkGraph c) relativePath) k);
      cbn [option_map]; [| tauto].
    rewrite In_delete. tauto.
  - intros k. rewrite get_update_all.
    destruct (JsMap.get (JsMap.delete (backlinksGraph c) relativePath) k);
      cbn [option_map]; [| tauto].
    rewrite In_delete. tauto.
Qed.

(** What it does not reach: the [backlinks] arrays of the other cached
    notes, which are what [getBacklinks] answers from. *)
Lemma removeFromCache_keeps_backlinks (relativePath other : string)
  (c : Client) :
  other <> relativePath ->
  getBacklinks (removeFromCache relativePath c) other = getBacklinks c other.
Proof.
  intros Hne. unfold getBacklinks, removeFromCache.
  cbn [noteCache with_graphs]. rewrite get_delete.
  destruct (String.eqb_spec relativePath other) as [-> | _];
    [now elim Hne | reflexivity].
Qed.

Lemma deleteNote_keeps_backlinks (notePath other : string) (w : World) :
  let c := client w in
  match validatePath c notePath with
  | Ok validPath =>
      other <> relative_to_vault c validPath ->
      getBacklinks (client (fst (deleteNote notePath w))) other
      = getBacklinks c other
  | Err _ => True
  end.
Proof.
  cbn zeta. destruct (validatePath (client w) notePath) as [validPath|e] eqn:E;
    [| exact I].
  intros Hne. unfold deleteNote, bind, this, of_result, throw, fs_write,
    mutate, run, logger.
  rewrite E.
  destruct (negb _); [reflexivity |].
  destruct (fs_remove (disk w) validPath); [| reflexivity].
  cbn [fst client set_client set_disk log].
  now apply removeFromCache_keeps_backlinks.
Qed.

(** On every platform, a note created as ["note"] in the vault [/vault] is
    cached under the path ["note"], whatever was written to the disk. *)
Lemma createNote_keeps_given_name (text : string) (fm : option Frontmatter)
  (w w' : World) (n : VaultNote) :
  client w = new_client "/vault" ->
  createNote "note" text fm w = (w', Ok n) ->
  JsMap.get (noteCache (client w')) "note" = Some n.
Proof.
  intros Hc. unfold createNote, bind, this, of_result, throw, fs_write,
    mutate, run, logger, ret.
  rewrite Hc.
  change (validatePath (new_client "/vault") "note") with (Ok "/vault/note").
  cbv iota zeta.
  change (relative_to_vault (new_client "/vault") "/vault/note") with "note".
  destruct (fs_ensureDir (disk w) _); [| discriminate].
  cbn [disk set_disk].
  destruct (fs_writeFile _ _ _); [| discriminate].
  match goal with
  | |- context [JsMap.get ?m "note"] => destruct (JsMap.get m "note") eqn:E
  end; [| discriminate].
  intros [= <- <-]. cbn [client log]. exact E.
Qed.

(** Every reference of a cached note that does not resolve is listed in
    the broken-link report, as ["<path>: <reference>"]. *)
Lemma brokenLinks_lists_unresolved (c : Client) (note : VaultNote)
  (link : string) :
  In note (JsMap.values (noteCache c)) -> In link (links note) ->
  resolveLink (noteCache c) link = None ->
  In (path note ++ ": " ++ link) (brokenLinks (analyzeLinkNetwork c)).
Proof.
  intros Hnote Hlink Hnone. cbn [analyzeLinkNetwork brokenLinks].
  apply in_flat_map. exists note. split; [exact Hnote |].
  apply (in_map (fun l => path note ++ ": " ++ l)), filter_In.
  split; [exact Hlink |]. now rewrite Hnone.
Qed.

End Purge.

(* ================================================================== *)
(** ** Error paths of the public API *)
(* ================================================================== *)

Section ErrorPaths.
Context {P : Platform}.

(** Every operation that takes a path validates it first: when the path
    guard rejects the path, the operation throws the guard's error and
    leaves the disk, the client and the log as they were. *)
Theorem rejected_path_touches_nothing (w : World) (notePath : string)
  (e : Error) :
  validatePath (client w) notePath = Err e ->
  (forall text fm, createNote notePath text fm w = (w, Err e))
  /\ (forall text fm, updateNote notePath text fm w = (w, Err e))
  /\ deleteNote notePath w = (w, Err e)
  /\ readNote notePath w = (w, Err e).
Proof.
  intros H. unfold createNote, updateNote, deleteNote, readNote, bind, this,
    of_result. rewrite H. repeat split.
Qed.

(** Updating or deleting a note that is not in the cache throws
    "Note not found" with the vault-relative path, without writing or
    removing anything. *)
Theorem missing_note_touches_nothing (w : World) (notePath validPath : string) :
  validatePath (client w) notePath = Ok validPath ->
  JsMap.get (noteCache (client w)) (relative_to_vault (client w) validPath)
  = None ->
  let e := NoteNotFound (relative_to_vault (client w) validPath) in
  (forall text fm, updateNote notePath text fm w = (w, Err e))
  /\ deleteNote notePath w = (w, Err e).
Proof.
  intros Hv Hget e.
  unfold updateNote, deleteNote, bind, this, of_result, throw, JsMap.has.
  rewrite Hv. cbv zeta. rewrite Hget. split; reflexivity.
Qed.

(** Reading a note that is neither cached nor on disk throws
    "Note not found" and changes nothing. *)
Theorem readNote_missing (w : World) (notePath validPath : string) :
  validatePath (client w) notePath = Ok validPath ->
  JsMap.get (noteCache (client w)) (relative_to_vault (client w) validPath)
  = None ->
  fs_pathExists (disk w) validPath = false ->
  readNote notePath w
  = (w, Err (NoteNotFound (relative_to_vault (client w) validPath))).
Proof.
  intros Hv Hget Hex.
  unfold readNote, bind, this, of_result, throw, ret.
  rewrite Hv. cbv zeta. rewrite Hget, Hex. reflexivity.
Qed.

End ErrorPaths.

(** Witness: a hidden file name on the in-memory platform. *)
Lemma rejected_path_touches_nothing_witness :
  deleteNote (P := Mem.platform) ".hidden.md" Mem.two_linked
  = (Mem.two_linked, Err AccessDeniedHidden).
Proof.
  apply (rejected_path_touches_nothing (P := Mem.platform)
           Mem.two_linked ".hidden.md" AccessDeniedHidden).
  reflexivity.
Defined.

(** Witness: [c.md] was never created. *)
Lemma missing_note_touches_nothing_witness :
  deleteNote (P := Mem.platform) "c.md" Mem.two_linked
  = (Mem.two_linked, Err (NoteNotFound "c.md")).
Proof.
  apply (missing_note_touches_nothing (P := Mem.platform)
           Mem.two_linked "c.md" "/vault/c.md"); reflexivity.
Defined.

Lemma readNote_missing_witness :
  readNote (P := Mem.platform) "c.md" Mem.two_linked
  = (Mem.two_linked, Err (NoteNotFound "c.md")).
Proof.
  apply (readNote_missing (P := Mem.platform)
           Mem.two_linked "c.md" "/vault/c.md"); reflexivity.
Defined.

(* ================================================================== *)
(** ** Invariants of call and action sequences, in general *)
(* ================================================================== *)

(** [strong] is what a graph rebuild establishes from [weak], and [weak]
    is what an upsert of the cache keeps. *)
Section TwoLevels.
Context {P : Platform}.
Variables strong weak : Client -> Prop.
Hypothesis strong_weak : forall c, strong c -> weak c.
Hypothesis upsert_weak :
  forall r w, weak (client w) -> weak (client (updateCacheEntry r w)).
Hypothesis rebuild_strong : forall c, weak c -> strong (buildLinkGraphs c).
Hypothesis index_strong : forall c, strong c -> strong (rebuildSearchIndex c).
Hypothesis purge_strong : forall r c, strong c -> strong (removeFromCache r c).

Lemma upsert_rebuild_strong {A : Type} (r : string) (k : Op A) :
  triple strong k strong strong ->
  triple strong (bind (run (updateCacheEntry r))
                   (fun _ => bind (mutate buildLinkGraphs)
                     (fun _ => bind (mutate rebuildSearchIndex)
                       (fun _ => k))))
         strong strong.
Proof.
  intros Hk. apply triple_bind with (mid := weak).
  { apply triple_run. intros w H. now apply upsert_weak, strong_weak. }
  intros _. apply triple_bind with (mid := strong).
  { apply triple_mutate. exact rebuild_strong. }
  intros _. apply triple_bind with (mid := strong).
  { apply triple_mutate. exact index_strong. }
  intros _. exact Hk.
Qed.

Lemma createNote_strong (notePath text : string) (fm : option Frontmatter) :
  triple strong (createNote notePath text fm) strong strong.
Proof.
  unfold createNote.
  apply triple_bind with (mid := strong); [apply triple_this | intros c].
  apply triple_bind with (mid := strong);
    [apply triple_of_result | intros validPath]. cbv zeta.
  apply triple_bind with (mid := strong); [apply triple_fs_write | intros _].
  apply triple_bind with (mid := strong); [apply triple_fs_write | intros _].
  apply upsert_rebuild_strong.
  apply triple_bind with (mid := strong); [apply triple_this | intros c'].
  destruct (JsMap.get (noteCache c') _); [| apply triple_throw].
  apply triple_bind with (mid := strong);
    [apply triple_logger | intros _; apply triple_ret].
Qed.

Lemma updateNote_strong (notePath : string) (text : option string)
  (fm : option Frontmatter) :
  triple strong (updateNote notePath text fm) strong strong.
Proof.
  unfold updateNote.
  apply triple_bind with (mid := strong); [apply triple_this | intros c].
  apply triple_bind with (mid := strong);
    [apply triple_of_result | intros validPath]. cbv zeta.
  destruct (JsMap.get (noteCache c) _); [| apply triple_throw].
  apply triple_bind with (mid := strong); [apply triple_fs_write | intros _].
  apply upsert_rebuild_strong.
  apply triple_bind with (mid := strong); [apply triple_this | intros c'].
  apply triple_bind with (mid := strong);
    [apply triple_logger | intros _; apply triple_ret].
Qed.

Lemma deleteNote_strong (notePath : string) :
  triple strong (deleteNote notePath) strong strong.
Proof.
  unfold deleteNote.
  apply triple_bind with (mid := strong); [apply triple_this | intros c].
  apply triple_bind with (mid := strong);
    [apply triple_of_result | intros validPath]. cbv zeta.
  destruct (negb _); [apply triple_throw |].
  apply triple_bind with (mid := strong); [apply triple_fs_write | intros _].
  apply triple_bind with (mid := strong).
  { apply triple_mutate. intros c0. apply purge_strong. }
  intros _. apply triple_bind with (mid := strong).
  { apply triple_mutate. exact index_strong. }
  intros _. apply triple_logger.
Qed.

Lemma scanVault_weak (files : list string) (w : World) :
  weak (client w) ->
  weak (client (fold_left
                  (fun w filePath =>
                     updateCacheEntry (relative_to_vault (client w) filePath) w)
                  files w)).
Proof.
  revert w. induction files as [|f files IH]; intros w H; simpl; [exact H |].
  apply IH. now apply upsert_weak.
Qed.

Lemma initializeVault_strong (fuel : nat) (w w' : World) (r : Result unit) :
  strong (client w) -> initializeVault fuel w = Some (w', r) ->
  strong (client w').
Proof.
  intros H. unfold initializeVault.
  set (w1 := log LogInfo _ w).
  set (check := try_catch _ _).
  assert (triple strong check strong strong) as Hcheck.
  { apply triple_try_catch with (mid := strong).
    - apply triple_bind with (mid := strong);
        [apply triple_fs_read | intros stats].
      destruct (negb _); [apply triple_throw | apply triple_ret].
    - intros e. apply triple_throw. }
  specialize (Hcheck w1 H).
  destruct (check w1) as [w2 [[] | e]].
  - destruct (findMarkdownFiles fuel (disk w2) _) as [[files | e] |];
      [| now intros [= <- _] | discriminate].
    set (rest := bind _ _).
    assert (triple strong rest strong strong) as Hrest.
    { apply triple_bind with (mid := weak).
      { apply triple_run. intros w0 H0. now apply scanVault_weak, strong_weak. }
      intros _. apply triple_bind with (mid := strong).
      { apply triple_mutate. exact rebuild_strong. }
      intros _. apply triple_bind with (mid := strong).
      { apply triple_mutate. exact index_strong. }
      intros _. apply triple_bind with (mid := strong);
        [apply triple_this | intros c'; apply triple_logger]. }
    specialize (Hrest w2 Hcheck). destruct (rest w2) as [w3 r3].
    intros [= <- <-]. now destruct r3.
  - now intros [= <- _].
Qed.

Lemma perform_strong (w : World) (call : Call) :
  strong (client w) -> strong (client (perform w call)).
Proof.
  intros H. destruct call as [fuel | p t fm | p t fm | p | | d]; simpl.
  - destruct (initializeVault fuel w) as [[w' r]|] eqn:E; [| exact H].
    now apply (initializeVault_strong fuel w w' r).
  - pose proof (createNote_strong p t fm w H) as Hc.
    now destruct (createNote p t fm w) as [w' [n | e]].
  - pose proof (updateNote_strong p t fm w H) as Hc.
    now destruct (updateNote p t fm w) as [w' [n | e]].
  - pose proof (deleteNote_strong p w H) as Hc.
    now destruct (deleteNote p w) as [w' [n | e]].
  - apply rebuild_strong, strong_weak, H.
  - exact H.
Qed.

Lemma perform_all_strong (calls : list Call) (w : World) :
  strong (client w) -> strong (client (perform_all calls w)).
Proof.
  revert w. induction calls as [|call calls IH]; intros w H; simpl.
  - exact H.
  - apply IH. now apply perform_strong.
Qed.

End TwoLevels.

(** An invariant kept by every mutation is kept by every action, the
    watcher's events included. *)
Section OneLevel.
Context {P : Platform}.
Variable inv : Client -> Prop.
Hypothesis upsert_inv :
  forall r w, inv (client w) -> inv (client (updateCacheEntry r w)).
Hypothesis rebuild_inv : forall c, inv c -> inv (buildLinkGraphs c).
Hypothesis index_inv : forall c, inv c -> inv (rebuildSearchIndex c).
Hypothesis purge_inv : forall r c, inv c -> inv (removeFromCache r c).

Lemma readNote_inv (notePath : string) :
  triple inv (readNote notePath) inv inv.
Proof.
  unfold readNote.
  apply triple_bind with (mid := inv); [apply triple_this | intros c].
  apply triple_bind with (mid := inv);
    [apply triple_of_result | intros validPath]. cbv zeta.
  apply triple_bind with (mid := inv).
  - destruct (JsMap.get (noteCache c) _); [apply triple_ret |].
    apply triple_bind with (mid := inv).
    { intros w H. exact H. }
    intros [|]; [| apply triple_ret].
    apply triple_bind with (mid := inv).
    { apply triple_run. intros w H. now apply upsert_inv. }
    intros _. apply triple_bind with (mid := inv);
      [apply triple_this | intros c'; apply triple_ret].
  - intros [n|]; [apply triple_ret | apply triple_throw].
Qed.

Lemma searchNotes_inv (query : string) (options : option SearchOptions) :
  triple inv (searchNotes query options) inv inv.
Proof.
  unfold searchNotes.
  apply triple_bind with (mid := inv); [apply triple_this | intros c0].
  apply triple_bind with (mid := inv).
  { destruct (searchIndex c0); [apply triple_ret |].
    apply triple_mutate. exact index_inv. }
  intros _. apply triple_bind with (mid := inv);
    [apply triple_this | intros c; apply triple_ret].
Qed.

Lemma handleFileChange_inv (filePath : string) (event : WatchEvent) :
  triple inv (handleFileChange filePath event) inv inv.
Proof.
  unfold handleFileChange.
  destruct (negb _); [apply triple_ret |].
  apply triple_try_catch with (mid := inv); [| intros e; apply triple_logger].
  apply triple_bind with (mid := inv); [apply triple_this | intros c].
  apply triple_bind with (mid := inv).
  { destruct event.
    - apply triple_run. intros w H. now apply upsert_inv.
    - apply triple_run. intros w H. now apply upsert_inv.
    - apply triple_mutate. intros c0. apply purge_inv. }
  intros _. apply triple_mutate. exact index_inv.
Qed.

Lemma act_inv (w : World) (a : Action) :
  inv (client w) -> inv (client (act w a)).
Proof.
  intros H. destruct a as [call | p | q o | f e]; simpl.
  - apply (perform_strong inv inv); auto.
  - pose proof (readNote_inv p w H) as Hc.
    now destruct (readNote p w) as [w' [n | e]].
  - pose proof (searchNotes_inv q o w H) as Hc.
    now destruct (searchNotes q o w) as [w' [n | e]].
  - pose proof (handleFileChange_inv f e w H) as Hc.
    now destruct (handleFileChange f e w) as [w' [n | e']].
Qed.

Lemma act_all_inv (actions : list Action) (w : World) :
  inv (client w) -> inv (client (act_all actions w)).
Proof.
  revert w. induction actions as [|a actions IH]; intros w H; simpl.
  - exact H.
  - apply IH. now apply act_inv.
Qed.

End OneLevel.

(* ================================================================== *)
(** ** What every action keeps *)
(* ================================================================== *)

Section CacheShape.
Context {V : Type}.
Implicit Types (m : JsMap.t V) (k : string).

Lemma has_In_keys m k : JsMap.has m k = true <-> In k (JsMap.keys m).
Proof.
  unfold JsMap.has, JsMap.keys.
  induction m as [|[k0 v0] m IH]; simpl; [intuition discriminate |].
  destruct (String.eqb_spec k0 k) as [-> | Hne]; [intuition |].
  rewrite IH. intuition congruence.
Qed.

Lemma keys_set m k (v : V) :
  JsMap.keys (JsMap.set m k v)
  = if JsMap.has m k then JsMap.keys m else (JsMap.keys m ++ [k])%list.
Proof.
  unfold JsMap.has, JsMap.keys.
  induction m as [|[k0 v0] m IH]; simpl; [reflexivity |].
  destruct (String.eqb_spec k0 k) as [-> | Hne]; simpl; [reflexivity |].
  rewrite IH. now destruct (JsMap.get m k).
Qed.

Lemma keys_delete m k :
  JsMap.keys (JsMap.delete m k)
  = filter (fun k' => negb (k' =? k)) (JsMap.keys m).
Proof.
  unfold JsMap.keys.
  induction m as [|[k0 v0] m IH]; simpl; [reflexivity |].
  destruct (k0 =? k); simpl; [exact IH | now rewrite IH].
Qed.

Lemma keys_update_all m (f : V -> V) :
  JsMap.keys (JsMap.update_all m f) = JsMap.keys m.
Proof.
  unfold JsMap.keys, JsMap.update_all. rewrite map_map. reflexivity.
Qed.

Lemma NoDup_keys_set m k (v : V) :
  NoDup (JsMap.keys m) -> NoDup (JsMap.keys (JsMap.set m k v)).
Proof.
  intros H. rewrite keys_set. destruct (JsMap.has m k) eqn:E; [exact H |].
  apply NoDup_app; [exact H | repeat constructor; intros [] | ].
  intros x Hx [<- | []]. apply has_In_keys in Hx. congruence.
Qed.

Lemma NoDup_keys_delete m k :
  NoDup (JsMap.keys m) -> NoDup (JsMap.keys (JsMap.delete m k)).
Proof. intros H. rewrite keys_delete. now apply NoDup_filter. Qed.

Lemma Forall_set (Q : string * V -> Prop) m k (v : V) :
  Q (k, v) -> Forall Q m -> Forall Q (JsMap.set m k v).
Proof.
  intros Hv H. induction m as [|[k0 v0] m IH]; simpl.
  - now repeat constructor.
  - apply Forall_cons_iff in H. destruct H as [Hhd Htl].
    destruct (k0 =? k); constructor; auto.
Qed.

Lemma Forall_delete (Q : string * V -> Prop) m k :
  Forall Q m -> Forall Q (JsMap.delete m k).
Proof.
  intros H. induction m as [|[k0 v0] m IH]; simpl; [constructor |].
  apply Forall_cons_iff in H. destruct H as [Hhd Htl].
  destruct (k0 =? k); [auto | constructor; auto].
Qed.

End CacheShape.

Section Kept.
Context {P : Platform}.

Lemma load_note_derived (d : FS) (vault r : string) (n : VaultNote) :
  load_note d vault r = Some n -> derived r n /\ backlinks n = [].
Proof.
  unfold load_note.
  destruct (fs_stat _ _); [| discriminate].
  destruct (fs_readFile _ _); [| discriminate].
  destruct (matter _) as [[fm body]|]; [| discriminate].
  intros [= <-]. repeat split.
Qed.

Lemma rebuilt_cache (c : Client) :
  exists f, (forall n, exists b, f n = with_backlinks n b)
            /\ noteCache (buildLinkGraphs c)
               = JsMap.update_all (noteCache c) f.
Proof.
  unfold buildLinkGraphs.
  destruct (fold_left _ (JsMap.values (noteCache c)) _) as [lg bg].
  eexists. split; [| reflexivity].
  intros n. cbv beta. destruct (JsMap.get bg (path n)) as [s|].
  - now exists s.
  - exists (backlinks n). now destruct n.
Qed.

Lemma all_derived_upsert (r : string) (w : World) :
  all_derived (client w) -> all_derived (client (updateCacheEntry r w)).
Proof.
  intros H. unfold updateCacheEntry.
  destruct (load_note _ _ r) as [note|] eqn:E; [| exact H].
  unfold all_derived. cbn [client set_client noteCache with_cache].
  apply Forall_set; [| exact H]. now apply load_note_derived in E.
Qed.

Lemma all_derived_rebuild (c : Client) :
  all_derived c -> all_derived (buildLinkGraphs c).
Proof.
  intros H. unfold all_derived in *.
  destruct (rebuilt_cache c) as (f & Hf & ->).
  unfold JsMap.update_all. apply Forall_map.
  eapply Forall_impl; [| exact H].
  intros [k n] Hd. cbn [fst snd] in *. destruct (Hf n) as [b ->]. exact Hd.
Qed.

Lemma all_derived_purge (r : string) (c : Client) :
  all_derived c -> all_derived (removeFromCache r c).
Proof. intros H. now apply Forall_delete. Qed.

Lemma distinct_keys_upsert (r : string) (w : World) :
  distinct_keys (client w) -> distinct_keys (client (updateCacheEntry r w)).
Proof.
  intros H. unfold updateCacheEntry.
  destruct (load_note _ _ r) as [note|]; [| exact H].
  now apply NoDup_keys_set.
Qed.

Lemma distinct_keys_rebuild (c : Client) :
  distinct_keys c -> distinct_keys (buildLinkGraphs c).
Proof.
  intros H. unfold distinct_keys in *.
  destruct (rebuilt_cache c) as (f & _ & ->). now rewrite keys_update_all.
Qed.

Lemma distinct_keys_purge (r : string) (c : Client) :
  distinct_keys c -> distinct_keys (removeFromCache r c).
Proof. intros H. now apply NoDup_keys_delete. Qed.

(** Whatever happens to a client (calls of the API, reads, searches,
    watcher events, changes of the disk), every note of its cache is
    stored under its own path, named after that path, and carries the
    links, tags and word count computed from its body and front matter:
    no derived field is ever out of step with the content. *)
Theorem cache_entries_are_derived (vault : string) (d : FS)
  (actions : list Action) (k : string) (n : VaultNote) :
  JsMap.get (noteCache (client (act_all actions (new_world vault d)))) k
  = Some n ->
  path n = k
  /\ name n = PosixPath.basename k ".md"
  /\ links n = parseMarkdown (content n)
  /\ tags n = extractTags (content n) (frontmatter n)
  /\ wordCount n = Scan.split_spaces_length (content n).
Proof.
  intros Hget.
  assert (all_derived (client (act_all actions (new_world vault d)))) as H.
  { apply act_all_inv.
    - apply all_derived_upsert.
    - apply all_derived_rebuild.
    - intros c Hc. exact Hc.
    - apply all_derived_purge.
    - constructor. }
  unfold all_derived in H. rewrite Forall_forall in H.
  exact (H _ (get_Some_In _ _ _ Hget)).
Qed.

(** Whatever happens to a client, no path is cached twice, so the number
    of notes reported by the statistics is the number of distinct cached
    paths. *)
Theorem cache_keys_are_distinct (vault : string) (d : FS)
  (actions : list Action) :
  let c := client (act_all actions (new_world vault d)) in
  NoDup (JsMap.keys (noteCache c))
  /\ totalNotes (getVaultStatistics c)
     = Z.of_nat (List.length (JsMap.keys (noteCache c))).
Proof.
  intros c. split.
  - apply (act_all_inv distinct_keys).
    + apply distinct_keys_upsert.
    + apply distinct_keys_rebuild.
    + intros c0 Hc. exact Hc.
    + apply distinct_keys_purge.
    + constructor.
  - cbn [getVaultStatistics totalNotes]. unfold JsMap.values, JsMap.keys.
    now rewrite !length_map.
Qed.

(** The vault path and the allowed directory are fixed when the client is
    made: after any sequence of actions the path guard answers as it did
    for the new client. *)
Theorem guard_answers_never_change (vault : string) (d : FS)
  (actions : list Action) (requestedPath : string) :
  validatePath (client (act_all actions (new_world vault d))) requestedPath
  = validatePath (new_client vault) requestedPath.
Proof.
  set (same := fun c : Client =>
                 vaultPath c = vaultPath (new_client vault)
                 /\ allowedDirectories c = allowedDirectories (new_client vault)).
  assert (same (client (act_all actions (new_world vault d)))) as [Hv Ha].
  { apply act_all_inv.
    - intros r w H. unfold updateCacheEntry.
      now destruct (load_note _ _ r).
    - intros c H. unfold buildLinkGraphs.
      now destruct (fold_left _ (JsMap.values (noteCache c)) _).
    - intros c H. exact H.
    - intros r c H. exact H.
    - split; reflexivity. }
  unfold validatePath. now rewrite Hv, Ha.
Qed.

End Kept.

(** Witness: the note [b.md] of the two linked notes. *)
Lemma cache_entries_are_derived_witness :
  path Cases.b_note = "b.md"
  /\ name Cases.b_note = PosixPath.basename "b.md" ".md"
  /\ links Cases.b_note = parseMarkdown (content Cases.b_note)
  /\ tags Cases.b_note
     = extractTags (content Cases.b_note) (frontmatter Cases.b_note)
  /\ wordCount Cases.b_note = Scan.split_spaces_length (content Cases.b_note).
Proof.
  apply (cache_entries_are_derived (P := Mem.platform) "/vault"
           Mem.empty_vault Cases.two_linked_actions "b.md" Cases.b_note).
  reflexivity.
Defined.

(* ================================================================== *)
(** ** How the operations compose *)
(* ================================================================== *)

Section Composition.
Context {P : Platform}.

Lemma same_config_upsert (c0 : Client) (r : string) (w : World) :
  same_config c0 (client w) -> same_config c0 (client (updateCacheEntry r w)).
Proof. intros H. unfold updateCacheEntry. now destruct (load_note _ _ r). Qed.

Lemma same_config_rebuild (c0 c : Client) :
  same_config c0 c -> same_config c0 (buildLinkGraphs c).
Proof.
  intros H. unfold buildLinkGraphs.
  now destruct (fold_left _ (JsMap.values (noteCache c)) _).
Qed.

Lemma same_config_validatePath (c0 c : Client) (p : string) :
  same_config c0 c -> validatePath c p = validatePath c0 p.
Proof. intros [Hv Ha]. unfold validatePath. now rewrite Hv, Ha. Qed.

Lemma same_config_relative (c0 c : Client) (p : string) :
  same_config c0 c -> relative_to_vault c p = relative_to_vault c0 p.
Proof. intros [Hv _]. unfold relative_to_vault. now rewrite Hv. Qed.

Lemma has_rebuild (c : Client) (k : string) :
  JsMap.has (noteCache (buildLinkGraphs c)) k = JsMap.has (noteCache c) k.
Proof.
  destruct (rebuilt_cache c) as (f & _ & ->).
  unfold JsMap.has. rewrite get_update_all.
  now destruct (JsMap.get (noteCache c) k).
Qed.

Lemma has_upsert (r k : string) (w : World) :
  JsMap.has (noteCache (client w)) k = true ->
  JsMap.has (noteCache (client (updateCacheEntry r w))) k = true.
Proof.
  intros H. unfold updateCacheEntry.
  destruct (load_note _ _ r); [| exact H].
  cbn [client set_client noteCache with_cache].
  unfold JsMap.has in *. rewrite get_set. now destruct (r =? k).
Qed.

(** What a successful [createNote] has done. *)
Lemma createNote_success (notePath text : string) (fm : option Frontmatter)
  (w w' : World) (n : VaultNote) :
  createNote notePath text fm w = (w', Ok n) ->
  exists validPath,
    validatePath (client w) notePath = Ok validPath
    /\ JsMap.get (noteCache (client w'))
                 (relative_to_vault (client w) validPath) = Some n
    /\ same_config (client w) (client w').
Proof.
  intros H.
  pose proof (createNote_strong (same_config (client w)) (same_config (client w))
                (fun c Hc => Hc) (same_config_upsert (client w))
                (same_config_rebuild (client w)) (fun c Hc => Hc)
                notePath text fm w (conj eq_refl eq_refl))
    as Hcfg.
  rewrite H in Hcfg.
  revert H. unfold createNote, bind, this, of_result, throw, fs_write,
    mutate, run, logger, ret.
  destruct (validatePath (client w) notePath) as [validPath|]; [| discriminate].
  cbv zeta. exists validPath. split; [reflexivity |]. split; [| exact Hcfg].
  revert H. destruct (fs_ensureDir (disk w) _); [| discriminate].
  cbn [disk set_disk].
  destruct (fs_writeFile _ _ _); [| discriminate].
  match goal with
  | |- context [JsMap.get ?m ?k] => destruct (JsMap.get m k) eqn:E
  end; [| discriminate].
  intros [= <- <-]. cbn [client log]. exact E.
Qed.

(** Round trip: a note that [createNote] returned is what [readNote]
    returns for the same path right afterwards, from the cache, without
    touching the world. *)
Theorem create_then_read (notePath text : string) (fm : option Frontmatter)
  (w w' : World) (n : VaultNote) :
  createNote notePath text fm w = (w', Ok n) ->
  readNote notePath w' = (w', Ok n).
Proof.
  intros H. destruct (createNote_success _ _ _ _ _ _ H)
    as (validPath & Hv & Hget & Hcfg).
  unfold readNote, bind, this, of_result, ret.
  rewrite (same_config_validatePath _ _ _ Hcfg), Hv. cbv zeta.
  rewrite (same_config_relative _ _ _ Hcfg), Hget. reflexivity.
Qed.

(** What a successful [deleteNote] has done. *)
Lemma deleteNote_success (notePath : string) (w w' : World) (u : unit) :
  deleteNote notePath w = (w', Ok u) ->
  exists validPath,
    validatePath (client w) notePath = Ok validPath
    /\ JsMap.has (noteCache (client w))
                 (relative_to_vault (client w) validPath) = true
    /\ fs_remove (disk w) validPath = Some (disk w')
    /\ client w'
       = rebuildSearchIndex
           (removeFromCache (relative_to_vault (client w) validPath) (client w)).
Proof.
  unfold deleteNote, bind, this, of_result, throw, fs_write, mutate, run,
    logger.
  destruct (validatePath (client w) notePath) as [validPath|]; [| discriminate].
  cbv zeta. exists validPath.
  destruct (JsMap.has _ _); [| discriminate]. cbn [negb] in *.
  destruct (fs_remove (disk w) validPath); [| discriminate].
  revert H. intros [= <- _]. repeat split.
Qed.

(** After a successful [deleteNote] the note is in no part of the index
    that the client keeps as maps and sets: not in the cache, not in a
    forward-link set, not in a set of the backlink graph; and the search
    index is rebuilt from the remaining notes. *)
Theorem delete_purges_maps (notePath : string) (w w' : World) (u : unit) :
  deleteNote notePath w = (w', Ok u) ->
  exists validPath,
    validatePath (client w) notePath = Ok validPath
    /\ let deleted := relative_to_vault (client w) validPath in
       let c' := client w' in
       JsMap.get (noteCache c') deleted = None
       /\ getForwardLinks c' deleted = []
       /\ (forall k, ~ In deleted (getForwardLinks c' k))
       /\ (forall k, ~ In deleted (set_at (backlinksGraph c') k))
       /\ searchIndex c' = Some (JsMap.values (noteCache c')).
Proof.
  intros H. destruct (deleteNote_success _ _ _ _ H)
    as (validPath & Hv & _ & _ & ->).
  exists validPath. split; [exact Hv |]. cbv zeta.
  destruct (removeFromCache_purges
              (relative_to_vault (client w) validPath) (client w))
    as (Hc & Hf & Hb).
  repeat split; try assumption.
  unfold getForwardLinks, rebuildSearchIndex, removeFromCache.
  cbn [linkGraph with_index with_graphs]. rewrite get_update_all, get_delete.
  now rewrite String.eqb_refl.
Qed.

(** After a successful [deleteNote], reading the same path throws
    "Note not found" once the file is gone from the disk. *)
Theorem delete_then_read (notePath : string) (w w' : World) (u : unit) :
  deleteNote notePath w = (w', Ok u) ->
  (forall validPath, validatePath (client w) notePath = Ok validPath ->
                     fs_pathExists (disk w') validPath = false) ->
  exists relativePath,
    readNote notePath w' = (w', Err (NoteNotFound relativePath)).
Proof.
  intros H Hgone. destruct (deleteNote_success _ _ _ _ H)
    as (validPath & Hv & _ & _ & Hc).
  exists (relative_to_vault (client w) validPath).
  assert (same_config (client w) (client w')) as Hcfg
    by (rewrite Hc; split; reflexivity).
  unfold readNote, bind, this, of_result, ret, throw.
  rewrite (same_config_validatePath _ _ _ Hcfg), Hv. cbv zeta.
  rewrite (same_config_relative _ _ _ Hcfg).
  assert (JsMap.get (noteCache (client w'))
                    (relative_to_vault (client w) validPath) = None) as ->.
  { rewrite Hc. apply removeFromCache_purges. }
  now rewrite (Hgone validPath Hv).
Qed.

(** [updateNote] never returns [undefined]: when it returns, the result
    is the entry cached under the note's path. *)
Theorem updateNote_returns_entry (notePath : string) (text : option string)
  (fm : option Frontmatter) (w w' : World) (r : option VaultNote) :
  updateNote notePath text fm w = (w', Ok r) ->
  exists validPath n,
    validatePath (client w) notePath = Ok validPath
    /\ r = Some n
    /\ JsMap.get (noteCache (client w'))
                 (relative_to_vault (client w) validPath) = Some n.
Proof.
  unfold updateNote, bind, this, of_result, throw, fs_write, mutate, run,
    logger, ret.
  destruct (validatePath (client w) notePath) as [validPath|]; [| discriminate].
  cbv beta zeta. set (rel := relative_to_vault (client w) validPath).
  destruct (JsMap.get (noteCache (client w)) rel) as [existing|] eqn:E;
    [| discriminate].
  destruct (fs_writeFile (disk w) validPath _) as [d'|]; [| discriminate].
  cbn [client set_client set_disk log disk].
  intros [= <- <-]. cbn [client log].
  set (w1 := updateCacheEntry rel _).
  assert (JsMap.has (noteCache (buildLinkGraphs (client w1))) rel = true) as Hhas.
  { rewrite has_rebuild. apply has_upsert. cbn [client set_disk].
    unfold JsMap.has. now rewrite E. }
  unfold JsMap.has in Hhas. cbn [noteCache rebuildSearchIndex with_index].
  destruct (JsMap.get (noteCache (buildLinkGraphs (client w1))) rel) as [n|]
    eqn:En; [| discriminate].
  exists validPath, n. repeat split. exact En.
Qed.

End Composition.

(** Witness: creating [a.md] in the empty vault, then reading it. *)
Lemma create_then_read_witness :
  exists w' n,
    createNote (P := Mem.platform) "a.md" "see [[b]]" None Mem.start = (w', Ok n)
    /\ readNote "a.md" w' = (w', Ok n).
Proof.
  eexists. eexists. split; [vm_compute; reflexivity |].
  apply (create_then_read (P := Mem.platform) "a.md" "see [[b]]" None Mem.start).
  vm_compute. reflexivity.
Defined.

Lemma delete_purges_maps_witness :
  JsMap.get (noteCache (client Cases.after_delete)) "a.md" = None
  /\ getForwardLinks (client Cases.after_delete) "b.md" = [].
Proof.
  destruct (delete_purges_maps (P := Mem.platform) "a.md" Mem.two_linked
              Cases.after_delete tt ltac:(vm_compute; reflexivity))
    as (validPath & Hv & Hc & _).
  vm_compute in Hv. injection Hv as <-. split; [exact Hc | vm_compute; reflexivity].
Defined.

Lemma delete_then_read_witness :
  exists relativePath,
    readNote (P := Mem.platform) "a.md" Cases.after_delete
    = (Cases.after_delete, Err (NoteNotFound relativePath)).
Proof.
  apply (delete_then_read (P := Mem.platform) "a.md" Mem.two_linked
           Cases.after_delete tt ltac:(vm_compute; reflexivity)).
  intros validPath Hv. vm_compute in Hv. injection Hv as <-.
  vm_compute. reflexivity.
Defined.

Lemma updateNote_returns_entry_witness :
  exists n, snd Cases.after_update = Ok (Some n).
Proof.
  destruct (updateNote_returns_entry (P := Mem.platform) "a.md" (Some "new") None
              Mem.two_linked (fst Cases.after_update)
              (match snd Cases.after_update with Ok r => r | Err _ => None end)
              ltac:(vm_compute; reflexivity))
    as (validPath & n & _ & Hr & _).
  exists n. vm_compute in Hr. vm_compute. now rewrite Hr.
Defined.

(* ================================================================== *)
(** ** What a rebuild computes *)
(* ================================================================== *)

Section Rebuild.
Context {P : Platform}.

Lemma buildLinkGraphs_parts (c : Client) :
  buildLinkGraphs c
  = with_graphs c
      (JsMap.update_all (noteCache c) (refresh (snd (graphs_of (noteCache c)))))
      (fst (graphs_of (noteCache c))) (snd (graphs_of (noteCache c))).
Proof.
  unfold buildLinkGraphs, graphs_of, empty_graph, refresh.
  now destruct (fold_left _ (JsMap.values (noteCache c)) _) as [lg bg].
Qed.

Lemma graphs_of_mirrored (cache : JsMap.t VaultNote) :
  mirrored (map path (JsMap.values cache)) (graphs_of cache).
Proof.
  unfold graphs_of. apply fold_notes_mirrored.
  - intros n Hn. now apply in_map.
  - intros n Hn. now apply in_map.
  - apply mirrored_empty.
Qed.

Lemma has_add_link (cache : JsMap.t VaultNote) (source link k : string)
  (g : JsMap.t JsSet.t * JsMap.t JsSet.t) :
  JsMap.has (fst (add_link cache source g link)) k = JsMap.has (fst g) k.
Proof.
  unfold add_link. destruct (resolveLink cache link); [| reflexivity].
  cbn [fst]. apply has_update.
Qed.

Lemma has_fold_links (cache : JsMap.t VaultNote) (source k : string)
  (ls : list string) (g : JsMap.t JsSet.t * JsMap.t JsSet.t) :
  JsMap.has (fst (fold_left (add_link cache source) ls g)) k
  = JsMap.has (fst g) k.
Proof.
  revert g. induction ls as [|l ls IH]; intros g; simpl; [reflexivity |].
  now rewrite IH, has_add_link.
Qed.

Lemma forward_after_links (cache : JsMap.t VaultNote) (source : string)
  (ls : list string) (g : JsMap.t JsSet.t * JsMap.t JsSet.t) (A B : string) :
  JsMap.has (fst g) source = true ->
  In B (set_at (fst (fold_left (add_link cache source) ls g)) A)
  <-> In B (set_at (fst g) A) \/ (A = source /\ reference_of cache ls B).
Proof.
  revert g. induction ls as [|l ls IH]; intros g Hhas; simpl.
  - split; [auto |]. intros [H | (_ & l & t & [] & _)]. exact H.
  - rewrite IH by now rewrite has_add_link.
    unfold add_link at 1, reference_of.
    destruct (resolveLink cache l) as [target|] eqn:E; cbn [fst].
    + rewrite set_at_update by assumption.
      destruct (String.eqb_spec source A) as [-> | Hne].
      * rewrite In_add. split.
        -- intros [[H | ->] | (_ & l' & t' & Hin & Hr & Hp)]; auto.
           ++ right. split; [reflexivity |]. exists l, target. simpl. auto.
           ++ right. split; [reflexivity |]. exists l', t'. simpl. auto.
        -- intros [H | (_ & l' & t' & [<- | Hin] & Hr & Hp)]; auto.
           ++ left. right. congruence.
           ++ right. split; [reflexivity |]. now exists l', t'.
      * split.
        -- intros [H | (Heq & _)]; [auto | now elim Hne].
        -- intros [H | (Heq & _)]; [auto | now elim Hne].
    + split.
      * intros [H | (Heq & l' & t' & Hin & Hr & Hp)]; auto.
        right. split; [assumption |]. exists l', t'. simpl. auto.
      * intros [H | (Heq & l' & t' & [<- | Hin] & Hr & Hp)]; auto.
        -- congruence.
        -- right. split; [assumption |]. now exists l', t'.
Qed.

Lemma forward_after_notes (cache : JsMap.t VaultNote)
  (notes : list VaultNote) (g : JsMap.t JsSet.t * JsMap.t JsSet.t)
  (A B : string) :
  (forall n, In n notes -> JsMap.has (fst g) (path n) = true) ->
  In B (set_at (fst (fold_left
                       (fun g note =>
                          fold_left (add_link cache (path note)) (links note) g)
                       notes g)) A)
  <-> In B (set_at (fst g) A) \/ references cache notes A B.
Proof.
  revert g. induction notes as [|n notes IH]; intros g Hhas; simpl.
  - split; [auto |]. intros [H | (n & _ & _ & [] & _)]. exact H.
  - rewrite IH.
    + rewrite forward_after_links by (apply Hhas; now left).
      unfold references, reference_of. split.
      * intros [[H | (HA & l & t & Hin & Hr & Hp)] | (n' & l & t & Hin & H)];
          auto.
        -- right. exists n, l, t. simpl. auto.
        -- right. exists n', l, t. simpl. tauto.
      * intros [H | (n' & l & t & [<- | Hin] & Hp & Hl & Hr & Ht)]; auto.
        -- left. right. split; [now symmetry |]. now exists l, t.
        -- right. exists n', l, t. auto.
    + intros n' Hn'. rewrite has_fold_links. apply Hhas. now right.
Qed.

Lemma empty_graph_has (notes : list VaultNote) (n : VaultNote) :
  In n notes -> JsMap.has (empty_graph notes) (path n) = true.
Proof.
  intros Hin. unfold JsMap.has, empty_graph. rewrite empty_graph_get.
  assert (existsb (fun n0 => path n0 =? path n) notes = true) as ->.
  { apply existsb_exists. exists n. split; [assumption | apply String.eqb_refl]. }
  reflexivity.
Qed.

Lemma empty_graph_sets (notes : list VaultNote) (k : string) :
  set_at (empty_graph notes) k = [].
Proof.
  unfold set_at, empty_graph. rewrite empty_graph_get.
  now destruct (existsb _ notes).
Qed.

Lemma forward_links_exactly (c : Client) (A B : string) :
  In B (getForwardLinks (buildLinkGraphs c) A)
  <-> exists note link target,
        In note (JsMap.values (noteCache c)) /\ path note = A
        /\ In link (links note)
        /\ resolveLink (noteCache c) link = Some target
        /\ path target = B.
Proof.
  rewrite buildLinkGraphs_parts.
  change (getForwardLinks _ A) with (set_at (fst (graphs_of (noteCache c))) A).
  unfold graphs_of. rewrite forward_after_notes.
  - cbn [fst]. rewrite empty_graph_sets. unfold references. simpl. tauto.
  - intros n Hn. cbn [fst]. now apply empty_graph_has.
Qed.

(** After a rebuild the forward links of [A] are exactly the paths of the
    notes that the references of the cached note [A] resolve to: nothing
    else is added, and no resolvable reference is missed. *)
Theorem forward_links_are_resolved_references (c : Client) (A B : string) :
  In B (getForwardLinks (buildLinkGraphs c) A)
  <-> exists note link target,
        In note (JsMap.values (noteCache c)) /\ path note = A
        /\ In link (links note)
        /\ resolveLink (noteCache c) link = Some target
        /\ path target = B.
Proof. exact (forward_links_exactly c A B). Qed.

End Rebuild.

(* ================================================================== *)
(** ** The graphs stay within the cache *)
(* ================================================================== *)

Section Closed.
Context {P : Platform}.

Lemma keyed_paths_keys (cache : JsMap.t VaultNote) :
  keyed_by_path cache -> map path (JsMap.values cache) = JsMap.keys cache.
Proof.
  unfold keyed_by_path, JsMap.values, JsMap.keys. rewrite map_map.
  induction 1 as [|[k n] cache Hk _ IH]; simpl; [reflexivity |].
  cbn [fst snd] in Hk. now rewrite Hk, IH.
Qed.

Lemma set_at_In_has (g : JsMap.t JsSet.t) (k x : string) :
  In x (set_at g k) -> JsMap.has g k = true.
Proof.
  unfold set_at, JsMap.has. now destruct (JsMap.get g k).
Qed.

Lemma has_delete {V : Type} (m : JsMap.t V) (r k : string) :
  JsMap.has (JsMap.delete m r) k = if r =? k then false else JsMap.has m k.
Proof. unfold JsMap.has. rewrite get_delete. now destruct (r =? k). Qed.

Lemma has_update_all {V : Type} (m : JsMap.t V) (f : V -> V) (k : string) :
  JsMap.has (JsMap.update_all m f) k = JsMap.has m k.
Proof.
  unfold JsMap.has. rewrite get_update_all. now destruct (JsMap.get m k).
Qed.

Lemma set_at_purged (g : JsMap.t JsSet.t) (r k x : string) :
  In x (set_at (JsMap.update_all (JsMap.delete g r)
                  (fun s => JsSet.delete s r)) k)
  <-> In x (set_at g k) /\ x <> r /\ k <> r.
Proof.
  unfold set_at. rewrite get_update_all, get_delete.
  destruct (String.eqb_spec r k) as [-> | Hne]; cbn [option_map].
  - simpl. intuition.
  - destruct (JsMap.get g k); cbn [option_map].
    + rewrite In_delete. intuition.
    + simpl. intuition.
Qed.

Lemma rebuild_closed (c : Client) : keyed c -> graphs_closed (buildLinkGraphs c).
Proof.
  intros Hk.
  pose proof (proj1 (buildLinkGraphs_symmetric c Hk)) as Hk'.
  pose proof (graphs_of_mirrored (noteCache c)) as (Hf & Hb & Hsym).
  rewrite (keyed_paths_keys _ Hk) in Hf, Hb.
  assert (forall k, In k (JsMap.keys (noteCache c))
                    <-> JsMap.has (noteCache (buildLinkGraphs c)) k = true)
    as Hkeys.
  { intros k. rewrite has_rebuild. symmetry. apply has_In_keys. }
  split; [exact Hk' |].
  rewrite buildLinkGraphs_parts in *.
  cbn [linkGraph backlinksGraph noteCache with_graphs] in *.
  repeat split.
  - intros k. apply eq_true_iff_eq. now rewrite Hf, Hkeys.
  - intros k. apply eq_true_iff_eq. now rewrite Hb, Hkeys.
  - intros A B H. apply Hkeys, Hb. apply Hsym in H.
    now apply set_at_In_has in H.
  - intros A B H. apply Hkeys, Hf. apply Hsym in H.
    now apply set_at_In_has in H.
Qed.

Lemma purge_closed (r : string) (c : Client) :
  graphs_closed c -> graphs_closed (removeFromCache r c).
Proof.
  intros (Hk & Hf & Hb & Hft & Hbt). unfold graphs_closed, removeFromCache.
  cbn [linkGraph backlinksGraph noteCache with_graphs].
  split; [now apply keyed_delete |].
  repeat split.
  - intros k. rewrite has_update_all, !has_delete, Hf. reflexivity.
  - intros k. rewrite has_update_all, !has_delete, Hb. reflexivity.
  - intros A B H. apply set_at_purged in H. destruct H as (H & HB & _).
    rewrite has_delete. apply not_eq_sym, String.eqb_neq in HB.
    rewrite HB. now apply (Hft A).
  - intros A B H. apply set_at_purged in H. destruct H as (H & HA & _).
    rewrite has_delete. apply not_eq_sym, String.eqb_neq in HA.
    rewrite HA. now apply (Hbt A B).
Qed.

Lemma perform_all_closed (vault : string) (d : FS) (calls : list Call) :
  graphs_closed (client (perform_all calls (new_world vault d))).
Proof.
  apply (perform_all_strong graphs_closed keyed).
  - now intros c [Hk _].
  - apply updateCacheEntry_keyed.
  - apply rebuild_closed.
  - intros c H. exact H.
  - apply purge_closed.
  - unfold graphs_closed. cbn. repeat split; try constructor; contradiction.
Qed.

(** After any sequence of API calls, rebuilds and changes of the disk, a
    forward link always leads from a cached note to a cached note: no
    forward link dangles, also right after a deletion. *)
Theorem forward_links_stay_in_cache (vault : string) (d : FS)
  (calls : list Call) (A B : string) :
  let c := client (perform_all calls (new_world vault d)) in
  In B (getForwardLinks c A) ->
  JsMap.has (noteCache c) A = true /\ JsMap.has (noteCache c) B = true.
Proof.
  intros c H.
  destruct (perform_all_closed vault d calls) as (_ & Hf & _ & Hft & _).
  fold c in Hf, Hft. change (getForwardLinks c A) with (set_at (linkGraph c) A) in H.
  split.
  - rewrite <- Hf. now apply set_at_In_has in H.
  - now apply (Hft A).
Qed.

(** After any sequence of API calls, rebuilds and changes of the disk,
    the forward-link map and the backlink map have an entry for exactly
    the cached notes. *)
Theorem graph_keys_are_cache_keys (vault : string) (d : FS)
  (calls : list Call) (k : string) :
  let c := client (perform_all calls (new_world vault d)) in
  JsMap.has (linkGraph c) k = JsMap.has (noteCache c) k
  /\ JsMap.has (backlinksGraph c) k = JsMap.has (noteCache c) k.
Proof.
  intros c.
  destruct (perform_all_closed vault d calls) as (_ & Hf & Hb & _).
  split; [apply Hf | apply Hb].
Qed.

End Closed.

(** Witness: [a.md] links to [b.md]. *)
Lemma forward_links_stay_in_cache_witness :
  JsMap.has (noteCache (client Mem.two_linked)) "a.md" = true
  /\ JsMap.has (noteCache (client Mem.two_linked)) "b.md" = true.
Proof.
  apply (forward_links_stay_in_cache (P := Mem.platform) "/vault"
           Mem.empty_vault
           [CallCreate "a.md" "see [[b]]" None;
            CallCreate "b.md" "see [[a]]" None] "a.md" "b.md").
  vm_compute. auto.
Defined.

Section Idempotence.
Context {P : Platform}.

Lemma fold_left_map_in {A B C : Type} (g : A -> C -> A) (f : B -> C)
  (l : list B) (a : A) :
  fold_left g (map f l) a = fold_left (fun a x => g a (f x)) l a.
Proof. revert a. induction l as [|x l IH]; intros a; simpl; auto. Qed.

Lemma fold_left_same {A B : Type} (g h : A -> B -> A) (l : list B) (a : A) :
  (forall a x, g a x = h a x) -> fold_left g l a = fold_left h l a.
Proof.
  intros H. revert a. induction l as [|x l IH]; intros a; simpl; [reflexivity |].
  now rewrite H, IH.
Qed.

Lemma find_map {A B : Type} (p : B -> bool) (f : A -> B) (l : list A) :
  find p (map f l) = option_map f (find (fun x => p (f x)) l).
Proof.
  induction l as [|x l IH]; simpl; [reflexivity |].
  destruct (p (f x)); [reflexivity | exact IH].
Qed.

Lemma values_update_all (cache : JsMap.t VaultNote)
  (f : VaultNote -> VaultNote) :
  JsMap.values (JsMap.update_all cache f) = map f (JsMap.values cache).
Proof. unfold JsMap.values, JsMap.update_all. now rewrite !map_map. Qed.

Lemma refresh_fields (bg : JsMap.t JsSet.t) (n : VaultNote) :
  path (refresh bg n) = path n /\ name (refresh bg n) = name n
  /\ links (refresh bg n) = links n.
Proof. unfold refresh. now destruct (JsMap.get bg (path n)). Qed.

(** The resolver looks at names and paths only. *)
Lemma resolveLink_update_all (cache : JsMap.t VaultNote)
  (f : VaultNote -> VaultNote) (link : string) :
  (forall n, path (f n) = path n /\ name (f n) = name n) ->
  resolveLink (JsMap.update_all cache f) link
  = option_map f (resolveLink cache link).
Proof.
  intros Hf. unfold resolveLink. rewrite values_update_all, !find_map.
  assert (forall (p q : VaultNote -> bool) l,
             (forall n, p n = q n) -> find p l = find q l) as Hext.
  { intros p q l H. induction l as [|x l IH]; simpl; [reflexivity |].
    now rewrite H, IH. }
  rewrite (Hext (fun x => (name (f x) =? strip_md link)
                          || (path (f x) =? strip_md link))
                (fun note => (name note =? strip_md link)
                             || (path note =? strip_md link)))
    by (intros n; destruct (Hf n) as [-> ->]; reflexivity).
  destruct (find _ (JsMap.values cache)); [reflexivity |].
  apply f_equal, Hext. intros n. now destruct (Hf n) as [_ ->].
Qed.

Lemma graphs_of_refreshed (cache : JsMap.t VaultNote) (bg : JsMap.t JsSet.t) :
  graphs_of (JsMap.update_all cache (refresh bg)) = graphs_of cache.
Proof.
  assert (forall n, path (refresh bg n) = path n /\ name (refresh bg n) = name n)
    as Hf by (intros n; destruct (refresh_fields bg n) as (? & ? & _); auto).
  assert (forall s g l,
             add_link (JsMap.update_all cache (refresh bg)) s g l
             = add_link cache s g l) as Hadd.
  { intros s g l. unfold add_link. rewrite resolveLink_update_all by exact Hf.
    destruct (resolveLink cache l) as [t|]; cbn [option_map]; [| reflexivity].
    now destruct (refresh_fields bg t) as (-> & _). }
  unfold graphs_of. rewrite values_update_all.
  assert (empty_graph (map (refresh bg) (JsMap.values cache))
          = empty_graph (JsMap.values cache)) as ->.
  { unfold empty_graph. rewrite fold_left_map_in. apply fold_left_same.
    intros a n. now destruct (refresh_fields bg n) as (-> & _). }
  rewrite fold_left_map_in. apply fold_left_same. intros g n.
  destruct (refresh_fields bg n) as (-> & _ & ->).
  apply fold_left_same. intros g' l. apply Hadd.
Qed.

Lemma refresh_twice (bg : JsMap.t JsSet.t) (n : VaultNote) :
  refresh bg (refresh bg n) = refresh bg n.
Proof.
  unfold refresh. destruct (JsMap.get bg (path n)) as [s|] eqn:E.
  - cbn [path with_backlinks]. now rewrite E.
  - now rewrite E.
Qed.

Lemma rebuild_twice (c : Client) :
  buildLinkGraphs (buildLinkGraphs c) = buildLinkGraphs c.
Proof.
  rewrite (buildLinkGraphs_parts (buildLinkGraphs c)).
  rewrite (buildLinkGraphs_parts c).
  cbn [noteCache with_graphs]. rewrite graphs_of_refreshed.
  unfold with_graphs. cbn [vaultPath allowedDirectories searchIndex].
  f_equal. unfold JsMap.update_all. rewrite map_map. apply map_ext.
  intros [k n]. cbn [fst snd]. now rewrite refresh_twice.
Qed.

(** A rebuild right after a rebuild changes nothing: the graphs depend on
    names, paths and references only, and the backlinks written into the
    cached notes are those of the graph. *)
Theorem rebuild_is_idempotent (c : Client) :
  buildLinkGraphs (buildLinkGraphs c) = buildLinkGraphs c.
Proof. exact (rebuild_twice c). Qed.

End Idempotence.

(* ================================================================== *)
(** ** The link resolver *)
(* ================================================================== *)

Section Resolver.
Context {P : Platform}.

Lemma resolveLink_cases (cache : JsMap.t VaultNote) (link : string) :
  let clean := strip_md link in
  match resolveLink cache link with
  | Some t =>
      In t (JsMap.values cache)
      /\ ((name t = clean \/ path t = clean)
          \/ ((forall n, In n (JsMap.values cache) ->
                         name n <> clean /\ path n <> clean)
              /\ includes (toLowerCase (name t)) (toLowerCase clean) = true))
  | None =>
      forall n, In n (JsMap.values cache) ->
                name n <> clean /\ path n <> clean
                /\ includes (toLowerCase (name n)) (toLowerCase clean) = false
  end.
Proof.
  intros clean. unfold resolveLink. fold clean.
  destruct (find _ (JsMap.values cache)) as [t|] eqn:Eexact.
  - apply find_some in Eexact. destruct Eexact as [Hin Hex].
    split; [exact Hin |]. left.
    apply orb_true_iff in Hex. now rewrite !String.eqb_eq in Hex.
  - assert (forall n, In n (JsMap.values cache) ->
                      name n <> clean /\ path n <> clean) as Hnone.
    { intros n Hn. pose proof (find_none _ _ Eexact n Hn) as H.
      apply orb_false_iff in H. now rewrite !String.eqb_neq in H. }
    match goal with
    | |- context [find ?p ?l] => destruct (find p l) as [t|] eqn:Epart
    end.
    + apply find_some in Epart. destruct Epart as [Hin Hp].
      split; [exact Hin |]. right. split; assumption.
    + intros n Hn. destruct (Hnone n Hn) as [H1 H2].
      repeat split; try assumption. exact (find_none _ _ Epart n Hn).
Qed.

(** Exact matches win over partial ones, and a reference is unresolved
    exactly when no cached note matches it either way: the result is a
    cached note whose name or path is the cleaned reference, or, when
    there is no such note, one whose lower-cased name contains the
    lower-cased cleaned reference. *)
Theorem resolveLink_policy (cache : JsMap.t VaultNote) (link : string) :
  let clean := strip_md link in
  match resolveLink cache link with
  | Some t =>
      In t (JsMap.values cache)
      /\ ((name t = clean \/ path t = clean)
          \/ ((forall n, In n (JsMap.values cache) ->
                         name n <> clean /\ path n <> clean)
              /\ includes (toLowerCase (name t)) (toLowerCase clean) = true))
  | None =>
      forall n, In n (JsMap.values cache) ->
                name n <> clean /\ path n <> clean
                /\ includes (toLowerCase (name n)) (toLowerCase clean) = false
  end.
Proof. exact (resolveLink_cases cache link). Qed.

Lemma length_append (a b : string) :
  String.length (a ++ b) = String.length a + String.length b.
Proof. induction a as [|c a IH]; simpl; auto. Qed.

Lemma substring_append_l (a b : string) :
  substring 0 (String.length a) (a ++ b) = a.
Proof.
  induction a as [|c a IH]; simpl; [now destruct b | now rewrite IH].
Qed.

Lemma substring_append_r (a b : string) :
  substring (String.length a) (String.length b) (a ++ b) = b.
Proof.
  induction a as [|c a IH]; simpl; [| exact IH].
  induction b as [|c b IHb]; simpl; [reflexivity | now rewrite IHb].
Qed.

Lemma strip_md_append (link : string) : strip_md (link ++ ".md") = link.
Proof.
  unfold strip_md, endsWith. rewrite length_append. cbn [String.length].
  replace (String.length link + 3 - 3) with (String.length link) by lia.
  pose proof (substring_append_r link ".md") as Hr. cbn [String.length] in Hr.
  rewrite Hr, substring_append_l.
  replace (3 <=? String.length link + 3)%nat with true
    by (symmetry; apply Nat.leb_le; lia).
  reflexivity.
Qed.

(** One [.md] extension at the end of a reference is ignored: [[note.md]]
    resolves as [[note]] does. *)
Theorem reference_extension_is_ignored (cache : JsMap.t VaultNote)
  (link : string) :
  endsWith link ".md" = false ->
  resolveLink cache (link ++ ".md") = resolveLink cache link.
Proof.
  intros H. unfold resolveLink. rewrite strip_md_append.
  unfold strip_md. now rewrite H.
Qed.

Lemma lower_char_sep (c : ascii) :
  lower_char c = PosixPath.sep <-> c = PosixPath.sep.
Proof.
  destruct c as [[] [] [] [] [] [] [] []]; vm_compute; split; congruence.
Qed.

Lemma sep_free_lower (s : string) : sep_free (toLowerCase s) <-> sep_free s.
Proof.
  induction s as [|c s IH]; simpl; [tauto |].
  rewrite IH, lower_char_sep. tauto.
Qed.

Lemma prefix_sep_free (a b : string) :
  String.prefix a b = true -> sep_free b -> sep_free a.
Proof.
  revert b. induction a as [|c a IH]; intros b; simpl; [auto |].
  destruct b as [|c' b]; [discriminate |]. simpl.
  destruct (ascii_dec c c') as [-> | _]; [| discriminate].
  intros Hp [Hc Hb]. split; [assumption | now apply (IH b)].
Qed.

Lemma includes_sep_free (s sub : string) :
  includes s sub = true -> sep_free s -> sep_free sub.
Proof.
  induction s as [|c s IH]; cbn [includes]; intros H Hs.
  - apply orb_true_iff in H. destruct H as [H | H]; [| discriminate].
    now apply (prefix_sep_free sub "").
  - apply orb_true_iff in H. destruct H as [H | H].
    + now apply (prefix_sep_free sub (String c s)).
    + apply IH; [assumption | now destruct Hs].
Qed.

Lemma sep_free_rev_acc (s acc : string) :
  sep_free s -> sep_free acc -> sep_free (string_rev_acc s acc).
Proof.
  revert acc. induction s as [|c s IH]; intros acc Hs Ha; simpl; [assumption |].
  destruct Hs as [Hc Hs]. apply IH; [assumption | now split].
Qed.

Lemma sep_free_take_until (r : string) : sep_free (PosixPath.take_until_sep r).
Proof.
  induction r as [|c r IH]; simpl; [exact I |].
  destruct (Ascii.eqb_spec c PosixPath.sep); simpl; [exact I | now split].
Qed.

Lemma sep_free_substring (n : nat) (s : string) :
  sep_free s -> sep_free (substring 0 n s).
Proof.
  revert s. induction n as [|n IH]; intros s Hs.
  - now destruct s.
  - destruct s as [|c s]; [exact I |]. destruct Hs as [Hc Hs].
    simpl. split; [assumption | now apply IH].
Qed.

(** A note name never contains a separator. *)
Lemma sep_free_basename (p suffix : string) :
  sep_free (PosixPath.basename p suffix).
Proof.
  unfold PosixPath.basename. destruct (p =? suffix); [exact I |].
  assert (sep_free (PosixPath.last_segment p)) as H.
  { unfold PosixPath.last_segment, string_rev.
    apply sep_free_rev_acc; [apply sep_free_take_until | exact I]. }
  destruct (_ && _); [now apply sep_free_substring | exact H].
Qed.

(** A reference that names a note by a path with a folder, such as
    [[sub/a]] or [text](sub/a.md), never resolves when the cached notes
    are Markdown files named after their paths: names hold no separator
    and paths keep their extension, so neither the exact nor the partial
    comparison can succeed.  Such references are reported as broken. *)
Theorem folder_references_never_resolve (cache : JsMap.t VaultNote)
  (link : string) :
  (forall n, In n (JsMap.values cache) ->
             name n = PosixPath.basename (path n) ".md"
             /\ endsWith (path n) ".md" = true) ->
  ~ sep_free (strip_md link) ->
  endsWith (strip_md link) ".md" = false ->
  resolveLink cache link = None.
Proof.
  intros Hcache Hsep Hext.
  pose proof (resolveLink_cases cache link) as Hpol. cbv zeta in Hpol.
  destruct (resolveLink cache link) as [t|]; [| reflexivity]. exfalso.
  destruct Hpol as (Hin & Hmatch). destruct (Hcache t Hin) as [Hname Hpath].
  assert (sep_free (name t)) as Hfree
    by (rewrite Hname; apply sep_free_basename).
  destruct Hmatch as [[He | He] | [_ Hinc]].
  - apply Hsep. now rewrite <- He.
  - rewrite He in Hpath. congruence.
  - apply Hsep, sep_free_lower.
    apply (includes_sep_free _ _ Hinc). now apply sep_free_lower.
Qed.

End Resolver.

Lemma reference_extension_is_ignored_witness :
  resolveLink (noteCache (client Mem.two_linked)) "a.md"
  = resolveLink (noteCache (client Mem.two_linked)) "a".
Proof.
  apply (reference_extension_is_ignored
           (noteCache (client Mem.two_linked)) "a").
  reflexivity.
Defined.

(** Witness: [b.md] references [sub/a], and [sub/a.md] is cached. *)
Lemma folder_references_never_resolve_witness :
  option_map links (JsMap.get (noteCache (client Cases.nested)) "b.md")
  = Some ["sub/a"]
  /\ JsMap.has (noteCache (client Cases.nested)) "sub/a.md" = true
  /\ resolveLink (noteCache (client Cases.nested)) "sub/a" = None.
Proof.
  split; [vm_compute; reflexivity |]. split; [vm_compute; reflexivity |].
  apply (folder_references_never_resolve
           (noteCache (client Cases.nested)) "sub/a").
  - intros n Hn. vm_compute in Hn.
    destruct Hn as [<- | [<- | []]]; split; reflexivity.
  - vm_compute. intros (_ & _ & _ & H & _). now apply H.
  - reflexivity.
Defined.

(* ================================================================== *)
(** ** The link analysis after a rebuild *)
(* ================================================================== *)

Section Analysis.
Context {P : Platform}.

Lemma rebuilt_backlinks (c : Client) (k : string) :
  keyed c -> JsMap.has (noteCache c) k = true ->
  getBacklinks (buildLinkGraphs c) k
  = set_at (backlinksGraph (buildLinkGraphs c)) k.
Proof.
  intros Hk Hhas.
  pose proof (graphs_of_mirrored (noteCache c)) as (_ & Hb & _).
  rewrite (keyed_paths_keys _ Hk) in Hb.
  rewrite buildLinkGraphs_parts. unfold getBacklinks.
  cbn [noteCache backlinksGraph with_graphs]. rewrite get_update_all.
  unfold JsMap.has in Hhas.
  destruct (JsMap.get (noteCache c) k) as [n|] eqn:E; [| discriminate].
  cbn [option_map]. unfold refresh. rewrite (keyed_get _ _ _ Hk E).
  assert (JsMap.has (snd (graphs_of (noteCache c))) k = true) as Hbk.
  { apply Hb, has_In_keys. unfold JsMap.has. now rewrite E. }
  unfold JsMap.has in Hbk. unfold set_at.
  now destruct (JsMap.get (snd (graphs_of (noteCache c))) k).
Qed.

Lemma set_size_zero (g : JsMap.t JsSet.t) (k : string) :
  (set_size g k =? 0)%Z = true <-> set_at g k = [].
Proof.
  unfold set_size, set_at. rewrite Z.eqb_eq.
  destruct (JsMap.get g k) as [[|x s]|]; simpl; split; intros H;
    try reflexivity; try discriminate; lia.
Qed.

(** Orphans after a rebuild: a path is reported as orphaned exactly when
    it is a cached note with no forward link and no backlink; a note
    with an edge in either direction is not reported. *)
Theorem orphans_after_rebuild (c : Client) (k : string) :
  keyed c ->
  let c' := buildLinkGraphs c in
  In k (orphanedNotes (analyzeLinkNetwork c'))
  <-> JsMap.has (noteCache c') k = true
      /\ getForwardLinks c' k = [] /\ getBacklinks c' k = [].
Proof.
  intros Hk c'.
  pose proof (proj1 (buildLinkGraphs_symmetric c Hk)) as Hk'. fold c' in Hk'.
  assert (forall k, JsMap.has (noteCache c') k = true ->
                    getBacklinks c' k = set_at (backlinksGraph c') k) as Hback.
  { intros k0 H0. apply rebuilt_backlinks; [exact Hk |].
    unfold c' in H0. now rewrite has_rebuild in H0. }
  cbn [analyzeLinkNetwork orphanedNotes]. rewrite in_map_iff. split.
  - intros (n & <- & Hn). apply filter_In in Hn. destruct Hn as [Hin Hz].
    apply andb_true_iff in Hz. destruct Hz as [Hb Hf].
    apply set_size_zero in Hb, Hf.
    pose proof (keyed_values _ n Hk' Hin) as Hhas.
    repeat split; [exact Hhas | exact Hf |]. now rewrite Hback.
  - intros (Hhas & Hf & Hb). rewrite Hback in Hb by exact Hhas.
    unfold JsMap.has in Hhas.
    destruct (JsMap.get (noteCache c') k) as [n|] eqn:E; [| discriminate].
    pose proof (keyed_get _ _ _ Hk' E) as Hp.
    exists n. split; [exact Hp |]. apply filter_In. split.
    + apply get_Some_In in E. now apply (in_map snd) in E.
    + rewrite Hp. apply andb_true_iff. split; now apply set_size_zero.
Qed.

(** After a rebuild every reference of every cached note is accounted
    for: it resolves and its target is among the forward links of the
    note, or it does not resolve and the analysis lists it as broken. *)
Theorem references_resolved_or_broken (c : Client) (n : VaultNote)
  (link : string) :
  let c' := buildLinkGraphs c in
  In n (JsMap.values (noteCache c')) -> In link (links n) ->
  (exists target,
      resolveLink (noteCache c') link = Some target
      /\ In (path target) (getForwardLinks c' (path n)))
  \/ (resolveLink (noteCache c') link = None
      /\ In (path n ++ ": " ++ link) (brokenLinks (analyzeLinkNetwork c'))).
Proof.
  intros c' Hn Hl.
  destruct (resolveLink (noteCache c') link) as [target|] eqn:E.
  - left. exists target. split; [reflexivity |].
    unfold c' at 1. rewrite <- rebuild_twice. fold c'.
    apply forward_links_exactly.
    exists n, link, target. auto.
  - right. split; [reflexivity |].
    now apply brokenLinks_lists_unresolved.
Qed.

End Analysis.

(** Witness: after [a.md] was deleted and the graphs were rebuilt,
    [b.md] is an orphan. *)
Lemma orphans_after_rebuild_witness :
  In "b.md" (orphanedNotes
               (analyzeLinkNetwork (buildLinkGraphs (client Cases.after_delete))))
  <-> JsMap.has (noteCache (buildLinkGraphs (client Cases.after_delete))) "b.md"
      = true
      /\ getForwardLinks (buildLinkGraphs (client Cases.after_delete)) "b.md" = []
      /\ getBacklinks (buildLinkGraphs (client Cases.after_delete)) "b.md" = [].
Proof.
  apply (orphans_after_rebuild (client Cases.after_delete) "b.md").
  vm_compute. repeat constructor.
Defined.

(** Witness: the reference of [b.md] to [a] among the two linked notes. *)
Lemma references_resolved_or_broken_witness :
  (exists target,
      resolveLink (noteCache (buildLinkGraphs (client Mem.two_linked))) "a"
      = Some target
      /\ In (path target)
            (getForwardLinks (buildLinkGraphs (client Mem.two_linked)) "b.md"))
  \/ (resolveLink (noteCache (buildLinkGraphs (client Mem.two_linked))) "a" = None
      /\ In "b.md: a"
            (brokenLinks
               (analyzeLinkNetwork (buildLinkGraphs (client Mem.two_linked))))).
Proof.
  apply (references_resolved_or_broken (client Mem.two_linked) Cases.b_note "a").
  - vm_compute. auto.
  - vm_compute. auto.
Defined.

(* ================================================================== *)
(** ** Rankings, counts and statistics *)
(* ================================================================== *)

Section Sorting.
Context {A : Type}.
Variable f : A -> Z.

Lemma insert_sorted_perm (cmp : A -> A -> Z) (x : A) (l : list A) :
  Permutation (insert_sorted cmp x l) (x :: l).
Proof.
  induction l as [|y l IH]; simpl; [reflexivity |].
  destruct (cmp y x <=? 0)%Z; [| reflexivity].
  rewrite IH. apply perm_swap.
Qed.

Lemma sort_perm_acc (cmp : A -> A -> Z) (l acc : list A) :
  Permutation (fold_left (fun acc x => insert_sorted cmp x acc) l acc)
              (acc ++ l).
Proof.
  revert acc. induction l as [|x l IH]; intros acc; simpl.
  - now rewrite app_nil_r.
  - rewrite IH, insert_sorted_perm. apply Permutation_middle.
Qed.

Lemma sort_perm (cmp : A -> A -> Z) (l : list A) : Permutation (sort cmp l) l.
Proof. unfold sort. apply (sort_perm_acc cmp l []). Qed.

Lemma insert_sorted_ranked (x : A) (l : list A) :
  ranked f l -> ranked f (insert_sorted (fun a b => (f b - f a)%Z) x l).
Proof.
  unfold ranked. induction 1 as [|y l Hl IH Hy]; simpl.
  - repeat constructor.
  - destruct (Z.leb_spec (f x - f y) 0).
    + constructor; [exact IH |].
      rewrite Forall_forall in *. intros z Hz.
      apply (Permutation_in _ (insert_sorted_perm _ x l)) in Hz.
      destruct Hz as [<- | Hz]; [lia | now apply Hy].
    + constructor; [now constructor |]. constructor; [lia |].
      rewrite Forall_forall in *. intros z Hz. specialize (Hy z Hz). lia.
Qed.

Lemma sort_ranked (l : list A) :
  ranked f (sort (fun a b => (f b - f a)%Z) l).
Proof.
  unfold sort.
  assert (forall acc, ranked f acc ->
                      ranked f (fold_left
                                  (fun acc x =>
                                     insert_sorted (fun a b => (f b - f a)%Z) x acc)
                                  l acc)) as H.
  { induction l as [|x l IH]; intros acc Hacc; simpl; [exact Hacc |].
    apply IH. now apply insert_sorted_ranked. }
  apply H. constructor.
Qed.

Lemma firstn_ranked (n : nat) (l : list A) :
  ranked f l -> ranked f (firstn n l).
Proof.
  unfold ranked. intros H. revert n.
  induction H as [|y l Hl IH Hy]; intros [|n]; simpl; try constructor.
  - apply IH.
  - rewrite Forall_forall in *. intros z Hz. apply Hy.
    rewrite <- (firstn_skipn n l). apply in_or_app. now left.
Qed.

End Sorting.

Section Counting.

Lemma fold_left_flat_map {A B C : Type} (g : A -> B -> A) (h : C -> list B)
  (l : list C) (a : A) :
  fold_left g (flat_map h l) a = fold_left (fun a x => fold_left g (h x) a) l a.
Proof.
  revert a. induction l as [|x l IH]; intros a; simpl; [reflexivity |].
  now rewrite fold_left_app, IH.
Qed.

Lemma tally_get (words : list string) (m : JsMap.t Z) (t : string) :
  JsMap.get
    (fold_left
       (fun counts word =>
          JsMap.set counts word
            (match JsMap.get counts word with
             | Some k => if (k =? 0)%Z then 0 else k
             | None => 0
             end + 1)%Z)
       words m) t
  = if (occurrences t words =? 0)%Z then JsMap.get m t
    else Some (match JsMap.get m t with Some k => k | None => 0 end
               + occurrences t words)%Z.
Proof.
  unfold occurrences. revert m.
  induction words as [|w words IH]; intros m; [reflexivity |].
  cbn [fold_left]. rewrite IH, get_set. cbn [count_occ].
  destruct (string_dec w t) as [-> | Hne].
  - rewrite String.eqb_refl.
    assert ((match JsMap.get m t with
             | Some k => if (k =? 0)%Z then 0 else k
             | None => 0
             end)%Z
            = match JsMap.get m t with Some k => k | None => 0%Z end) as ->.
    { destruct (JsMap.get m t) as [k|]; [| reflexivity].
      now destruct (Z.eqb_spec k 0). }
    destruct (Z.eqb_spec (Z.of_nat (count_occ string_dec words t)) 0);
      destruct (Z.eqb_spec (Z.of_nat (S (count_occ string_dec words t))) 0);
      try lia; f_equal; lia.
  - apply String.eqb_neq in Hne. now rewrite Hne.
Qed.

Lemma tally_keys (words : list string) (m : JsMap.t Z) :
  NoDup (JsMap.keys m) ->
  NoDup (JsMap.keys
           (fold_left
              (fun counts word =>
                 JsMap.set counts word
                   (match JsMap.get counts word with
                    | Some k => if (k =? 0)%Z then 0 else k
                    | None => 0
                    end + 1)%Z)
              words m)).
Proof.
  revert m. induction words as [|w words IH]; intros m H; simpl; [exact H |].
  apply IH. now apply NoDup_keys_set.
Qed.

Lemma NoDup_keys_get {V : Type} (m : JsMap.t V) (k : string) (v : V) :
  NoDup (JsMap.keys m) -> In (k, v) m -> JsMap.get m k = Some v.
Proof.
  unfold JsMap.keys. induction m as [|[k0 v0] m IH]; simpl; [contradiction |].
  intros Hnd [[= -> ->] | Hin].
  - now rewrite String.eqb_refl.
  - inversion Hnd as [|? ? Hnotin Hnd']; subst.
    destruct (String.eqb_spec k0 k) as [-> | _]; [| now apply IH].
    elim Hnotin. now apply (in_map fst) in Hin.
Qed.

End Counting.

Section Rankings.
Context {P : Platform}.

Lemma ranked_app {A : Type} (f : A -> Z) (l1 l2 : list A) :
  ranked f (l1 ++ l2) ->
  forall a b, In a l1 -> In b l2 -> (f b <= f a)%Z.
Proof.
  unfold ranked. induction l1 as [|x l1 IH]; simpl; intros H a b Ha Hb;
    [contradiction |].
  inversion H as [|? ? Hs Hall]; subst.
  destruct Ha as [<- | Ha].
  - rewrite Forall_forall in Hall. apply Hall. apply in_or_app. now right.
  - now apply IH.
Qed.

Lemma ranked_map {A B : Type} (f : B -> Z) (g : A -> B) (l : list A) :
  ranked (fun a => f (g a)) l -> ranked f (map g l).
Proof.
  unfold ranked. induction 1 as [|x l Hl IH Hx]; simpl; constructor;
    [exact IH |].
  rewrite Forall_forall in *. intros b Hb.
  apply in_map_iff in Hb. destruct Hb as (a & <- & Ha). now apply Hx.
Qed.

(** The first [n] of a list sorted by [f], largest first: at most [n] of
    the elements, in order, and every element left out is no larger than
    any element kept. *)
Lemma top_sorted {A : Type} (f : A -> Z) (n : nat) (l : list A) :
  let r := firstn n (sort (fun a b => (f b - f a)%Z) l) in
  (List.length r <= n)%nat
  /\ ranked f r
  /\ (forall a, In a r -> In a l)
  /\ (forall a b, In a r -> In b l -> ~ In b r -> (f b <= f a)%Z)
  /\ ((List.length l <= n)%nat -> Permutation r l).
Proof.
  intros r. subst r.
  set (s := sort (fun a b => (f b - f a)%Z) l).
  assert (Permutation s l) as Hperm by apply sort_perm.
  assert (ranked f s) as Hranked by apply sort_ranked.
  split; [apply firstn_le_length |].
  split; [now apply firstn_ranked |].
  split; [| split].
  - intros a Ha. apply (Permutation_in _ Hperm).
    rewrite <- (firstn_skipn n s). apply in_or_app. now left.
  - intros a b Ha Hb Hnb.
    apply (Permutation_in _ (Permutation_sym Hperm)) in Hb.
    rewrite <- (firstn_skipn n s) in Hb, Hranked.
    apply in_app_or in Hb. destruct Hb as [Hb | Hb]; [contradiction |].
    apply (ranked_app f _ _ Hranked); assumption.
  - intros Hlen. rewrite firstn_all2; [exact Hperm |].
    now rewrite (Permutation_length Hperm).
Qed.

Lemma NoDup_firstn {A : Type} (n : nat) (l : list A) :
  NoDup l -> NoDup (firstn n l).
Proof.
  intros H. rewrite <- (firstn_skipn n l) in H.
  now apply NoDup_app_remove_r in H.
Qed.

(** What a tally followed by the ranking returns. *)
Lemma top_of_tally (words : list string) (r : list (string * Z)) :
  (exists n,
      r = firstn n
            (sort (fun a b => (snd b - snd a)%Z)
               (fold_left
                  (fun counts word =>
                     JsMap.set counts word
                       (match JsMap.get counts word with
                        | Some k => if (k =? 0)%Z then 0 else k
                        | None => 0
                        end + 1)%Z)
                  words ([] : JsMap.t Z)))) ->
  ranked snd r
  /\ NoDup (map fst r)
  /\ (forall w k, In (w, k) r ->
                  In w words /\ k = occurrences w words /\ (1 <= k)%Z)
  /\ (forall w, In w words -> ~ In w (map fst r) ->
                forall e, In e r -> (occurrences w words <= snd e)%Z).
Proof.
  intros [n ->].
  set (step := fun (counts : JsMap.t Z) (word : string) =>
                 JsMap.set counts word
                   (match JsMap.get counts word with
                    | Some k => if (k =? 0)%Z then 0 else k
                    | None => 0
                    end + 1)%Z).
  set (m := fold_left step words ([] : JsMap.t Z)).
  assert (NoDup (JsMap.keys m)) as Hnd
      by (apply tally_keys; constructor).
  assert (forall w, JsMap.get m w
                    = if (occurrences w words =? 0)%Z then None
                      else Some (occurrences w words)) as Hget.
  { intros w. unfold m, step. now rewrite tally_get. }
  assert (forall w, In w words <-> (1 <= occurrences w words)%Z) as Hocc.
  { intros w. unfold occurrences.
    rewrite (count_occ_In string_dec). lia. }
  assert (forall w k, In (w, k) m ->
                      In w words /\ k = occurrences w words /\ (1 <= k)%Z)
    as Hentry.
  { intros w k Hin. apply (NoDup_keys_get _ _ _ Hnd) in Hin.
    rewrite Hget in Hin.
    destruct (Z.eqb_spec (occurrences w words) 0) as [| Hne];
      [discriminate |].
    injection Hin as <-.
    assert (1 <= occurrences w words)%Z
      by (unfold occurrences in *; lia).
    split; [now apply Hocc | split; [reflexivity | assumption]]. }
  destruct (top_sorted (@snd string Z) n m) as (_ & Hr & Hin & Htop & _).
  split; [exact Hr |]. split; [| split].
  - rewrite <- firstn_map. apply NoDup_firstn.
    apply (Permutation_NoDup
             (Permutation_sym (Permutation_map fst (sort_perm _ m)))).
    exact Hnd.
  - intros w k Hwk. apply Hentry. now apply Hin.
  - intros w Hw Hnot e He.
    assert (In (w, occurrences w words) m) as Hm.
    { apply get_Some_In. rewrite Hget.
      apply Hocc in Hw.
      destruct (Z.eqb_spec (occurrences w words) 0); [lia | reflexivity]. }
    apply (Htop e (w, occurrences w words) He Hm).
    intros Hin'. apply Hnot. now apply (in_map fst) in Hin'.
Qed.

(** The central notes are at most ten cached paths, each with the sizes
    of its two adjacency sets added up, most connected first; a note left
    out has no more connections than any note listed. *)
Theorem central_notes_are_the_most_connected (c : Client) :
  let connections k :=
    (set_size (backlinksGraph c) k + set_size (linkGraph c) k)%Z in
  let top := centralNotes (analyzeLinkNetwork c) in
  (List.length top <= 10)%nat
  /\ ranked snd top
  /\ (forall k n, In (k, n) top ->
                  In k (JsMap.keys (noteCache c)) /\ n = connections k)
  /\ (forall k, In k (JsMap.keys (noteCache c)) ->
                ~ In (k, connections k) top ->
                forall e, In e top -> (connections k <= snd e)%Z)
  /\ ((List.length (noteCache c) <= 10)%nat ->
      Permutation (map fst top) (JsMap.keys (noteCache c))).
Proof.
  intros connections top.
  set (l := map (fun notePath => (notePath, connections notePath))
                (JsMap.keys (noteCache c))).
  assert (top = firstn 10 (sort (fun a b => (snd b - snd a)%Z) l)) as ->
      by reflexivity.
  destruct (top_sorted (@snd string Z) 10 l)
    as (Hlen & Hr & Hin & Htop & Hall).
  split; [exact Hlen |]. split; [exact Hr |]. split; [| split].
  - intros k n Hkn. apply Hin in Hkn. unfold l in Hkn.
    apply in_map_iff in Hkn. destruct Hkn as (k' & [= -> <-] & Hk).
    now split.
  - intros k Hk Hnot e He. apply (Htop e (k, connections k) He); [| exact Hnot].
    unfold l. apply in_map_iff. now exists k.
  - intros Hsmall.
    assert (List.length l <= 10)%nat as Hl.
    { unfold l, JsMap.keys. now rewrite !length_map. }
    rewrite (Permutation_map fst (Hall Hl)).
    unfold l. rewrite map_map. cbn [fst]. now rewrite map_id.
Qed.

(** The most used tags: at most [n] distinct tags, each with the number
    of its occurrences in the tag lists of the cached notes, most used
    first; a tag left out is used no more often than any tag listed. *)
Theorem most_used_tags_are_counted (c : Client) (n : nat) :
  let all := flat_map tags (JsMap.values (noteCache c)) in
  let top := getMostUsedTags c n in
  (List.length top <= n)%nat
  /\ ranked snd top
  /\ NoDup (map fst top)
  /\ (forall t k, In (t, k) top ->
                  In t all /\ k = occurrences t all /\ (1 <= k)%Z)
  /\ (forall t, In t all -> ~ In t (map fst top) ->
                forall e, In e top -> (occurrences t all <= snd e)%Z).
Proof.
  intros all top.
  assert (top = firstn n
                  (sort (fun a b => (snd b - snd a)%Z)
                     (fold_left
                        (fun counts word =>
                           JsMap.set counts word
                             (match JsMap.get counts word with
                              | Some k => if (k =? 0)%Z then 0 else k
                              | None => 0
                              end + 1)%Z)
                        all ([] : JsMap.t Z)))) as Htop.
  { unfold top, getMostUsedTags, all. now rewrite fold_left_flat_map. }
  split; [rewrite Htop; apply firstn_le_length |].
  apply top_of_tally. now exists n.
Qed.

(** The extracted concepts: distinct words of more than three characters,
    each with the number of its occurrences among such words of the
    text, most frequent first, and no more than a non-negative
    [maxConcepts] of them. *)
Theorem concepts_are_counted (text : string) (maxConcepts : Z) :
  let words :=
    filter (fun word => (3 <? String.length word)%nat)
      (Text.split_spaces (Text.blank_non_word (toLowerCase text))) in
  let top := extractBasicConcepts text maxConcepts in
  ranked snd top
  /\ NoDup (map fst top)
  /\ (forall w k, In (w, k) top ->
                  (3 < String.length w)%nat
                  /\ k = occurrences w words /\ (1 <= k)%Z)
  /\ (forall w, In w words -> ~ In w (map fst top) ->
                forall e, In e top -> (occurrences w words <= snd e)%Z)
  /\ ((0 <= maxConcepts)%Z -> (Z.of_nat (List.length top) <= maxConcepts)%Z).
Proof.
  intros words top.
  assert (exists n,
             top = firstn n
                     (sort (fun a b => (snd b - snd a)%Z)
                        (fold_left
                           (fun counts word =>
                              JsMap.set counts word
                                (match JsMap.get counts word with
                                 | Some k => if (k =? 0)%Z then 0 else k
                                 | None => 0
                                 end + 1)%Z)
                           words ([] : JsMap.t Z)))) as Htop.
  { unfold top, extractBasicConcepts, slice0. fold words.
    destruct (maxConcepts <? 0)%Z; eexists; reflexivity. }
  destruct (top_of_tally words top Htop) as (Hr & Hnd & Hentry & Hrest).
  split; [exact Hr |]. split; [exact Hnd |]. split; [| split].
  - intros w k Hwk. destruct (Hentry w k Hwk) as (Hw & Hk & Hpos).
    split; [| now split].
    unfold words in Hw. apply filter_In in Hw. destruct Hw as [_ Hw].
    now apply Nat.ltb_lt in Hw.
  - exact Hrest.
  - intros Hmax. unfold top, extractBasicConcepts, slice0.
    destruct (Z.ltb_spec maxConcepts 0); [lia |].
    match goal with
    | |- context [firstn ?n ?l] => pose proof (firstn_le_length n l)
    end.
    lia.
Qed.

End Rankings.

(* ================================================================== *)
(** ** What the parser extracts *)
(* ================================================================== *)

Section Parsing.

Lemma NoDup_add (s : JsSet.t) (x : string) : NoDup s -> NoDup (JsSet.add s x).
Proof.
  intros H. unfold JsSet.add. destruct (JsSet.has s x) eqn:E; [exact H |].
  apply (Permutation_NoDup (Permutation_cons_append s x)).
  constructor; [| exact H].
  intros Hin. apply set_has_In in Hin. congruence.
Qed.

Lemma fold_add_spec (l : list string) (s : JsSet.t) :
  NoDup s ->
  NoDup (fold_left JsSet.add l s)
  /\ (forall x, In x (fold_left JsSet.add l s) <-> In x s \/ In x l).
Proof.
  revert s. induction l as [|y l IH]; intros s Hs; simpl.
  - split; [exact Hs | intuition].
  - destruct (IH _ (NoDup_add s y Hs)) as [Hnd Hin]. split; [exact Hnd |].
    intros x. rewrite Hin, In_add. intuition congruence.
Qed.

Lemma of_list_spec (l : list string) :
  NoDup (JsSet.of_list l) /\ (forall x, In x (JsSet.of_list l) <-> In x l).
Proof.
  destruct (fold_add_spec l [] (NoDup_nil _)) as [Hnd Hin].
  split; [exact Hnd |]. intros x. unfold JsSet.of_list. rewrite Hin.
  simpl. intuition.
Qed.

Lemma exec_all_Forall {A : Type} (m : Scan.matcher A) (Q : A -> Prop) :
  (forall s cap rest, m s = Some (cap, rest) -> Q cap) ->
  forall s skip, Forall Q (Scan.exec_all m skip s).
Proof.
  intros Hm. induction s as [|c s IH]; intros skip; simpl; [constructor |].
  destruct skip as [|k]; [| apply IH].
  destruct (m (String c s)) as [[cap rest]|] eqn:E; [| apply IH].
  constructor; [now apply (Hm _ _ _ E) | apply IH].
Qed.

Lemma exec_all_none {A : Type} (m : Scan.matcher A) (p : string -> Prop) :
  (forall c s, p (String c s) -> p s) ->
  (forall s, p s -> m s = None) ->
  forall s skip, p s -> Scan.exec_all m skip s = [].
Proof.
  intros Htail Hm. induction s as [|c s IH]; intros skip Hp; simpl;
    [reflexivity |].
  destruct skip as [|k]; [| apply IH; eauto].
  rewrite (Hm _ Hp). apply IH; eauto.
Qed.

Lemma span_all (p : ascii -> bool) (s run rest : string) :
  Scan.span p s = (run, rest) -> all_chars p run.
Proof.
  revert run rest. induction s as [|c s IH]; intros run rest; simpl.
  - intros [= <- <-]. exact I.
  - destruct (p c) eqn:E.
    + destruct (Scan.span p s) as [run' rest'] eqn:Es.
      intros [= <- <-]. split; [exact E | eapply IH; reflexivity].
    + intros [= <- <-]. exact I.
Qed.

Lemma eqb_empty_false (s : string) : (s =? "") = false -> s <> "".
Proof. intros H ->. discriminate H. Qed.

Lemma wikiLinkRegex_nonempty (s cap rest : string) :
  Scan.wikiLinkRegex s = Some (cap, rest) -> cap <> "".
Proof.
  unfold Scan.wikiLinkRegex. destruct (startsWith s "[["); [| discriminate].
  destruct (Scan.span _ (sliceFrom 2 s)) as [target r1].
  destruct (target =? "") eqn:E; [discriminate |].
  destruct (startsWith _ "]]"); [| discriminate].
  intros [= <- _]. now apply eqb_empty_false.
Qed.

Lemma mdLinkRegex_nonempty (s : string) (cap : string * string)
  (rest : string) :
  Scan.mdLinkRegex s = Some (cap, rest) -> snd cap <> "".
Proof.
  unfold Scan.mdLinkRegex. destruct (startsWith s "["); [| discriminate].
  destruct (Scan.span _ (sliceFrom 1 s)) as [text r1].
  destruct (text =? ""); [discriminate |].
  destruct (startsWith r1 "]("); [| discriminate].
  destruct (Scan.span _ (sliceFrom 2 r1)) as [target r2].
  destruct (target =? "") eqn:E; [discriminate |].
  destruct (startsWith r2 ")"); [| discriminate].
  intros [= <- _]. now apply eqb_empty_false.
Qed.

Lemma embedRegex_nonempty (s cap rest : string) :
  Scan.embedRegex s = Some (cap, rest) -> cap <> "".
Proof.
  unfold Scan.embedRegex. destruct (startsWith s "![["); [| discriminate].
  destruct (Scan.span _ (sliceFrom 3 s)) as [target r1].
  destruct (target =? "") eqn:E; [discriminate |].
  destruct (startsWith r1 "]]"); [| discriminate].
  intros [= <- _]. now apply eqb_empty_false.
Qed.

Lemma inlineTagRegex_token (s cap rest : string) :
  Scan.inlineTagRegex s = Some (cap, rest) -> tag_token cap.
Proof.
  unfold Scan.inlineTagRegex. destruct (startsWith s "#"); [| discriminate].
  destruct (Scan.span _ (sliceFrom 1 s)) as [tag r1] eqn:Es.
  destruct (tag =? "") eqn:E; [discriminate |].
  intros [= <- _]. split; [now apply eqb_empty_false |].
  exact (span_all _ _ _ _ Es).
Qed.

Lemma bracket_free_prefix (s p : string) (c : ascii) :
  bracket_free s -> String.prefix (String c p) s = true -> c <> "["%char.
Proof.
  destruct s as [|d s]; simpl; [discriminate |].
  intros [Hd _]. destruct (ascii_dec c d) as [-> | _]; [| discriminate].
  intros _. exact Hd.
Qed.

End Parsing.

Section Parsed.
Context {P : Platform}.

(** The links of a text are distinct and none is empty; a text without
    an opening bracket has none. *)
Theorem links_are_distinct_and_nonempty (text : string) :
  NoDup (parseMarkdown text)
  /\ ~ In "" (parseMarkdown text)
  /\ (bracket_free text -> parseMarkdown text = []).
Proof.
  unfold parseMarkdown.
  match goal with
  | |- context [JsSet.of_list ?l] =>
      destruct (of_list_spec l) as [Hnd Hin]; set (found := l) in *
  end.
  split; [exact Hnd |]. split.
  - rewrite Hin. unfold found. rewrite !in_app_iff.
    intros [H | [H | H]].
    + pose proof (exec_all_Forall Scan.wikiLinkRegex (fun l => l <> "")
                    wikiLinkRegex_nonempty text 0) as Hall.
      rewrite Forall_forall in Hall. now apply (Hall _ H).
    + apply in_map_iff in H. destruct H as (m & Hm & H).
      apply filter_In in H. destruct H as [H _].
      pose proof (exec_all_Forall Scan.mdLinkRegex (fun m => snd m <> "")
                    mdLinkRegex_nonempty text 0) as Hall.
      rewrite Forall_forall in Hall. now apply (Hall _ H).
    + pose proof (exec_all_Forall Scan.embedRegex (fun l => l <> "")
                    embedRegex_nonempty text 0) as Hall.
      rewrite Forall_forall in Hall. now apply (Hall _ H).
  - intros Hfree.
    assert (forall c s, bracket_free (String c s) -> bracket_free s) as Htail
        by (intros c s [_ H]; exact H).
    unfold found.
    rewrite (exec_all_none Scan.wikiLinkRegex bracket_free Htail),
            (exec_all_none Scan.mdLinkRegex bracket_free Htail),
            (exec_all_none Scan.embedRegex bracket_free Htail);
      try exact Hfree; [reflexivity | | |].
    + intros s Hs. unfold Scan.embedRegex, startsWith.
      destruct (String.prefix "![[" s) eqn:E; [| reflexivity].
      destruct s as [|c s]; [discriminate |]. cbn [String.prefix] in E.
      destruct (ascii_dec "!" c) as [<- | _]; [| discriminate].
      destruct Hs as [_ Hs].
      now elim (bracket_free_prefix _ _ _ Hs E).
    + intros s Hs. unfold Scan.mdLinkRegex, startsWith.
      destruct (String.prefix "[" s) eqn:E; [| reflexivity].
      now elim (bracket_free_prefix _ _ _ Hs E).
    + intros s Hs. unfold Scan.wikiLinkRegex, startsWith.
      destruct (String.prefix "[[" s) eqn:E; [| reflexivity].
      now elim (bracket_free_prefix _ _ _ Hs E).
Qed.

(** The tags of a note are distinct.  An array of tags in the front
    matter is taken over as it is, a single non-empty string as one tag;
    every other tag is an inline tag of the body, a non-empty run of
    letters, digits, underscores, slashes and hyphens. *)
Theorem tags_are_distinct (text : string) (fm : Frontmatter) :
  NoDup (extractTags text fm)
  /\ (forall t, In t (extractTags text fm) ->
                match fm_get fm "tags" with
                | Some (FmArray items) => In t items
                | Some (FmString s) => t = s
                | None => False
                end
                \/ tag_token t)
  /\ match fm_get fm "tags" with
     | Some (FmArray items) => forall t, In t items -> In t (extractTags text fm)
     | Some (FmString s) => s <> "" -> In s (extractTags text fm)
     | None => True
     end.
Proof.
  unfold extractTags.
  match goal with
  | |- context [JsSet.of_list ?l] => destruct (of_list_spec l) as [Hnd Hin]
  end.
  split; [exact Hnd |]. split.
  - intros t Ht. apply Hin in Ht. apply in_app_or in Ht.
    destruct Ht as [Ht | Ht].
    + left. destruct (fm_get fm "tags") as [[s | items]|];
        [| exact Ht | contradiction].
      destruct (s =? ""); [contradiction |].
      destruct Ht as [<- | []]. reflexivity.
    + right.
      pose proof (exec_all_Forall Scan.inlineTagRegex tag_token
                    inlineTagRegex_token text 0) as Hall.
      rewrite Forall_forall in Hall. now apply Hall.
  - destruct (fm_get fm "tags") as [[s | items]|]; [| | exact I].
    + intros Hs. apply Hin. apply in_or_app. left.
      destruct (String.eqb_spec s ""); [contradiction | now left].
    + intros t Ht. apply Hin. apply in_or_app. now left.
Qed.

End Parsed.

Section WordCount.
Context {P : Platform}.

Lemma count_space_runs_nonneg (r : bool) (s : string) :
  (0 <= Scan.count_space_runs r s)%Z.
Proof.
  revert r. induction s as [|c s IH]; intros r; simpl; [lia |].
  destruct (Scan.is_space c).
  - specialize (IH true). destruct r; lia.
  - apply IH.
Qed.

Lemma split_spaces_from_length (r : bool) (s : string) :
  Z.of_nat (List.length (Text.split_spaces_from r s))
  = (1 + Scan.count_space_runs r s)%Z.
Proof.
  revert r. induction s as [|c s IH]; intros r; [reflexivity |].
  cbn [Text.split_spaces_from Scan.count_space_runs].
  destruct (Scan.is_space c).
  - destruct r; [rewrite IH; lia |].
    cbn [List.length]. rewrite Nat2Z.inj_succ, IH. lia.
  - specialize (IH false).
    pose proof (count_space_runs_nonneg false s).
    destruct (Text.split_spaces_from false s) as [|h t];
      cbn [List.length] in *; lia.
Qed.

Lemma act_all_derived (vault : string) (d : FS) (actions : list Action) :
  all_derived (client (act_all actions (new_world vault d))).
Proof.
  apply act_all_inv.
  - apply all_derived_upsert.
  - apply all_derived_rebuild.
  - intros c Hc. exact Hc.
  - apply all_derived_purge.
  - constructor.
Qed.

(** Whatever happens to a client, the word count of a cached note is the
    number of pieces its body falls into at the runs of white space, and
    so at least one, also for an empty body. *)
Theorem word_count_is_positive (vault : string) (d : FS)
  (actions : list Action) (k : string) (n : VaultNote) :
  JsMap.get (noteCache (client (act_all actions (new_world vault d)))) k
  = Some n ->
  wordCount n = Z.of_nat (List.length (Text.split_spaces (content n)))
  /\ (1 <= wordCount n)%Z
  /\ (content n = "" -> wordCount n = 1%Z).
Proof.
  intros Hget.
  pose proof (act_all_derived vault d actions) as H.
  unfold all_derived in H. rewrite Forall_forall in H.
  destruct (H _ (get_Some_In _ _ _ Hget)) as (_ & _ & _ & _ & Hwc).
  cbn [fst snd] in Hwc. rewrite Hwc. unfold Scan.split_spaces_length.
  split; [| split].
  - unfold Text.split_spaces. now rewrite split_spaces_from_length.
  - pose proof (count_space_runs_nonneg false (content n)). lia.
  - now intros ->.
Qed.

End WordCount.

(** Witness: the note [b.md] of the two linked notes. *)
Lemma word_count_is_positive_witness :
  wordCount Cases.b_note
  = Z.of_nat (List.length (Text.split_spaces (content Cases.b_note)))
  /\ (1 <= wordCount Cases.b_note)%Z
  /\ (content Cases.b_note = "" -> wordCount Cases.b_note = 1%Z).
Proof.
  apply (word_count_is_positive (P := Mem.platform) "/vault"
           Mem.empty_vault Cases.two_linked_actions "b.md" Cases.b_note).
  vm_compute. reflexivity.
Defined.

(* ================================================================== *)
(** ** Searching *)
(* ================================================================== *)

Section Searching.
Context {P : Platform}.

Lemma slice0_length {A : Type} (l : list A) (n : Z) :
  (0 <= n)%Z -> (Z.of_nat (List.length (slice0 l n)) <= n)%Z.
Proof.
  intros Hn. unfold slice0. destruct (Z.ltb_spec n 0); [lia |].
  pose proof (firstn_le_length (Z.to_nat n) l). lia.
Qed.

Lemma slice0_In {A : Type} (l : list A) (n : Z) (x : A) :
  In x (slice0 l n) -> In x l.
Proof.
  unfold slice0. destruct (n <? 0)%Z; intros H;
    match type of H with
    | In _ (firstn ?k _) => rewrite <- (firstn_skipn k l)
    end; apply in_or_app; now left.
Qed.

(** A search never throws and changes nothing but the search index,
    which it builds when there is none: disk, cache, graphs and log stay
    as they are.  A positive limit bounds the number of results, a
    non-empty list of tags keeps the results carrying one of them, and
    the [includeContent] option has no effect. *)
Theorem search_is_bounded_and_read_only (query : string)
  (options : option SearchOptions) (w : World) :
  exists results,
    snd (searchNotes query options w) = Ok results
    /\ (let w' := fst (searchNotes query options w) in
        disk w' = disk w /\ logged w' = logged w
        /\ noteCache (client w') = noteCache (client w)
        /\ linkGraph (client w') = linkGraph (client w)
        /\ backlinksGraph (client w') = backlinksGraph (client w)
        /\ searchIndex (client w')
           = match searchIndex (client w) with
             | Some index => Some index
             | None => Some (JsMap.values (noteCache (client w)))
             end)
    /\ (forall o n, options = Some o -> limit o = Some n -> (0 < n)%Z ->
                    (Z.of_nat (List.length results) <= n)%Z)
    /\ (forall o ts, options = Some o -> opt_tags o = Some ts -> ts <> [] ->
                     forall r, In r results ->
                               exists t, In t ts /\ In t (tags (note r)))
    /\ (forall o b,
          options = Some o ->
          searchNotes query options w
          = searchNotes query
              (Some {| includeContent := b; opt_tags := opt_tags o;
                       limit := limit o |}) w).
Proof.
  unfold searchNotes, bind, this, mutate, run, ret.
  destruct (searchIndex (client w)) as [index|] eqn:Eix; cbn [fst snd client];
    eexists; (split; [reflexivity |]).
  all: split; [repeat split; try reflexivity; cbn; now rewrite ?Eix |].
  all: split; [| split].
  all: try (intros o b ->; destruct o; reflexivity).
  all: try (intros o n -> Hl Hn; destruct o as [ic ot lim];
            cbn [limit] in Hl; subst lim;
            destruct (Z.eqb_spec n 0); [lia |];
            apply slice0_length; lia).
  all: intros o ts -> Ht Hne r Hr; destruct o as [ic ot lim];
    cbn [opt_tags] in Ht; subst ot; destruct ts as [|t ts]; [congruence |];
    assert (In r (filter
                    (fun result =>
                       existsb (fun tag => existsb (String.eqb tag)
                                                   (tags (note result)))
                               (t :: ts))
                    (map (fun r0 =>
                            let '(item, sc, ms) := r0 in
                            {| note := item;
                               score := match sc with
                                        | Some x =>
                                            if score_is_zero x then score_zero
                                            else x
                                        | None => score_zero
                                        end;
                               matches := match ms with
                                          | Some m => m
                                          | None => []
                                          end |})
                         (fuse_search
                            match searchIndex
                                    (client
                                       (match searchIndex (client w) with
                                        | Some _ => w
                                        | None =>
                                            set_client w
                                              (rebuildSearchIndex (client w))
                                        end)) with
                            | Some ix => ix
                            | None => []
                            end query)))) as Hin.
  all: try (apply filter_In in Hin; destruct Hin as [_ Hin];
            apply existsb_exists in Hin; destruct Hin as (tag & Htag & Hin);
            apply existsb_exists in Hin; destruct Hin as (tag' & Htag' & Heq);
            apply String.eqb_eq in Heq; subst tag';
            exists tag; now split).
  all: rewrite Eix; cbn [client set_client rebuildSearchIndex with_index searchIndex];
    destruct lim as [n|]; [| exact Hr];
    destruct (n =? 0)%Z; [exact Hr | now apply slice0_In in Hr].
Qed.

End Searching.

(* ================================================================== *)
(** ** The path guard and the watcher, in general *)
(* ================================================================== *)

Section Guard.
Context {P : Platform}.

Lemma expandHome_plain (T : list string) :
  Forall plain_segment T -> hd "" T <> "~" ->
  expandHome (join "/" T) = join "/" T.
Proof.
  intros HT Hhd. unfold expandHome, startsWith.
  assert (String.prefix "~/" (join "/" T) = false
          /\ (join "/" T =? "~") = false) as [-> ->]; [| reflexivity].
  destruct T as [|x T]; [split; reflexivity |].
  apply Forall_cons_iff in HT. destruct HT as [(Hfree & Hne & _) _].
  cbn [hd] in Hhd.
  destruct x as [|c x]; [now elim Hne |].
  destruct Hfree as [Hc Hfree].
  destruct T as [|y T]; cbn [join append String.prefix].
  - split.
    + destruct (ascii_dec "~" c) as [<- | _]; [| reflexivity].
      destruct x as [|c' x]; [reflexivity |].
      destruct Hfree as [Hc' _]. cbn [String.prefix].
      destruct (ascii_dec "/" c') as [<- | _]; [| reflexivity].
      now elim Hc'.
    + apply String.eqb_neq. exact Hhd.
  - split.
    + destruct (ascii_dec "~" c) as [<- | _]; [| reflexivity].
      destruct x as [|c' x]; [now elim Hhd |].
      destruct Hfree as [Hc' _]. cbn [append String.prefix].
      destruct (ascii_dec "/" c') as [<- | _]; [| reflexivity].
      now elim Hc'.
    + apply String.eqb_neq. intros [= _ H].
      destruct x; discriminate H.
Qed.

(** A relative path made of non-empty segments, none of which begins
    with a dot, and which does not begin with a tilde segment, is
    accepted and resolves to the path of the same segments below the
    resolved vault path. *)
Theorem visible_relative_paths_are_accepted (vault : string)
  (T : list string) :
  PosixPath.isAbsolute process_cwd = true ->
  T <> [] ->
  Forall (fun s => sep_free s /\ s <> "" /\ startsWith s "." = false) T ->
  hd "" T <> "~" ->
  let c := new_client vault in
  let root := PosixPath.resolve process_cwd [vaultPath c] in
  validatePath c (join "/" T)
  = Ok ((if root =? "/" then "" else root) ++ "/" ++ join "/" T).
Proof.
  intros Hcwd Hne HT Hhd.
  assert (Forall plain_segment T) as Hplain.
  { eapply Forall_impl; [| exact HT].
    intros s (Hfree & Hs & Hdot). repeat split; try assumption;
      intros ->; discriminate Hdot. }
  apply plain_relative_accepted; try assumption.
  - clear Hne Hhd Hplain. induction HT as [|s T (_ & _ & Hs) _ IH];
      [reflexivity |].
    cbn [existsb]. now rewrite Hs, IH.
  - now apply expandHome_plain.
Qed.

(** The two outcomes of the guard.  An accepted path has no segment
    beginning with a dot; what is returned is the resolved path, and its
    normalised lower-case form begins with an allowed directory.  A
    rejection is always an access-denied error, the hidden-path one
    exactly when some segment begins with a dot. *)
Theorem guard_outcomes (c : Client) (requestedPath : string) :
  let hidden :=
    existsb (fun part => startsWith part ".") (split PosixPath.sep requestedPath) in
  match validatePath c requestedPath with
  | Ok absolute =>
      hidden = false
      /\ absolute
         = PosixPath.resolve process_cwd
             (if PosixPath.isAbsolute (expandHome requestedPath)
              then [expandHome requestedPath]
              else [vaultPath c; expandHome requestedPath])
      /\ exists dir, In dir (allowedDirectories c)
                     /\ startsWith (toLowerCase (PosixPath.normalize absolute)) dir
                        = true
  | Err e =>
      is_access_denied e = true
      /\ (e = AccessDeniedHidden <-> hidden = true)
  end.
Proof.
  intros hidden. subst hidden. unfold validatePath.
  destruct (existsb _ (split PosixPath.sep requestedPath)).
  { split; [reflexivity | tauto]. }
  match goal with
  | |- context [negb ?b] => destruct b eqn:E
  end; cbn [negb].
  - split; [reflexivity |]. split.
    + now destruct (PosixPath.isAbsolute (expandHome requestedPath)).
    + apply existsb_exists in E. destruct E as (dir & Hdir & E).
      exists dir. split; [exact Hdir | exact E].
  - split; [reflexivity |]. split; [discriminate | discriminate].
Qed.

End Guard.

(** Witness: [notes/sub/a.md] below the vault [/vault]. *)
Lemma visible_relative_paths_are_accepted_witness :
  validatePath (P := Mem.platform) (new_client (P := Mem.platform) "/vault")
    "notes/sub/a.md"
  = Ok "/vault/notes/sub/a.md".
Proof.
  apply (visible_relative_paths_are_accepted (P := Mem.platform) "/vault"
           ["notes"; "sub"; "a.md"]).
  - reflexivity.
  - discriminate.
  - repeat constructor; unfold PosixPath.sep; discriminate.
  - discriminate.
Defined.

Section Watcher.
Context {P : Platform}.

(** A watcher event never throws and never touches the disk.  An event
    for a file that is not a markdown file changes nothing.  An added or
    changed markdown file refreshes at most its own cache entry and
    leaves both graphs as they were; a deleted one is purged from the
    cache and from the adjacency sets.  In both cases the search index
    is rebuilt from the cache. *)
Theorem watcher_events (filePath : string) (event : WatchEvent) (w : World) :
  let w' := fst (handleFileChange filePath event w) in
  let c := client w in
  let c' := client w' in
  let relativePath := relative_to_vault c filePath in
  snd (handleFileChange filePath event w) = Ok tt
  /\ disk w' = disk w
  /\ (endsWith filePath ".md" = false -> w' = w)
  /\ (endsWith filePath ".md" = true ->
      searchIndex c' = Some (JsMap.values (noteCache c'))
      /\ match event with
         | EvDelete =>
             JsMap.get (noteCache c') relativePath = None
             /\ (forall k, ~ In relativePath (getForwardLinks c' k))
             /\ (forall k, ~ In relativePath (set_at (backlinksGraph c') k))
             /\ (forall k, k <> relativePath ->
                           JsMap.get (noteCache c') k
                           = JsMap.get (noteCache c) k)
         | EvAdd | EvChange =>
             linkGraph c' = linkGraph c
             /\ backlinksGraph c' = backlinksGraph c
             /\ (forall k, k <> relativePath ->
                           JsMap.get (noteCache c') k
                           = JsMap.get (noteCache c) k)
         end).
Proof.
  intros w' c c' relativePath.
  split; [apply handleFileChange_returns |].
  subst w' c c' relativePath. unfold handleFileChange.
  destruct (endsWith filePath ".md"); cbn [negb];
    [| split; [reflexivity |]; split; [reflexivity | discriminate]].
  unfold try_catch, bind, this, mutate, run, updateCacheEntry.
  assert (forall (m : JsMap.t VaultNote) r note k,
             k <> r -> JsMap.get (JsMap.set m r note) k = JsMap.get m k)
    as Hother.
  { intros m r note k Hk. rewrite get_set. apply String.eqb_neq in Hk.
    now rewrite String.eqb_sym, Hk. }
  split; [| split; [discriminate |]].
  { destruct event; cbn [fst];
      try (destruct (load_note _ _ _)); reflexivity. }
  intros _.
  destruct event; cbn [fst client set_client].
  - destruct (load_note _ _ _) eqn:El;
      cbn [client set_client log rebuildSearchIndex with_index
             with_cache searchIndex noteCache linkGraph backlinksGraph];
      repeat (split; [reflexivity |]); intros k Hk;
      [now apply Hother | reflexivity].
  - destruct (load_note _ _ _) eqn:El;
      cbn [client set_client log rebuildSearchIndex with_index
             with_cache searchIndex noteCache linkGraph backlinksGraph];
      repeat (split; [reflexivity |]); intros k Hk;
      [now apply Hother | reflexivity].
  - split; [reflexivity |].
    pose proof (removeFromCache_purges
                  (relative_to_vault (client w) filePath) (client w))
      as (Hgone & Hfw & Hbw).
    unfold getForwardLinks in *.
    cbn [rebuildSearchIndex with_index noteCache linkGraph backlinksGraph].
    split; [exact Hgone |]. split; [exact Hfw |]. split; [exact Hbw |].
    intros k Hk.
    cbn [noteCache removeFromCache with_graphs].
    rewrite get_delete. apply String.eqb_neq in Hk.
    now rewrite String.eqb_sym, Hk.
Qed.

End Watcher.

(* ================================================================== *)
(** ** The directory walk and the initialisation *)
(* ================================================================== *)

Section Walking.
Context {P : Platform}.

Lemma findMarkdownFiles_step (fuel : nat) (d : FS) (dir : string) :
  findMarkdownFiles (S fuel) d dir
  = match fs_readdir d dir with
    | None => Some (Err FsError)
    | Some entries =>
        fold_left (walk_step (findMarkdownFiles fuel d) dir) entries
                  (Some (Ok []))
    end.
Proof. reflexivity. Qed.

Lemma walk_fold_stuck (walk : string -> option (Result (list string)))
  (dir : string) (entries : list Dirent) (acc : option (Result (list string))) :
  (forall files, acc <> Some (Ok files)) ->
  fold_left (walk_step walk dir) entries acc = acc.
Proof.
  intros Hacc. induction entries as [|e entries IH]; [reflexivity |].
  cbn [fold_left].
  assert (walk_step walk dir acc e = acc) as ->; [| exact IH].
  destruct acc as [[files | err]|]; try reflexivity. now elim (Hacc files).
Qed.

Lemma walk_fold (walk : string -> option (Result (list string)))
  (dir : string) (entries : list Dirent) (acc files : list string) :
  fold_left (walk_step walk dir) entries (Some (Ok acc)) = Some (Ok files) ->
  forall f,
    In f files
    <-> In f acc
        \/ exists entry,
             In entry entries
             /\ startsWith (d_name entry) "." = false
             /\ ((d_isDirectory entry = true
                  /\ exists sub,
                       walk (PosixPath.join_paths [dir; d_name entry])
                       = Some (Ok sub) /\ In f sub)
                 \/ (d_isDirectory entry = false
                     /\ d_isFile entry = true
                     /\ endsWith (d_name entry) ".md" = true
                     /\ f = PosixPath.join_paths [dir; d_name entry])).
Proof.
  revert acc. induction entries as [|e entries IH]; intros acc Hfold f.
  - injection Hfold as <-. split; [now left |].
    intros [H | (entry & [] & _)]. exact H.
  - cbn [fold_left] in Hfold. unfold walk_step at 2 in Hfold.
    cbv zeta in Hfold.
    destruct (startsWith (d_name e) ".") eqn:Ehid.
    { rewrite (IH _ Hfold f). split.
      - intros [H | (entry & Hin & Hrest)]; [now left |].
        right. exists entry. split; [now right | exact Hrest].
      - intros [H | (entry & [<- | Hin] & Hvis & Hrest)]; [now left | |].
        + congruence.
        + right. now exists entry. }
    destruct (d_isDirectory e) eqn:Edir.
    { destruct (walk (PosixPath.join_paths [dir; d_name e]))
        as [[sub | err]|] eqn:Ew.
      - rewrite (IH _ Hfold f), in_app_iff. split.
        + intros [[H | H] | (entry & Hin & Hrest)].
          * now left.
          * right. exists e. split; [now left |]. split; [exact Ehid |].
            left. split; [exact Edir |]. now exists sub.
          * right. exists entry. split; [now right | exact Hrest].
        + intros [H | (entry & [<- | Hin] & Hvis & Hrest)].
          * left. now left.
          * destruct Hrest as [(_ & sub' & Hsub & Hf) | (Hd & _)];
              [| congruence].
            left. right. congruence.
          * right. now exists entry.
      - rewrite walk_fold_stuck in Hfold by discriminate. discriminate.
      - rewrite walk_fold_stuck in Hfold by discriminate. discriminate. }
    destruct (d_isFile e && endsWith (d_name e) ".md") eqn:Emd.
    { apply andb_prop in Emd. destruct Emd as [Efile Emd].
      rewrite (IH _ Hfold f), in_app_iff. split.
      - intros [[H | [<- | []]] | (entry & Hin & Hrest)].
        + now left.
        + right. exists e. split; [now left |]. split; [exact Ehid |].
          right. now repeat split.
        + right. exists entry. split; [now right | exact Hrest].
      - intros [H | (entry & [<- | Hin] & Hvis & Hrest)].
        + left. now left.
        + destruct Hrest as [(Hd & _) | (_ & _ & _ & ->)]; [congruence |].
          left. right. now left.
        + right. now exists entry. }
    rewrite (IH _ Hfold f). split.
    + intros [H | (entry & Hin & Hrest)]; [now left |].
      right. exists entry. split; [now right | exact Hrest].
    + intros [H | (entry & [<- | Hin] & Hvis & Hrest)]; [now left | |].
      * destruct Hrest as [(Hd & _) | (_ & Hf & Hm & _)]; [congruence |].
        rewrite Hf, Hm in Emd. discriminate.
      * right. now exists entry.
Qed.

Lemma walk_fold_subdirs (walk : string -> option (Result (list string)))
  (dir : string) (entries : list Dirent) (acc files : list string) :
  fold_left (walk_step walk dir) entries (Some (Ok acc)) = Some (Ok files) ->
  forall entry,
    In entry entries -> startsWith (d_name entry) "." = false ->
    d_isDirectory entry = true ->
    exists sub, walk (PosixPath.join_paths [dir; d_name entry]) = Some (Ok sub).
Proof.
  revert acc. induction entries as [|e entries IH]; intros acc Hfold entry;
    [contradiction |].
  cbn [fold_left] in Hfold. intros [<- | Hin] Hvis Hdir.
  - unfold walk_step at 2 in Hfold. cbv zeta in Hfold.
    rewrite Hvis, Hdir in Hfold.
    destruct (walk (PosixPath.join_paths [dir; d_name e]))
      as [[sub | err]|]; [now exists sub | |];
      rewrite walk_fold_stuck in Hfold by discriminate; discriminate.
  - destruct (walk_step walk dir (Some (Ok acc)) e) as [[files' | err]|] eqn:E.
    + exact (IH _ Hfold entry Hin Hvis Hdir).
    + rewrite walk_fold_stuck in Hfold by discriminate. discriminate.
    + rewrite walk_fold_stuck in Hfold by discriminate. discriminate.
Qed.

(** A walk that succeeds returns exactly the regular files named [*.md]
    that can be reached from the directory without passing a name that
    begins with a dot. *)
Theorem walk_finds_the_visible_markdown_files (fuel : nat) (d : FS)
  (dir : string) (files : list string) :
  findMarkdownFiles fuel d dir = Some (Ok files) ->
  forall f, In f files <-> found_below d dir f.
Proof.
  intros Hwalk f. split.
  - revert dir files Hwalk f.
    induction fuel as [|fuel IH]; intros dir files Hwalk f Hf;
      [discriminate |].
    rewrite findMarkdownFiles_step in Hwalk.
    destruct (fs_readdir d dir) as [entries|] eqn:Erd; [| discriminate].
    apply (walk_fold _ _ _ _ _ Hwalk f) in Hf.
    destruct Hf as [[] | (entry & Hin & Hvis & Hcase)].
    destruct Hcase as [(Hdir & sub & Hsub & Hf) | (Hdir & Hfile & Hmd & ->)].
    + eapply found_deeper; eauto.
    + eapply found_here; eauto.
  - intros Hfound. revert fuel files Hwalk.
    induction Hfound as [dir entries entry Hrd Hin Hvis Hdir Hfile Hmd
                        | dir entries entry f Hrd Hin Hvis Hdir Hsub IH];
      intros fuel files Hwalk;
      (destruct fuel as [|fuel]; [discriminate |]);
      rewrite findMarkdownFiles_step, Hrd in Hwalk.
    + apply (walk_fold _ _ _ _ _ Hwalk). right. exists entry.
      split; [exact Hin |]. split; [exact Hvis |]. right. now repeat split.
    + destruct (walk_fold_subdirs _ _ _ _ _ Hwalk entry Hin Hvis Hdir)
        as (sub & Esub).
      apply (walk_fold _ _ _ _ _ Hwalk). right. exists entry.
      split; [exact Hin |]. split; [exact Hvis |]. left.
      split; [exact Hdir |]. exists sub. split; [exact Esub |].
      exact (IH _ _ Esub).
Qed.

End Walking.

(** Witness: the walk of a vault with a hidden folder and a sub-folder
    lists [sub/b.md]. *)
Lemma walk_finds_the_visible_markdown_files_witness :
  In "/vault/sub/b.md" ["/vault/a.md"; "/vault/sub/b.md"]
  <-> found_below (P := Mem.platform) Cases.mixed_disk "/vault"
        "/vault/sub/b.md".
Proof.
  apply (walk_finds_the_visible_markdown_files (P := Mem.platform) 3
           Cases.mixed_disk "/vault" ["/vault/a.md"; "/vault/sub/b.md"]).
  vm_compute. reflexivity.
Defined.

Section Initialisation.
Context {P : Platform}.



End Initialisation.


Section Statistics.
Context {P : Platform}.

(** The statistics count every tag once, however many notes carry it;
    the average is not a number exactly for an empty cache; the recent
    notes are at most ten cached notes with their modification times,
    latest first, and a note left out is no more recent than any note
    listed. *)
Theorem statistics_tags_and_recent_notes (c : Client) :
  let notes := JsMap.values (noteCache c) in
  let s := getVaultStatistics c in
  totalTags s
  = Z.of_nat (List.length (nodup string_dec (flat_map tags notes)))
  /\ (averageWordsPerNote s = None <-> noteCache c = [])
  /\ (List.length (recentNotes s) <= 10)%nat
  /\ ranked snd (recentNotes s)
  /\ (forall e, In e (recentNotes s) ->
                exists note, In note notes
                             /\ e = (path note, lastModified note))
  /\ (forall note, In note notes ->
                   ~ In (path note, lastModified note) (recentNotes s) ->
                   forall e, In e (recentNotes s) ->
                             (lastModified note <= snd e)%Z).
Proof.
  intros notes s. subst s.
  cbn [getVaultStatistics totalTags averageWordsPerNote recentNotes].
  fold notes.
  destruct (top_sorted lastModified 10 notes) as (Hlen & Hr & Hin & Htop & _).
  set (top := firstn 10 (sort (fun a b => (lastModified b - lastModified a)%Z)
                              notes)) in *.
  split; [| split; [| split; [| split; [| split]]]].
  - f_equal. rewrite <- (fold_left_flat_map JsSet.add tags notes []).
    destruct (fold_add_spec (flat_map tags notes) [] (NoDup_nil _))
      as [Hnd Hmem].
    apply Permutation_length, NoDup_Permutation;
      [exact Hnd | apply NoDup_nodup |].
    intros t. rewrite Hmem, nodup_In. simpl. tauto.
  - unfold round_div, notes, JsMap.values.
    destruct (noteCache c) as [|kv m]; [now split |].
    cbn [map List.length]. split; [| discriminate].
    destruct (Z.eqb_spec (Z.of_nat (S (List.length (map snd m)))) 0);
      [lia | discriminate].
  - now rewrite length_map.
  - apply (ranked_map (@snd string Z)
             (fun note => (path note, lastModified note))).
    exact Hr.
  - intros e He. apply in_map_iff in He. destruct He as (note & <- & Hn).
    exists note. split; [now apply Hin | reflexivity].
  - intros note Hn Hnot e He.
    apply in_map_iff in He. destruct He as (n' & <- & Hn').
    cbn [snd]. apply (Htop n' note Hn' Hn).
    intros Hc. apply Hnot.
    apply in_map_iff. now exists note.
Qed.

End Statistics.

(* ================================================================== *)
(** ** Connection suggestions *)
(* ================================================================== *)

Section Suggesting.
Context {P : Platform}.

Lemma insert_sorted_by {A : Type} (cmp : A -> A -> Z) (R : A -> A -> Prop)
  (Q : A -> Prop) (x : A) (l : list A) :
  (forall a b, Q a -> Q b -> (cmp a b <= 0)%Z -> R a b) ->
  (forall a b, Q a -> Q b -> (0 < cmp a b)%Z -> R b a) ->
  (forall a b c, R a b -> R b c -> R a c) ->
  Q x -> Forall Q l -> StronglySorted R l ->
  StronglySorted R (insert_sorted cmp x l).
Proof.
  intros Hle Hgt Htrans Hx HQ Hs.
  induction Hs as [|y l Hl IH Hy]; simpl.
  - repeat constructor.
  - apply Forall_cons_iff in HQ. destruct HQ as [HQy HQ].
    destruct (Z.leb_spec (cmp y x) 0).
    + constructor; [now apply IH |].
      rewrite Forall_forall in *. intros z Hz.
      apply (Permutation_in _ (insert_sorted_perm _ x l)) in Hz.
      destruct Hz as [<- | Hz]; [now apply Hle | now apply Hy].
    + constructor; [now constructor |]. constructor; [now apply Hgt |].
      rewrite Forall_forall in *. intros z Hz.
      apply (Htrans _ y); [now apply Hgt | now apply Hy].
Qed.

Lemma sort_by {A : Type} (cmp : A -> A -> Z) (R : A -> A -> Prop)
  (Q : A -> Prop) (l : list A) :
  (forall a b, Q a -> Q b -> (cmp a b <= 0)%Z -> R a b) ->
  (forall a b, Q a -> Q b -> (0 < cmp a b)%Z -> R b a) ->
  (forall a b c, R a b -> R b c -> R a c) ->
  Forall Q l -> StronglySorted R (sort cmp l).
Proof.
  intros Hle Hgt Htrans. unfold sort.
  assert (forall acc, Forall Q acc -> StronglySorted R acc -> Forall Q l ->
                      StronglySorted R
                        (fold_left (fun acc x => insert_sorted cmp x acc)
                                   l acc)) as H.
  { induction l as [|x l IH]; intros acc HQacc Hacc HQ; simpl; [exact Hacc |].
    apply Forall_cons_iff in HQ. destruct HQ as [Hx HQ].
    apply IH; [| | exact HQ].
    - rewrite Forall_forall in *. intros z Hz.
      apply (Permutation_in _ (insert_sorted_perm _ x acc)) in Hz.
      destruct Hz as [<- | Hz]; [exact Hx | now apply HQacc].
    - now apply (insert_sorted_by cmp R Q). }
  intros HQ. apply H; [constructor | constructor | exact HQ].
Qed.

Lemma StronglySorted_firstn {A : Type} (R : A -> A -> Prop) (n : nat)
  (l : list A) :
  StronglySorted R l -> StronglySorted R (firstn n l).
Proof.
  intros H. revert n.
  induction H as [|y l Hl IH Hy]; intros [|n]; simpl; try constructor.
  - apply IH.
  - rewrite Forall_forall in *. intros z Hz. apply Hy.
    rewrite <- (firstn_skipn n l). apply in_or_app. now left.
Qed.

Lemma slice0_firstn {A : Type} (l : list A) (n : Z) :
  exists k, slice0 l n = firstn k l.
Proof. unfold slice0. destruct (n <? 0)%Z; eexists; reflexivity. Qed.

(** The suggestions for a note are made from the note that [readNote]
    returns and the cache it leaves: never the note itself, always a
    cached note that shares a tag with it, with a score above zero and
    at most one, best first, and no more than a non-negative
    [maxSuggestions] of them.  When the note cannot be read, the error
    of [readNote] is thrown. *)
Theorem suggestions_share_a_tag (notePath : string) (maxSuggestions : Z)
  (w w' : World) (l : list Suggestion) :
  suggestBasicConnections notePath maxSuggestions w = (w', Ok l) ->
  exists note,
    readNote notePath w = (w', Ok note)
    /\ Forall
         (fun s =>
            s_note s <> path note
            /\ (exists other,
                   In other (JsMap.values (noteCache (client w')))
                   /\ s_note s = path other
                   /\ exists t, In t (tags note) /\ In t (tags other))
            /\ (0 < fst (s_score s) <= snd (s_score s))%Z)
         l
    /\ StronglySorted outscores l
    /\ ((0 <= maxSuggestions)%Z ->
        (Z.of_nat (List.length l) <= maxSuggestions)%Z).
Proof.
  unfold suggestBasicConnections, bind, this, ret.
  destruct (readNote notePath w) as [w1 [note | e]] eqn:Er; [| discriminate].
  intros [= <- <-]. exists note. split; [reflexivity |].
  match goal with
  | |- context [sort by_score ?l] => set (suggestions := l)
  end.
  assert (Forall
            (fun s =>
               s_note s <> path note
               /\ (exists other,
                      In other (JsMap.values (noteCache (client w1)))
                      /\ s_note s = path other
                      /\ exists t, In t (tags note) /\ In t (tags other))
               /\ (0 < fst (s_score s) <= snd (s_score s))%Z)
            suggestions) as Hall.
  { rewrite Forall_forall. intros s Hs. unfold suggestions in Hs.
    apply in_flat_map in Hs. destruct Hs as (other & Hother & Hs).
    destruct (String.eqb_spec (path other) (path note)) as [| Hne];
      [contradiction |].
    set (commonTags := filter _ (tags note)) in Hs.
    destruct (Nat.ltb_spec 0 (List.length commonTags)) as [Hpos |];
      [| contradiction].
    destruct Hs as [<- | []]. cbn [s_note s_score fst snd].
    split; [exact Hne |]. split.
    - exists other. split; [exact Hother |]. split; [reflexivity |].
      destruct commonTags as [|t rest] eqn:Ec; [simpl in Hpos; lia |].
      assert (In t (filter (fun tag => existsb (String.eqb tag) (tags other))
                           (tags note))) as Ht.
      { fold commonTags. rewrite Ec. now left. }
      apply filter_In in Ht. destruct Ht as [Ht Hex].
      apply existsb_exists in Hex. destruct Hex as (t' & Ht' & Heq).
      apply String.eqb_eq in Heq. subst t'. now exists t.
    - pose proof (filter_length_le
                    (fun tag => existsb (String.eqb tag) (tags other))
                    (tags note)) as Hle.
      fold commonTags in Hle. lia. }
  destruct (slice0_firstn (sort by_score suggestions) maxSuggestions)
    as (k & Hk).
  split; [| split].
  - rewrite Forall_forall in *. intros s Hs. apply Hall.
    apply slice0_In in Hs.
    exact (Permutation_in _ (sort_perm _ _) Hs).
  - rewrite Hk. apply StronglySorted_firstn.
    apply (sort_by by_score outscores
             (fun s => (0 < snd (s_score s))%Z)).
    + intros a b Ha Hb Hc. unfold by_score in Hc. unfold outscores.
      repeat split; try assumption. lia.
    + intros a b Ha Hb Hc. unfold by_score in Hc. unfold outscores.
      repeat split; try assumption. lia.
    + intros a b c (Ha & Hb & Hab) (_ & Hc & Hbc). unfold outscores.
      repeat split; try assumption. nia.
    + eapply Forall_impl; [| exact Hall].
      intros s (_ & _ & Hs). cbv beta in Hs. lia.
  - intros Hmax. now apply slice0_length.
Qed.

End Suggesting.

(** Witness: of three notes, one shares a tag with [x.md]. *)
Lemma suggestions_share_a_tag_witness :
  map s_note (match snd Cases.suggested with Ok l => l | Err _ => [] end)
  = ["y.md"]
  /\ (Z.of_nat (List.length (match snd Cases.suggested with
                             | Ok l => l
                             | Err _ => []
                             end)) <= 5)%Z.
Proof.
  split; [vm_compute; reflexivity |].
  destruct (suggestions_share_a_tag (P := Mem.platform) "x.md" 5
              Cases.shared_tags (fst Cases.suggested)
              (match snd Cases.suggested with Ok l => l | Err _ => [] end)
              ltac:(vm_compute; reflexivity))
    as (note & _ & _ & _ & Hlen).
  apply Hlen. lia.
Defined.
